(** * Camelot key resolution engine

    A shallow embedding of the service worker [background.js] of the
    YouTube-Music Camelot extension, and the verification of its
    specification against that embedding.

    Strings are JavaScript strings: finite sequences of UTF-16 code units,
    here [list N].  Numbers that the code only compares and divides are
    exact rationals ([Q]); timestamps are integers ([Z], milliseconds). *)

From Stdlib Require Import ZArith NArith QArith Lia List String Ascii Bool DecimalString Sorted.
From stdpp Require Import base option list gmap.

Local Open Scope N_scope.

(* ===================================================================== *)
(** ** JavaScript strings and the string primitives the code uses        *)
(* ===================================================================== *)

Abbreviation jsstring := (list N).

(** A literal of the source, as code units (Basic Latin only). *)
Definition js (s : string) : jsstring :=
  List.map N_of_ascii (list_ascii_of_string s).

(** [x || ""] on a value that is a string, [null] or [undefined]. *)
Definition orEmpty (s : option jsstring) : jsstring :=
  match s with
  | Some v => v
  | None => []
  end.

(** The class [\s] of ECMAScript regular expressions, which is also the set
    [String.prototype.trim] strips: WhiteSpace and LineTerminator. *)
Definition isWhiteSpace (c : N) : bool :=
  ((9 <=? c) && (c <=? 13)) || (c =? 32) || (c =? 160) || (c =? 5760)
  || ((8192 <=? c) && (c <=? 8202)) || (c =? 8232) || (c =? 8233)
  || (c =? 8239) || (c =? 8287) || (c =? 12288) || (c =? 65279).

(** [s.replace(/[cls]+/g, " ")]: every maximal run of characters of the
    class becomes one space.  [inRun] tells that the previous character
    belonged to the run being replaced. *)
Fixpoint replaceRuns (cls : N -> bool) (inRun : bool) (s : jsstring) : jsstring :=
  match s with
  | [] => []
  | c :: r =>
      if cls c
      then if inRun then replaceRuns cls true r else 32 :: replaceRuns cls true r
      else c :: replaceRuns cls false r
  end.

(** [s.replace(/[cls]/g, by)] for a one-character replacement. *)
Definition replaceEach (cls : N -> bool) (by_ : N) (s : jsstring) : jsstring :=
  List.map (fun c => if cls c then by_ else c) s.

Fixpoint trimStart (s : jsstring) : jsstring :=
  match s with
  | [] => []
  | c :: r => if isWhiteSpace c then trimStart r else s
  end.

Definition trimEnd (s : jsstring) : jsstring := rev (trimStart (rev s)).

Definition trim (s : jsstring) : jsstring := trimEnd (trimStart s).

(** [String.prototype.toLowerCase] where the program compares the result
    with Basic Latin strings or matches it against Basic Latin patterns, one
    code unit at a time.  Basic Latin capitals are lowered; the only two code
    units outside Basic Latin whose lower-case form contains a Basic Latin
    letter are KELVIN SIGN (U+212A, to [k]) and CAPITAL I WITH DOT ABOVE
    (U+0130, to [i] followed by U+0307).  Every other code unit is kept as
    it is: ECMAScript may send it to another code unit outside Basic Latin
    and outside [\s], which no comparison or pattern of this program tells
    apart from the original.  On a Basic Latin string the function is
    [String.prototype.toLowerCase] itself.  Where the lower-case form of an
    arbitrary string is stored, the program is modelled with [lowered]
    below, not with this function. *)
Definition lowerUnit (c : N) : jsstring :=
  if (65 <=? c) && (c <=? 90) then [c + 32]
  else if c =? 8490 then [107]
  else if c =? 304 then [105; 775]
  else [c].

Definition toLowerCase (s : jsstring) : jsstring := flat_map lowerUnit s.

(** [String.prototype.toUpperCase] on Basic Latin; the program applies it
    only to strings that matched a pattern of Basic Latin letters. *)
Definition upperUnit (c : N) : N :=
  if (97 <=? c) && (c <=? 122) then c - 32 else c.

Definition toUpperCase (s : jsstring) : jsstring := List.map upperUnit s.

Fixpoint strEqb (a b : jsstring) : bool :=
  match a, b with
  | [], [] => true
  | x :: a', y :: b' => (x =? y) && strEqb a' b'
  | _, _ => false
  end.

(** [s.split(sep)] for a one-character separator. *)
Fixpoint split (sep : N) (s : jsstring) : list jsstring :=
  match s with
  | [] => [[]]
  | c :: r =>
      if c =? sep then [] :: split sep r
      else match split sep r with
           | t :: ts => (c :: t) :: ts
           | [] => [[c]]
           end
  end.

(** Truthiness of a string: only the empty string is falsy. *)
Definition nonEmpty (s : jsstring) : bool :=
  match s with
  | [] => false
  | _ :: _ => true
  end.

(** The strings [encodeURIComponent] accepts: every high surrogate
    (U+D800-U+DBFF) is followed by a low surrogate (U+DC00-U+DFFF), and no
    low surrogate stands without a high one before it.  On any other string
    [encodeURIComponent] throws a [URIError]. *)
Definition isHighSurrogate (c : N) : bool := (55296 <=? c) && (c <=? 56319).
Definition isLowSurrogate (c : N) : bool := (56320 <=? c) && (c <=? 57343).

Fixpoint encodable (s : jsstring) : bool :=
  match s with
  | [] => true
  | c :: r =>
      if isHighSurrogate c then
        match r with
        | d :: r' => isLowSurrogate d && encodable r'
        | [] => false
        end
      else negb (isLowSurrogate c) && encodable r
  end.

(* ===================================================================== *)
(** ** Text matching                                                      *)
(* ===================================================================== *)

Definition normalizeWhitespace (s : option jsstring) : jsstring :=
  trim (replaceRuns isWhiteSpace false (orEmpty s)).

(** The class [[’']]. *)
Definition isApostrophe (c : N) : bool := (c =? 8217) || (c =? 39).

(** The class [[^a-z0-9#\s]]. *)
Definition isNotMatchChar (c : N) : bool :=
  negb (((97 <=? c) && (c <=? 122)) || ((48 <=? c) && (c <=? 57))
        || (c =? 35) || isWhiteSpace c).

Definition normForMatch (s : option jsstring) : jsstring :=
  trim
    (replaceRuns isWhiteSpace false
       (replaceRuns isNotMatchChar false
          (replaceEach isApostrophe 39
             (toLowerCase (normalizeWhitespace s))))).

(** A [Set] of strings, in insertion order. *)
Definition setHas (A : list jsstring) (t : jsstring) : bool :=
  existsb (strEqb t) A.

Definition setAdd (A : list jsstring) (t : jsstring) : list jsstring :=
  if setHas A t then A else A ++ [t].

Definition newSet (l : list jsstring) : list jsstring :=
  fold_left setAdd l [].

Definition tokenSet (s : option jsstring) : list jsstring :=
  newSet (List.filter nonEmpty (split 32 (normForMatch s))).

(** The loop [for (const t of A) if (B.has(t)) inter++]. *)
Definition countShared (A B : list jsstring) : nat :=
  fold_left (fun inter t => if setHas B t then S inter else inter) A 0%nat.

Definition tokenOverlapScore (a b : option jsstring) : Q :=
  let A := tokenSet a in
  let B := tokenSet b in
  if (Nat.eqb (length A) 0) || (Nat.eqb (length B) 0) then 0%Q
  else (Z.of_nat (countShared A B) # Pos.of_nat (Nat.max (length A) (length B)))%Q.

(** Minimal Lucene escaping for quotes and backslashes. *)
Definition luceneEscapePhrase (s : option jsstring) : jsstring :=
  flat_map (fun c => if c =? 34 then [92; 34] else [c])
    (flat_map (fun c => if c =? 92 then [92; 92] else [c])
       (normalizeWhitespace s)).

(* ===================================================================== *)
(** ** Key theory                                                         *)
(* ===================================================================== *)

(** The values a property read [obj[k] || null] of the tables can yield: a
    string of the table, [null], [undefined], or a member that the object
    literal inherits from [Object.prototype]; and, for a field of a record,
    [s.toLowerCase()] for a string [s] that is not all Basic Latin.  What
    that string is depends on the Unicode tables of the host; it is kept as
    the string it is the lower-case form of. *)
Inductive jsval : Type :=
  | VUndefined
  | VNull
  | VString (s : jsstring)
  | VInherited (name : jsstring)
  | VLowered (s : jsstring).

(** The lower-case form of a string is empty only if the string is. *)
Definition truthy (v : jsval) : bool :=
  match v with
  | VUndefined | VNull => false
  | VString s => nonEmpty s
  | VInherited _ => true
  | VLowered s => nonEmpty s
  end.

(** [v || null] *)
Definition orNull (v : jsval) : jsval := if truthy v then v else VNull.

(** [s.toLowerCase()] as a value that is stored or sent: on a Basic Latin
    string it is computed; otherwise it is left to the host. *)
Definition isBasicLatin (s : jsstring) : bool := forallb (fun c => c <? 128) s.

Definition lowered (s : jsstring) : jsval :=
  if isBasicLatin s then VString (toLowerCase s) else VLowered s.

(** The property names of [Object.prototype]. *)
Definition objectPrototypeKeys : list jsstring :=
  List.map js
    ["constructor"; "__defineGetter__"; "__defineSetter__"; "hasOwnProperty";
     "__lookupGetter__"; "__lookupSetter__"; "isPrototypeOf";
     "propertyIsEnumerable"; "toString"; "valueOf"; "__proto__";
     "toLocaleString"]%string.

Fixpoint ownProp (obj : list (jsstring * jsstring)) (k : jsstring) : option jsstring :=
  match obj with
  | [] => None
  | (k', v) :: rest => if strEqb k k' then Some v else ownProp rest k
  end.

(** [obj[k]] on an object literal with string values. *)
Definition getProp (obj : list (jsstring * jsstring)) (k : jsstring) : jsval :=
  match ownProp obj k with
  | Some v => VString v
  | None => if setHas objectPrototypeKeys k then VInherited k else VUndefined
  end.

Definition table (l : list (string * string)) : list (jsstring * jsstring) :=
  List.map (fun p => (js (fst p), js (snd p))) l.

Definition flatsToSharps : list (jsstring * jsstring) :=
  table [("DB", "C#"); ("EB", "D#"); ("GB", "F#"); ("AB", "G#"); ("BB", "A#")]%string.

(** The class [[A-Ga-g]]. *)
Definition isNoteLetter (c : N) : bool :=
  ((65 <=? c) && (c <=? 71)) || ((97 <=? c) && (c <=? 103)).

(** [/^[A-Ga-g]b$/.test(k)] *)
Definition testFlat (k : jsstring) : bool :=
  match k with
  | [l; a] => isNoteLetter l && (a =? 98)
  | _ => false
  end.

(** [/^[A-Ga-g]#$/.test(k)] *)
Definition testSharp (k : jsstring) : bool :=
  match k with
  | [l; a] => isNoteLetter l && (a =? 35)
  | _ => false
  end.

(** [/^[A-Ga-g]$/.test(k)] *)
Definition testPlain (k : jsstring) : bool :=
  match k with
  | [l] => isNoteLetter l
  | _ => false
  end.

(** The two glyph replacements [/♭/g -> "b"] and [/♯/g -> "#"]. *)
Definition asciiAccidentals (k : jsstring) : jsstring :=
  replaceEach (N.eqb 9839) 35 (replaceEach (N.eqb 9837) 98 k).

Definition normalizeKeyName (key : option jsstring) : jsstring :=
  let k := asciiAccidentals (normalizeWhitespace key) in
  if testFlat k then
    let up := toUpperCase k in
    match getProp flatsToSharps up with
    | VString v => if nonEmpty v then v else firstn 1 up
    | _ => firstn 1 up  (* a two-letter name inherits nothing *)
    end
  else if testSharp k then toUpperCase (firstn 1 k) ++ [35]
  else if testPlain k then toUpperCase k
  else k.

Definition MAJOR : list (jsstring * jsstring) :=
  table [("C", "8B"); ("G", "9B"); ("D", "10B"); ("A", "11B"); ("E", "12B");
         ("B", "1B"); ("F#", "2B"); ("C#", "3B"); ("G#", "4B"); ("D#", "5B");
         ("A#", "6B"); ("F", "7B")]%string.

Definition MINOR : list (jsstring * jsstring) :=
  table [("A", "8A"); ("E", "9A"); ("B", "10A"); ("F#", "11A"); ("C#", "12A");
         ("G#", "1A"); ("D#", "2A"); ("A#", "3A"); ("F", "4A"); ("C", "5A");
         ("G", "6A"); ("D", "7A")]%string.

Definition keyToCamelot (key mode : option jsstring) : jsval :=
  let k := normalizeKeyName key in
  let m := toLowerCase (orEmpty mode) in
  if strEqb m (js "major") then orNull (getProp MAJOR k)
  else if strEqb m (js "minor") then orNull (getProp MINOR k)
  else VNull.

(** The class [[#b♯♭]], and the same class under the [i] flag. *)
Definition isAccidental (c : N) : bool :=
  (c =? 35) || (c =? 98) || (c =? 9839) || (c =? 9837).

Definition isAccidentalI (c : N) : bool := isAccidental c || (c =? 66).

(** The capture groups of [/^([A-Ga-g])([#b♯♭]?)(m)?$/]: letter, accidental,
    and whether the [m] is there. *)
Definition matchCompact (raw : jsstring) : option (N * jsstring * bool) :=
  match raw with
  | [l] => if isNoteLetter l then Some (l, [], false) else None
  | [l; c] =>
      if isNoteLetter l then
        if isAccidental c then Some (l, [c], false)
        else if c =? 109 then Some (l, [], true)
        else None
      else None
  | [l; c; m] =>
      if isNoteLetter l && isAccidental c && (m =? 109) then Some (l, [c], true)
      else None
  | _ => None
  end.

(** Matching a word against a Basic Latin pattern under the [i] flag: both
    sides are compared after canonicalisation, which never maps a code unit
    outside Basic Latin into it. *)
Definition matchesI (word pat : jsstring) : bool :=
  strEqb (toUpperCase word) (toUpperCase pat).

(** The capture groups of [/^([A-Ga-g])([#b♯♭]?)\s*(major|minor)$/i]. *)
Definition matchVerbose (raw : jsstring) : option (N * jsstring * jsstring) :=
  match raw with
  | [] => None
  | l :: r =>
      if isNoteLetter l then
        let '(acc, rest) :=
          match r with
          | c :: r' => if isAccidentalI c then ([c], r') else ([], r)
          | [] => ([], r)
          end in
        let word := trimStart rest in
        if matchesI word (js "major") || matchesI word (js "minor")
        then Some (l, acc, word)
        else None
      else None
  end.

(** [acc.replace("♯", "#").replace("♭", "b")] *)
Definition accToAscii (acc : jsstring) : jsstring := asciiAccidentals acc.

(** Parse GetSongBPM key strings like "Em", "F#m", "Bb", "Bbm". *)
Definition parseGetsongKeyOf (keyOfRaw : option jsstring) : option (jsstring * jsstring) :=
  let raw := normalizeWhitespace keyOfRaw in
  if negb (nonEmpty raw) then None
  else
    match matchCompact raw with
    | Some (l, acc, isMinor) =>
        let letter := toUpperCase [l] in
        let key := normalizeKeyName (Some (letter ++ accToAscii acc)) in
        let scale := if isMinor then js "minor" else js "major" in
        Some (key, scale)
    | None =>
        match matchVerbose raw with
        | Some (l, acc, word) =>
            let letter := toUpperCase [l] in
            let key := normalizeKeyName (Some (letter ++ accToAscii acc)) in
            Some (key, toLowerCase word)
        | None => None
        end
    end.


Local Close Scope N_scope.
Local Open Scope Z_scope.

(* ===================================================================== *)
(** ** Constants and data model                                           *)
(* ===================================================================== *)

Definition CACHE_TTL_MS : Z := 1000 * 60 * 60 * 24 * 30.
Definition MUSICBRAINZ_MIN_SCORE : Z := 60.
Definition GETSONG_KEY_STORAGE : jsstring := js "getsongApiKey".
Definition MB_MIN_INTERVAL_MS : Z := 1100.

(** The record that is cached and answered.  A field that the object literal
    does not set reads as [VUndefined]. *)
Record ResolvedKey : Type := mkResolvedKey {
  camelot : jsval;
  key : jsval;
  mode : jsval;
  provider : jsval;
  providerId : jsval;
  mbid : jsval;
  score : option Z;
  cachedAt : Z
}.

(** What [lookupViaGetSongBpm] returns when it has a match. *)
Record GsbHit : Type := mkGsbHit {
  g_camelot : jsval;
  g_key : jsstring;
  g_mode : jsstring;
  g_provider : jsstring;
  g_providerId : jsval
}.

(** One element of [data.search] of the GetSongBPM answer. *)
Record SongItem : Type := mkSongItem {
  s_title : option jsstring;
  s_artistName : option jsstring;
  s_key_of : option jsstring;
  s_id : option jsstring
}.

(** One element of [data.recordings] of the MusicBrainz answer. *)
Record Recording : Type := mkRecording {
  r_id : option jsstring;
  r_score : option Z
}.

Record Candidate : Type := mkCandidate {
  c_mbid : jsstring;
  c_score : Z
}.

(** [data.tonal] of the AcousticBrainz answer. *)
Record Tonal : Type := mkTonal {
  key_key : option jsstring;
  chords_key : option jsstring;
  key_scale : option jsstring;
  chords_scale : option jsstring
}.

(** A parsed JSON body; a member that is missing or has another shape than
    the code expects is [None]. *)
Record Json : Type := mkJson {
  j_search : option (list SongItem);
  j_recordings : option (list Recording);
  j_tonal : option Tonal
}.

(** A [Response]: its status, and what [res.json()] settles to ([None] when it
    rejects). *)
Record Response : Type := mkResponse {
  status : Z;
  json : option Json
}.

Definition ok (res : Response) : bool := (200 <=? status res) && (status res <=? 299).

(** The requests the worker issues.  A URL is represented by the parts the
    source interpolates into it, before percent-encoding. *)
Inductive Request : Type :=
  | ReqGetSong (apiKey lookup : jsstring)
  | ReqMbSearch (query : jsstring)
  | ReqAbLowLevel (mbid : jsstring) (n : nat).

Inductive Error : Type :=
  | ErrNetwork (message : jsstring)   (* fetch rejected *)
  | ErrJson                           (* res.json() rejected *)
  | ErrHttp (st : Z)                  (* Error(`MusicBrainz HTTP ${res.status}`) *)
  | ErrType                           (* TypeError *)
  | ErrURI.                           (* URIError, of encodeURIComponent *)

Inductive NetResult : Type :=
  | NetReject (e : Error)
  | NetOk (res : Response).

(** What [chrome.storage.local] holds: the credential string, or records. *)
Inductive StoreVal : Type :=
  | SString (s : jsstring)
  | SRecord (r : ResolvedKey).

(** The argument of [sendResponse]. *)
Inductive Payload : Type :=
  | PayloadOk (data : option ResolvedKey)   (* { ok: true, data } *)
  | PayloadFail (e : Error).                (* { ok: false, error: String(e?.message || e) } *)

(* ===================================================================== *)
(** ** Effects                                                            *)
(* ===================================================================== *)

(** The body of an [async] function: a tree of the effects it performs.
    [Sleep], [Fetch], [Suspend], [StorageGet] and [StorageSet] are the points
    where the function is suspended at an [await]; the others run without
    yielding. *)
Inductive Prog (A : Type) : Type :=
  | Ret (a : A)
  | Throw (e : Error)
  | DateNow (k : Z -> Prog A)
  | GetLastMb (k : Z -> Prog A)
  | SetLastMb (t : Z) (k : Prog A)
  | Sleep (ms : Z) (k : Prog A)
  | Fetch (r : Request) (k : NetResult -> Prog A)
  | Suspend (k : Prog A)
  | StorageGet (k_ : jsstring) (k : option StoreVal -> Prog A)
  | StorageSet (k_ : jsstring) (v : StoreVal) (k : Prog A)
  | Warn (k : Prog A)
  | SendResponse (caller : nat) (p : Payload) (k : Prog A).

Arguments Ret {A} a.
Arguments Throw {A} e.
Arguments DateNow {A} k.
Arguments GetLastMb {A} k.
Arguments SetLastMb {A} t k.
Arguments Sleep {A} ms k.
Arguments Fetch {A} r k.
Arguments Suspend {A} k.
Arguments StorageGet {A} k_ k.
Arguments StorageSet {A} k_ v k.
Arguments Warn {A} k.
Arguments SendResponse {A} caller p k.

Fixpoint bind {A B : Type} (p : Prog A) (f : A -> Prog B) : Prog B :=
  match p with
  | Ret a => f a
  | Throw e => Throw e
  | DateNow k => DateNow (fun t => bind (k t) f)
  | GetLastMb k => GetLastMb (fun t => bind (k t) f)
  | SetLastMb t k => SetLastMb t (bind k f)
  | Sleep ms k => Sleep ms (bind k f)
  | Fetch r k => Fetch r (fun x => bind (k x) f)
  | Suspend k => Suspend (bind k f)
  | StorageGet key k => StorageGet key (fun x => bind (k x) f)
  | StorageSet key v k => StorageSet key v (bind k f)
  | Warn k => Warn (bind k f)
  | SendResponse c p k => SendResponse c p (bind k f)
  end.

(** [try { p } catch (e) { h e }] *)
Fixpoint tryCatch {A : Type} (p : Prog A) (h : Error -> Prog A) : Prog A :=
  match p with
  | Ret a => Ret a
  | Throw e => h e
  | DateNow k => DateNow (fun t => tryCatch (k t) h)
  | GetLastMb k => GetLastMb (fun t => tryCatch (k t) h)
  | SetLastMb t k => SetLastMb t (tryCatch k h)
  | Sleep ms k => Sleep ms (tryCatch k h)
  | Fetch r k => Fetch r (fun x => tryCatch (k x) h)
  | Suspend k => Suspend (tryCatch k h)
  | StorageGet key k => StorageGet key (fun x => tryCatch (k x) h)
  | StorageSet key v k => StorageSet key v (tryCatch k h)
  | Warn k => Warn (tryCatch k h)
  | SendResponse c p k => SendResponse c p (tryCatch k h)
  end.

Declare Scope prog_scope.
Delimit Scope prog_scope with prog.
Notation "'do' x <- p ; q" := (bind p (fun x => q))
  (at level 10, x name, p at level 100, q at level 200) : prog_scope.
Notation "'exec' p ; q" := (bind p (fun _ => q))
  (at level 10, p at level 100, q at level 200) : prog_scope.
Local Open Scope prog_scope.

(** The effects of a program, and the programs all of whose effects satisfy
    a given property. *)
Inductive OpDesc : Type :=
  | ODateNow
  | OGetLastMb
  | OSetLastMb (t : Z)
  | OSleep (ms : Z)
  | OFetch (r : Request)
  | OSuspend
  | OStorageGet (k_ : jsstring)
  | OStorageSet (k_ : jsstring) (v : StoreVal)
  | OWarn
  | OSendResponse (caller : nat) (p : Payload).

Inductive Always {A : Type} (P : OpDesc -> Prop) : Prog A -> Prop :=
  | Always_Ret a : Always P (Ret a)
  | Always_Throw e : Always P (Throw e)
  | Always_DateNow k :
      P ODateNow -> (forall t, Always P (k t)) -> Always P (DateNow k)
  | Always_GetLastMb k :
      P OGetLastMb -> (forall t, Always P (k t)) -> Always P (GetLastMb k)
  | Always_SetLastMb t k :
      P (OSetLastMb t) -> Always P k -> Always P (SetLastMb t k)
  | Always_Sleep ms k :
      P (OSleep ms) -> Always P k -> Always P (Sleep ms k)
  | Always_Fetch r k :
      P (OFetch r) -> (forall x, Always P (k x)) -> Always P (Fetch r k)
  | Always_Suspend k :
      P OSuspend -> Always P k -> Always P (Suspend k)
  | Always_StorageGet k_ k :
      P (OStorageGet k_) -> (forall x, Always P (k x)) -> Always P (StorageGet k_ k)
  | Always_StorageSet k_ v k :
      P (OStorageSet k_ v) -> Always P k -> Always P (StorageSet k_ v k)
  | Always_Warn k :
      P OWarn -> Always P k -> Always P (Warn k)
  | Always_SendResponse c p k :
      P (OSendResponse c p) -> Always P k -> Always P (SendResponse c p k).

Definition sleep (ms : Z) : Prog unit := Sleep ms (Ret tt).

(** [await fetch(url, ...)]: a rejected fetch throws at the [await]. *)
Definition fetch (r : Request) : Prog Response :=
  Fetch r (fun x => match x with
                    | NetReject e => Throw e
                    | NetOk res => Ret res
                    end).

(** [await res.json()] *)
Definition resJson (res : Response) : Prog Json :=
  Suspend (match json res with
           | Some j => Ret j
           | None => Throw ErrJson
           end).

(** [encodeURIComponent(s)], which throws on a string with a lone
    surrogate.  A request carries the string before percent-encoding (see
    [Request]), so the encoded string stands for itself. *)
Definition encodeURIComponent (s : jsstring) : Prog jsstring :=
  if encodable s then Ret s else Throw ErrURI.

Definition storageGet (keys : jsstring) : Prog (option StoreVal) :=
  StorageGet keys (fun v => Ret v).

Definition storageSet (k_ : jsstring) (v : StoreVal) : Prog unit :=
  StorageSet k_ v (Ret tt).

Definition getGetsongApiKey : Prog jsstring :=
  do r <- storageGet GETSONG_KEY_STORAGE;
  match r with
  | None => Ret (trim [])
  | Some (SString s) => Ret (trim s)
  | Some (SRecord _) => Throw ErrType   (* an object has no [trim] *)
  end.

Definition rateLimitedMusicBrainzFetch (query : jsstring) : Prog Json :=
  DateNow (fun now =>
  GetLastMb (fun lastMbRequestAt =>
  let wait := Z.max 0 (MB_MIN_INTERVAL_MS - (now - lastMbRequestAt)) in
  exec (if wait =? 0 then Ret tt else sleep wait);
  DateNow (fun now' =>
  SetLastMb now' (
  do res <- fetch (ReqMbSearch query);
  if negb (ok res) then Throw (ErrHttp (status res))
  else resJson res)))).

(** [Array.prototype.sort] with a consistent comparator is a stable sort.
    [precedes x y] says that the comparator is negative at [(x, y)]. *)
Section StableSort.
Context {A : Type} (precedes : A -> A -> bool).

Fixpoint insertSorted (x : A) (l : list A) : list A :=
  match l with
  | [] => [x]
  | y :: l' => if precedes y x then y :: insertSorted x l' else x :: l
  end.

Definition stableSort (l : list A) : list A := fold_right insertSorted [] l.

End StableSort.

(** [a ?? b] *)
Definition nullish {A : Type} (a b : option A) : option A :=
  match a with
  | Some x => Some x
  | None => b
  end.

(** [{ mbid: r.id, score: Number(r.score ?? 0) }], kept when [x.mbid] is
    truthy (the [map] and the first [filter]). *)
Definition toCandidate (r : Recording) : option Candidate :=
  match r_id r with
  | Some i => if nonEmpty i then Some (mkCandidate i (default 0 (r_score r))) else None
  | None => None
  end.

(** The comparator [(x, y) => y.score - x.score] is negative. *)
Definition higherScore (x y : Candidate) : bool := c_score y - c_score x <? 0.

Definition rankRecordings (recs : list Recording) : list Candidate :=
  firstn 6
    (List.filter (fun x => MUSICBRAINZ_MIN_SCORE <=? c_score x)
       (stableSort higherScore (omap toCandidate recs))).

(** The loop [for (const q of queries)]. *)
Fixpoint searchQueries (queries : list jsstring) : Prog (list Candidate) :=
  match queries with
  | [] => Ret []
  | q :: rest =>
      do encoded <- encodeURIComponent q;
      do data <- rateLimitedMusicBrainzFetch encoded;
      let recs := default [] (j_recordings data) in
      let ranked := rankRecordings recs in
      if negb (Nat.eqb (length ranked) 0) then Ret ranked
      else searchQueries rest
  end.

Definition searchMusicBrainzRecordings (title artist : jsstring) : Prog (list Candidate) :=
  let t := luceneEscapePhrase (Some title) in
  let a := luceneEscapePhrase (Some artist) in
  let queries :=
    [ js "recording:" ++ [34%N] ++ t ++ [34%N] ++ js " AND artist:" ++ [34%N] ++ a ++ [34%N];
      js "recording:" ++ [34%N] ++ t ++ [34%N] ++ js " AND artist:" ++ a;
      js "recording:" ++ [34%N] ++ t ++ [34%N] ] in
  searchQueries queries.

(** The loop [for (let n = 0; n < 3; n++)], over the values of [n] left. *)
Fixpoint abSubmissions (mbid_ : jsstring) (ns : list nat) : Prog (option (jsstring * jsstring)) :=
  match ns with
  | [] => Ret None
  | n :: rest =>
      do res <- fetch (ReqAbLowLevel mbid_ n);
      if status res =? 404 then Ret None
      else if negb (ok res) then Ret None
      else
        do data <- resJson res;
        let tonal := j_tonal data in
        let key_ := nullish (tonal ≫= key_key) (tonal ≫= chords_key) in
        let scale := nullish (tonal ≫= key_scale) (tonal ≫= chords_scale) in
        match key_, scale with
        | Some k, Some sc =>
            if nonEmpty k && nonEmpty sc then Ret (Some (k, sc))
            else abSubmissions mbid_ rest
        | _, _ => abSubmissions mbid_ rest
        end
  end.

Definition fetchAcousticBrainzKeyAnySubmission (mbid_ : jsstring) : Prog (option (jsstring * jsstring)) :=
  abSubmissions mbid_ [0%nat; 1%nat; 2%nat].

(** *** Numbers

    The scores of Provider A are IEEE 754 binary64 numbers.  A finite
    binary64 number is a rational, and an operation of the code yields the
    binary64 number nearest to the exact result, ties going to the even
    significand: [double] is that rounding, on exact rationals.  The
    significand has 53 bits and the least exponent of a unit in the last
    place is -1074 (gradual underflow).  Overflow is not represented: the
    numbers of this program lie between -1 and 1. *)

(** The integer nearest to [n / d], ties to even, for [0 <= n]. *)
Definition roundHalfEven (n : Z) (d : positive) : Z :=
  let q := n / Zpos d in
  let r := n mod Zpos d in
  match 2 * r ?= Zpos d with
  | Lt => q
  | Gt => q + 1
  | Eq => if Z.even q then q else q + 1
  end.

(** The exponent [e] with [2 ^ e <= n / d < 2 ^ (e + 1)]. *)
Definition floorLog2 (n d : positive) : Z :=
  let e := Z.log2 (Zpos n) - Z.log2 (Zpos d) in
  if (if 0 <=? e then Zpos d * 2 ^ e <=? Zpos n else Zpos d <=? Zpos n * 2 ^ (- e))
  then e else e - 1.

(** [n / d] rounded to a multiple of the unit in the last place [2 ^ u]. *)
Definition doublePos (n d : positive) : Q :=
  let e := floorLog2 n d in
  let u := Z.max (e - 52) (-1074) in
  if 0 <=? u then inject_Z (roundHalfEven (Zpos n) (d * Z.to_pos (2 ^ u)) * 2 ^ u)
  else roundHalfEven (Zpos n * 2 ^ (- u)) d # Z.to_pos (2 ^ (- u)).

Definition double (x : Q) : Q :=
  match Qnum x with
  | Z0 => 0
  | Zpos n => doublePos n (Qden x)
  | Zneg n => - doublePos n (Qden x)
  end.

(** The operators [*], [+], [-] and [/] on numbers. *)
Definition dmul (x y : Q) : Q := double (x * y).
Definition dadd (x y : Q) : Q := double (x + y).
Definition dsub (x y : Q) : Q := double (x - y).

(** Primary: GetSongBPM search.  [tokenOverlapScore] is the exact quotient;
    the number the code gets from the division is [double] of it.  The
    literals [0.7] and [0.3] denote the binary64 numbers nearest to them. *)
Definition gsbScore (title artist : jsstring) (s : SongItem) : Q :=
  let tScore := double (tokenOverlapScore (Some (orEmpty (s_title s))) (Some title)) in
  let aScore := double (tokenOverlapScore (Some (orEmpty (s_artistName s))) (Some artist)) in
  dadd (dmul tScore (double (7 # 10))) (dmul aScore (double (3 # 10))).

(** The comparator [(a, b) => b.score - a.score] is negative. *)
Definition higherQ (a b : SongItem * Q) : bool :=
  negb (Qle_bool 0 (dsub (snd b) (snd a))).

Definition rankItems (title artist : jsstring) (items : list SongItem) : list (SongItem * Q) :=
  stableSort higherQ (List.map (fun s => (s, gsbScore title artist s)) items).

(** The loop [for (const { s } of ranked.slice(0, 5))]. *)
Fixpoint firstParsed (l : list (SongItem * Q)) : option GsbHit :=
  match l with
  | [] => None
  | (s, _) :: rest =>
      match parseGetsongKeyOf (s_key_of s) with
      | None => firstParsed rest
      | Some (k, sc) =>
          let camelot_ := keyToCamelot (Some k) (Some sc) in
          Some {| g_camelot := orNull camelot_;
                  g_key := k;
                  g_mode := sc;
                  g_provider := js "getsongbpm";
                  g_providerId := match s_id s with
                                  | Some i => if nonEmpty i then VString i else VNull
                                  | None => VNull
                                  end |}
      end
  end.

Definition lookupViaGetSongBpm (title artist : jsstring) : Prog (option GsbHit) :=
  do apiKey <- getGetsongApiKey;
  if negb (nonEmpty apiKey) then Warn (Ret None)
  else
    let lookup := js "song:" ++ normalizeWhitespace (Some title)
                  ++ js " artist:" ++ normalizeWhitespace (Some artist) in
    do encoded <- encodeURIComponent lookup;
    do res <- fetch (ReqGetSong apiKey encoded);
    if negb (ok res) then Ret None
    else
      do data <- resJson res;
      let items := default [] (j_search data) in
      if Nat.eqb (length items) 0 then Ret None
      else
        let ranked := rankItems title artist items in
        Ret (firstParsed (firstn 5 ranked)).

(** [cached && (now - cached.cachedAt) < CACHE_TTL_MS]; a stored string has
    no [cachedAt], and the comparison with [NaN] is false. *)
Definition freshCached (now : Z) (cache : option StoreVal) : option ResolvedKey :=
  match cache with
  | Some (SRecord cached) =>
      if now - cachedAt cached <? CACHE_TTL_MS then Some cached else None
  | _ => None
  end.

(** The loop [for (const mb of candidates)]; [None] when it falls through. *)
Fixpoint firstWithTonal (now : Z) (cacheKey : jsstring) (candidates : list Candidate)
  : Prog (option ResolvedKey) :=
  match candidates with
  | [] => Ret None
  | mb :: rest =>
      do ab <- fetchAcousticBrainzKeyAnySubmission (c_mbid mb);
      match ab with
      | None => firstWithTonal now cacheKey rest
      | Some (abKey, abScale) =>
          let camelot_ := keyToCamelot (Some abKey) (Some abScale) in
          let out := {| camelot := orNull camelot_;
                        key := VString (normalizeKeyName (Some abKey));
                        mode := orNull (lowered abScale);
                        provider := VUndefined;
                        providerId := VUndefined;
                        mbid := VString (c_mbid mb);
                        score := Some (c_score mb);
                        cachedAt := now |} in
          exec storageSet cacheKey (SRecord out);
          Ret (Some out)
      end
  end.

(** The part of [lookupCamelot] after the cache check. *)
Definition resolveUncached (now : Z) (cacheKey title artist : jsstring) : Prog ResolvedKey :=
  (* 1) Try GetSongBPM first *)
  do gsb <- lookupViaGetSongBpm title artist;
  match gsb with
  | Some g =>
      let out := {| camelot := g_camelot g;
                    key := VString (g_key g);
                    mode := VString (g_mode g);
                    provider := VString (g_provider g);
                    providerId := g_providerId g;
                    mbid := VNull;
                    score := None;
                    cachedAt := now |} in
      exec storageSet cacheKey (SRecord out);
      Ret out
  | None =>
      (* 2) Fallback: MusicBrainz -> AcousticBrainz *)
      do candidates <- searchMusicBrainzRecordings title artist;
      match candidates with
      | [] =>
          let miss := {| camelot := VNull; key := VNull; mode := VNull;
                         provider := VUndefined; providerId := VUndefined;
                         mbid := VNull; score := None; cachedAt := now |} in
          exec storageSet cacheKey (SRecord miss);
          Ret miss
      | top :: _ =>
          do hit <- firstWithTonal now cacheKey candidates;
          match hit with
          | Some out => Ret out
          | None =>
              (* Miss *)
              let miss := {| camelot := VNull; key := VNull; mode := VNull;
                             provider := VUndefined; providerId := VUndefined;
                             mbid := VString (c_mbid top);
                             score := Some (c_score top);
                             cachedAt := now |} in
              exec storageSet cacheKey (SRecord miss);
              Ret miss
          end
      end
  end.

Definition lookupCamelot (cacheKey title artist : jsstring) : Prog ResolvedKey :=
  DateNow (fun now =>
  (* Cache check *)
  do cache <- storageGet cacheKey;
  match freshCached now cache with
  | Some cached => Ret cached
  | None => resolveUncached now cacheKey title artist
  end).

(* ===================================================================== *)
(** ** The message listener                                               *)
(* ===================================================================== *)

Record Message : Type := mkMessage {
  m_type : option jsstring;
  m_title : option jsstring;
  m_artist : option jsstring;
  m_cacheKey : option jsstring
}.

(** [t !== "LOOKUP_CAMELOT" && t !== "LOOKUP_CAMELot"] is false. *)
Definition isLookup (msg : Message) : bool :=
  match m_type msg with
  | Some t => strEqb t (js "LOOKUP_CAMELOT") || strEqb t (js "LOOKUP_CAMELot")
  | None => false
  end.

(** [!title || !artist || !cacheKey] *)
Definition incomplete (msg : Message) : bool :=
  negb (nonEmpty (normalizeWhitespace (m_title msg)))
  || negb (nonEmpty (normalizeWhitespace (m_artist msg)))
  || negb (nonEmpty (orEmpty (m_cacheKey msg))).

(** The [async] callback that the listener chains on [queue];
    [caller] identifies the [sendResponse] of the message. *)
Definition job (caller : nat) (msg : Message) : Prog unit :=
  tryCatch
    (let title := normalizeWhitespace (m_title msg) in
     let artist := normalizeWhitespace (m_artist msg) in
     let cacheKey := m_cacheKey msg in
     if incomplete msg then SendResponse caller (PayloadOk None) (Ret tt)
     else
       do data <- lookupCamelot (orEmpty cacheKey) title artist;
       SendResponse caller (PayloadOk (Some data)) (Ret tt))
    (fun e => SendResponse caller (PayloadFail e) (Ret tt)).

(* ===================================================================== *)
(** ** Worlds and the sequential semantics                                *)
(* ===================================================================== *)

Inductive Event : Type :=
  | EvFetch (at_ : Z) (r : Request)        (* a request leaves at time [at_] *)
  | EvSend (caller : nat) (p : Payload)    (* sendResponse(p) *)
  | EvWarn.

(** The state of the worker and of its host: the clock that [Date.now()]
    reads, the global [lastMbRequestAt], [chrome.storage.local], the number
    of awaits passed so far, and what has been observed. *)
Record World : Type := mkWorld {
  clock : Z;
  lastMbRequestAt : Z;
  storage : gmap jsstring StoreVal;
  awaits : nat;
  trace : list Event
}.

(** The outside: what each request is answered with and how long each await
    lasts (beyond the delay asked for, for a timer), by the number of the
    await. *)
Record Env : Type := mkEnv {
  respond : nat -> Request -> NetResult;
  elapsed : nat -> N
}.

Definition setLast (t : Z) (w : World) : World :=
  mkWorld (clock w) t (storage w) (awaits w) (trace w).

Definition setStorage (k_ : jsstring) (v : StoreVal) (w : World) : World :=
  mkWorld (clock w) (lastMbRequestAt w) (<[k_ := v]> (storage w)) (awaits w) (trace w).

Definition logEvent (e : Event) (w : World) : World :=
  mkWorld (clock w) (lastMbRequestAt w) (storage w) (awaits w) (trace w ++ [e]).

(** One await goes by: [ms] is the delay asked for. *)
Definition pass (env : Env) (ms : Z) (w : World) : World :=
  mkWorld (clock w + Z.max 0 ms + Z.of_N (elapsed env (awaits w)))
          (lastMbRequestAt w) (storage w) (S (awaits w)) (trace w).

Inductive Outcome (A : Type) : Type :=
  | Returned (a : A)
  | Thrown (e : Error).

Arguments Returned {A} a.
Arguments Thrown {A} e.

(** Running an [async] function to its end, with nothing else interleaved. *)
Fixpoint run {A : Type} (env : Env) (p : Prog A) (w : World) : Outcome A * World :=
  match p with
  | Ret a => (Returned a, w)
  | Throw e => (Thrown e, w)
  | DateNow k => run env (k (clock w)) w
  | GetLastMb k => run env (k (lastMbRequestAt w)) w
  | SetLastMb t k => run env k (setLast t w)
  | Sleep ms k => run env k (pass env ms w)
  | Fetch r k =>
      run env (k (respond env (awaits w) r))
          (pass env 0 (logEvent (EvFetch (clock w) r) w))
  | Suspend k => run env k (pass env 0 w)
  | StorageGet k_ k => run env (k (storage w !! k_)) (pass env 0 w)
  | StorageSet k_ v k => run env k (pass env 0 (setStorage k_ v w))
  | Warn k => run env k (logEvent EvWarn w)
  | SendResponse c p k => run env k (logEvent (EvSend c p) w)
  end.

(** The times at which requests to MusicBrainz, resp. AcousticBrainz, left. *)
Definition mbTimes (tr : list Event) : list Z :=
  omap (fun e => match e with
                 | EvFetch t (ReqMbSearch _) => Some t
                 | _ => None
                 end) tr.

Definition abTimes (tr : list Event) : list Z :=
  omap (fun e => match e with
                 | EvFetch t (ReqAbLowLevel _ _) => Some t
                 | _ => None
                 end) tr.

Definition fetches (tr : list Event) : list Request :=
  omap (fun e => match e with
                 | EvFetch _ r => Some r
                 | _ => None
                 end) tr.

(** Consecutive times are at least [gap] apart. *)
Fixpoint spaced (gap : Z) (ts : list Z) : Prop :=
  match ts with
  | [] => True
  | t :: rest =>
      match rest with
      | [] => True
      | t' :: _ => t + gap <= t'
      end /\ spaced gap rest
  end.

(* ===================================================================== *)
(** ** The promise chain and the interleaved semantics                    *)
(* ===================================================================== *)

Inductive PromiseState : Type :=
  | Pending
  | Fulfilled
  | Rejected (e : Error).

(** [awaited.then(callback)], which made the promise [derived]. *)
Record Reaction : Type := mkReaction {
  awaited : nat;
  derived : nat;
  callback : Prog unit
}.

(** A callback that has started and is suspended at an await; it settles the
    promise [settles] when it ends. *)
Record Task : Type := mkTask {
  settles : nat;
  remaining : Prog unit
}.

(** The worker: the promises made so far (a promise is its index), the
    variable [queue], the callbacks registered with [then] and not yet
    started, the callbacks in flight, the number of messages received. *)
Record Sys : Type := mkSys {
  promises : list PromiseState;
  queue : nat;
  reactions : list Reaction;
  tasks : list Task;
  arrived : nat;
  world : World
}.

(** [let queue = Promise.resolve()] *)
Definition initial (w : World) : Sys :=
  mkSys [Fulfilled] 0 [] [] 0 w.

(** Runs a callback up to its next await (or its end).  A request leaves
    and a write is done when the await is reached. *)
Fixpoint advance (p : Prog unit) (w : World) : Prog unit * World :=
  match p with
  | DateNow k => advance (k (clock w)) w
  | GetLastMb k => advance (k (lastMbRequestAt w)) w
  | SetLastMb t k => advance k (setLast t w)
  | Warn k => advance k (logEvent EvWarn w)
  | SendResponse c pl k => advance k (logEvent (EvSend c pl) w)
  | Fetch r _ => (p, logEvent (EvFetch (clock w) r) w)
  | StorageSet k_ v _ => (p, setStorage k_ v w)
  | _ => (p, w)
  end.

(** The continuation of a suspended callback when its await settles;
    [x] is the network's answer, used when the await is a [fetch]. *)
Definition resume (p : Prog unit) (x : NetResult) (w : World) : option (Prog unit) :=
  match p with
  | Sleep _ k => Some k
  | Suspend k => Some k
  | Fetch _ k => Some (k x)
  | StorageGet k_ k => Some (k (storage w !! k_))
  | StorageSet _ _ k => Some k
  | _ => None
  end.

Definition settle (d : nat) (st : PromiseState) (ps : list PromiseState) : list PromiseState :=
  <[d := st]> ps.

(** Where a callback stands after [advance]: ended, or in flight. *)
Definition land (d : nat) (pw : Prog unit * World) (s : Sys) (rs : list Reaction)
    (ts : list Task) : Sys :=
  match fst pw with
  | Ret _ => mkSys (settle d Fulfilled (promises s)) (queue s) rs ts (arrived s) (snd pw)
  | Throw e => mkSys (settle d (Rejected e) (promises s)) (queue s) rs ts (arrived s) (snd pw)
  | p => mkSys (promises s) (queue s) rs (ts ++ [mkTask d p]) (arrived s) (snd pw)
  end.

Definition tick (d : N) (w : World) : World :=
  mkWorld (clock w + Z.of_N d) (lastMbRequestAt w) (storage w) (awaits w) (trace w).

(** The listener, on a message: a message that is not a lookup makes it
    return at once; a lookup runs [queue = queue.then(async () => ...)]. *)
Definition listener (msg : Message) (s : Sys) : Sys :=
  if isLookup msg then
    mkSys (promises s ++ [Pending]) (length (promises s))
          (reactions s ++ [mkReaction (queue s) (length (promises s))
                                      (job (arrived s) msg)])
          (tasks s) (S (arrived s)) (world s)
  else
    mkSys (promises s) (queue s) (reactions s) (tasks s) (S (arrived s)) (world s).

Inductive step : Sys -> Sys -> Prop :=
  (* a message arrives *)
  | step_message s msg :
      step s (listener msg s)
  (* the promise a callback waits for is fulfilled: the callback starts *)
  | step_react s rs1 r rs2 :
      reactions s = rs1 ++ r :: rs2 ->
      promises s !! awaited r = Some Fulfilled ->
      step s (land (derived r) (advance (callback r) (world s)) s (rs1 ++ rs2) (tasks s))
  (* the promise a callback waits for is rejected: so is the derived one *)
  | step_skip s rs1 r rs2 e :
      reactions s = rs1 ++ r :: rs2 ->
      promises s !! awaited r = Some (Rejected e) ->
      step s (mkSys (settle (derived r) (Rejected e) (promises s)) (queue s)
                    (rs1 ++ rs2) (tasks s) (arrived s) (world s))
  (* the await of a callback in flight settles: the callback goes on *)
  | step_resume s ts1 t ts2 x k :
      tasks s = ts1 ++ t :: ts2 ->
      resume (remaining t) x (world s) = Some k ->
      step s (land (settles t) (advance k (world s)) s (reactions s) (ts1 ++ ts2))
  (* time goes by *)
  | step_tick s d :
      step s (mkSys (promises s) (queue s) (reactions s) (tasks s) (arrived s)
                    (tick d (world s))).

Inductive reachable (w0 : World) : Sys -> Prop :=
  | reach_init : reachable w0 (initial w0)
  | reach_step s s' : reachable w0 s -> step s s' -> reachable w0 s'.

(** The callers answered so far, in the order of the answers. *)
Definition answered (tr : list Event) : list nat :=
  omap (fun e => match e with
                 | EvSend c _ => Some c
                 | _ => None
                 end) tr.

(* ===================================================================== *)
(** ** Reference definitions the specification is stated with            *)
(* ===================================================================== *)

(** The twelve normalized note names, by pitch class (C = 0). *)
Definition noteNames : list jsstring :=
  List.map js ["C"; "C#"; "D"; "D#"; "E"; "F"; "F#"; "G"; "G#"; "A"; "A#"; "B"]%string.

(** The canonical Camelot wheel, by the circle of fifths: going up a fifth
    (seven semitones) adds one to the number; C major is 8, and a minor key
    carries the number of its relative major, three semitones above it. *)
Definition wheelNumber (pitchClass : nat) (minor : bool) : nat :=
  S ((7 * (pitchClass + (if minor then 3 else 0)) + 7) `mod` 12)%nat.

Definition numeral (n : nat) : jsstring :=
  js (NilEmpty.string_of_uint (Nat.to_uint n)).

Definition camelotWheel (pitchClass : nat) (minor : bool) : jsstring :=
  numeral (wheelNumber pitchClass minor) ++ (if minor then js "A" else js "B").

Definition modeName (minor : bool) : jsstring :=
  if minor then js "minor" else js "major".

(** Strings made of white space only, resp. free of white space. *)
Definition blank (s : jsstring) : Prop := forallb isWhiteSpace s = true.
Definition solid (s : jsstring) : Prop := forallb (fun c => negb (isWhiteSpace c)) s = true.

(** The sharp spelling of the five flats the table lists, by upper-cased
    letter. *)
Definition sharpOfFlat (letter : N) : option jsstring :=
  ownProp flatsToSharps [letter; 66%N].

(** The effects of each part of a resolution. *)
Definition gsbOp (o : OpDesc) : Prop :=
  match o with
  | OStorageGet k_ => k_ = GETSONG_KEY_STORAGE
  | OFetch (ReqGetSong _ _) => True
  | OSuspend | OWarn => True
  | _ => False
  end.

Definition mbOp (o : OpDesc) : Prop :=
  match o with
  | ODateNow | OGetLastMb | OSetLastMb _ | OSleep _ | OSuspend => True
  | OFetch (ReqMbSearch _) => True
  | _ => False
  end.

Definition abOp (o : OpDesc) : Prop :=
  match o with
  | OFetch (ReqAbLowLevel _ _) => True
  | OSuspend => True
  | _ => False
  end.

Definition writeOp (cacheKey : jsstring) (o : OpDesc) : Prop :=
  match o with
  | OStorageSet k_ _ => k_ = cacheKey
  | _ => False
  end.

Definition resolveOp (cacheKey : jsstring) (o : OpDesc) : Prop :=
  gsbOp o \/ mbOp o \/ abOp o \/ writeOp cacheKey o.

(** Effects that leave the rate limiter and the MusicBrainz requests alone. *)
Definition quietMb (o : OpDesc) : Prop :=
  match o with
  | OSetLastMb _ => False
  | OFetch (ReqMbSearch _) => False
  | _ => True
  end.

(** Effects other than [sendResponse]. *)
Definition silent (o : OpDesc) : Prop :=
  match o with
  | OSendResponse _ _ => False
  | _ => True
  end.

(** The invariant of the rate limiter: the MusicBrainz requests so far are
    [MB_MIN_INTERVAL_MS] apart and none is later than [lastMbRequestAt]. *)
Definition mbInv (w : World) : Prop :=
  spaced MB_MIN_INTERVAL_MS (mbTimes (trace w))
  /\ Forall (fun t => t <= lastMbRequestAt w) (mbTimes (trace w)).

(** The times at which requests to Provider B (either service) left. *)
Definition providerBTimes (tr : list Event) : list Z :=
  omap (fun e => match e with
                 | EvFetch t (ReqMbSearch _) => Some t
                 | EvFetch t (ReqAbLowLevel _ _) => Some t
                 | _ => None
                 end) tr.

(** The messages served one after the other, as the chain runs them;
    [c] is the number of the first one. *)
Fixpoint serve (env : Env) (c : nat) (msgs : list Message) (w : World) : World :=
  match msgs with
  | [] => w
  | m :: rest =>
      serve env (S c) rest (if isLookup m then snd (run env (job c m) w) else w)
  end.

(** A small outside world for examples: MusicBrainz knows one recording, with
    score [mbScore], AcousticBrainz has [tonal] for it (or nothing), GetSongBPM
    is out of reach, and every await lasts [lat] milliseconds. *)
Definition exampleEnv (tonal : option Tonal) (mbScore : Z) (lat : N) : Env :=
  {| respond := fun _ r =>
       match r with
       | ReqGetSong _ _ => NetReject (ErrNetwork (js "offline"))
       | ReqMbSearch _ =>
           NetOk (mkResponse 200
                    (Some (mkJson None (Some [mkRecording (Some (js "m1")) (Some mbScore)]) None)))
       | ReqAbLowLevel _ _ =>
           NetOk (mkResponse 200 (Some (mkJson None None tonal)))
       end;
     elapsed := fun _ => lat |}.

Definition exampleWorld : World :=
  {| clock := 1700000000000; lastMbRequestAt := 0; storage := ∅;
     awaits := 0; trace := [] |}.

Definition exampleMessage : Message :=
  {| m_type := Some (js "LOOKUP_CAMELot");
     m_title := Some (js "Strobe");
     m_artist := Some (js "deadmau5");
     m_cacheKey := Some (js "ta:strobe|deadmau5") |}.

(** A lookup message for another title. *)
Definition otherMessage : Message :=
  {| m_type := Some (js "LOOKUP_CAMELOT");
     m_title := Some (js "Levels");
     m_artist := Some (js "Avicii");
     m_cacheKey := Some (js "ta:levels|avicii") |}.

Definition exampleTonal : Tonal :=
  {| key_key := Some (js "C"); chords_key := None;
     key_scale := Some (js "major"); chords_scale := None |}.

(** A scale that is not all Basic Latin: "D\u00DAR". *)
Definition foreignTonal : Tonal :=
  {| key_key := Some (js "C"); chords_key := None;
     key_scale := Some [68%N; 218%N; 82%N]; chords_scale := None |}.

(** Stage 2 yields nothing for each of the candidates [pre], one after the
    other, taking the world from [w] to [w']. *)
Fixpoint misses (env : Env) (pre : list Candidate) (w w' : World) : Prop :=
  match pre with
  | [] => w' = w
  | c :: others =>
      exists wm,
        run env (fetchAcousticBrainzKeyAnySubmission (c_mbid c)) w = (Returned None, wm)
        /\ misses env others wm w'
  end.

(** The record built for a candidate with tonal data. *)
Definition hitRecord (now : Z) (mb : Candidate) (abKey abScale : jsstring) : ResolvedKey :=
  {| camelot := orNull (keyToCamelot (Some abKey) (Some abScale));
     key := VString (normalizeKeyName (Some abKey));
     mode := orNull (lowered abScale);
     provider := VUndefined;
     providerId := VUndefined;
     mbid := VString (c_mbid mb);
     score := Some (c_score mb);
     cachedAt := now |}.

(** The record of a miss without candidates. *)
Definition missRecord (now : Z) : ResolvedKey :=
  {| camelot := VNull; key := VNull; mode := VNull;
     provider := VUndefined; providerId := VUndefined;
     mbid := VNull; score := None; cachedAt := now |}.

(** A recording that the ranking keeps: it has an identifier and a score of
    at least [MUSICBRAINZ_MIN_SCORE]. *)
Definition qualifies (r : Recording) : bool :=
  match toCandidate r with
  | Some c => MUSICBRAINZ_MIN_SCORE <=? c_score c
  | None => false
  end.

(** Two worlds that differ at most in what is stored under [cacheKey]. *)
Definition agree (cacheKey : jsstring) (w1 w2 : World) : Prop :=
  clock w1 = clock w2
  /\ lastMbRequestAt w1 = lastMbRequestAt w2
  /\ awaits w1 = awaits w2
  /\ trace w1 = trace w2
  /\ forall k_, k_ <> cacheKey -> storage w1 !! k_ = storage w2 !! k_.

(** The world in which nothing is cached under [cacheKey]. *)
Definition withoutKey (cacheKey : jsstring) (w : World) : World :=
  mkWorld (clock w) (lastMbRequestAt w) (delete cacheKey (storage w)) (awaits w) (trace w).

(** Effects other than reading what is stored under [cacheKey]. *)
Definition readsOther (cacheKey : jsstring) (o : OpDesc) : Prop :=
  match o with
  | OStorageGet k_ => k_ <> cacheKey
  | _ => True
  end.

(** The example world with a miss cached at time [at_]. *)
Definition cachedWorld (at_ : Z) : World :=
  {| clock := 1700000000000; lastMbRequestAt := 0;
     storage := {[ js "ta:strobe|deadmau5" := SRecord (missRecord at_) ]};
     awaits := 0; trace := [] |}.

(** A world in which a credential is stored beside a record cached at time
    0, and an outside world in which GetSongBPM has nothing (404) while the
    other two services answer as in [exampleEnv]. *)
Definition staleWorld : World :=
  {| clock := 1700000000000; lastMbRequestAt := 0;
     storage := <[ GETSONG_KEY_STORAGE := SString (js " secret ") ]>
                  {[ js "ta:strobe|deadmau5" := SRecord (missRecord 0) ]};
     awaits := 0; trace := [] |}.

Definition staleEnv : Env :=
  {| respond := fun n r =>
       match r with
       | ReqGetSong _ _ => NetOk (mkResponse 404 None)
       | _ => respond (exampleEnv (Some exampleTonal) 100 40) n r
       end;
     elapsed := fun _ => 40%N |}.

(** The order of the ranking: a score at least as high comes first. *)
Definition notLower (x y : SongItem * Q) : Prop := (snd y <= snd x)%Q.

(** The raw key string of a ranked item does not parse. *)
Definition unparsable (x : SongItem * Q) : Prop :=
  parseGetsongKeyOf (s_key_of (fst x)) = None.

(** The record Provider A builds from an item whose key string parsed. *)
Definition gsbRecord (s : SongItem) (k sc : jsstring) : GsbHit :=
  {| g_camelot := orNull (keyToCamelot (Some k) (Some sc));
     g_key := k;
     g_mode := sc;
     g_provider := js "getsongbpm";
     g_providerId := match s_id s with
                     | Some i => if nonEmpty i then VString i else VNull
                     | None => VNull
                     end |}.

(** The compound query of the GetSongBPM search. *)
Definition gsbLookup (title artist : jsstring) : jsstring :=
  js "song:" ++ normalizeWhitespace (Some title)
  ++ js " artist:" ++ normalizeWhitespace (Some artist).

(** The three queries of [searchMusicBrainzRecordings], most specific first. *)
Definition mbQueries (title artist : jsstring) : list jsstring :=
  let t := luceneEscapePhrase (Some title) in
  let a := luceneEscapePhrase (Some artist) in
  [ js "recording:" ++ [34%N] ++ t ++ [34%N] ++ js " AND artist:" ++ [34%N] ++ a ++ [34%N];
    js "recording:" ++ [34%N] ++ t ++ [34%N] ++ js " AND artist:" ++ a;
    js "recording:" ++ [34%N] ++ t ++ [34%N] ].

(** No credential is stored, or a blank one. *)
Definition noCredential (w : World) : Prop :=
  match storage w !! GETSONG_KEY_STORAGE with
  | None => True
  | Some (SString s) => trim s = []
  | Some (SRecord _) => False
  end.

(** The warnings logged. *)
Definition warnings (tr : list Event) : nat :=
  length (List.filter (fun e => match e with EvWarn => true | _ => false end) tr).

(** The binary64 numbers, as rationals: multiples of [2 ^ -1074]. *)
Definition onGrid (x : Q) : Prop := exists k : Z, (x == k # Z.to_pos (2 ^ 1074))%Q.

(** Two search results for the title "a b c d" by "e f g h" whose scores
    are equal as exact numbers, 3/4 both, and differ as binary64 numbers:
    [0.75 * 0.7 + 0.75 * 0.3] is 0.7499999999999999, and
    [1 * 0.7 + (1 / 6) * 0.3] is 0.75. *)
Definition tieItems : list SongItem :=
  [ {| s_title := Some (js "a b c"); s_artistName := Some (js "e f g");
       s_key_of := Some (js "Am"); s_id := Some (js "b") |};
    {| s_title := Some (js "a b c d"); s_artistName := Some (js "e u v w x y");
       s_key_of := Some (js "C"); s_id := Some (js "a") |} ].

(** Two search results: the better match has an unusable key string. *)
Definition exampleItems : list SongItem :=
  [ {| s_title := Some (js "Strobe (Radio Edit)"); s_artistName := Some (js "Someone Else");
       s_key_of := Some (js "F#m"); s_id := Some (js "b2") |};
    {| s_title := Some (js "Strobe"); s_artistName := Some (js "deadmau5");
       s_key_of := Some (js "unknown"); s_id := Some (js "a1") |} ].

(** An outside world in which GetSongBPM answers with [items], and a world
    in which a credential is stored. *)
Definition gsbEnv (items : list SongItem) : Env :=
  {| respond := fun _ r =>
       match r with
       | ReqGetSong _ _ => NetOk (mkResponse 200 (Some (mkJson (Some items) None None)))
       | _ => NetReject (ErrNetwork (js "offline"))
       end;
     elapsed := fun _ => 40%N |}.

Definition gsbWorld : World :=
  {| clock := 1700000000000; lastMbRequestAt := 0;
     storage := {[ GETSONG_KEY_STORAGE := SString (js " secret ") ]};
     awaits := 0; trace := [] |}.

(** A search result whose key string is [keyOf]. *)
Definition itemWithKey (keyOf : jsstring) : SongItem :=
  {| s_title := Some (js "Strobe"); s_artistName := Some (js "deadmau5");
     s_key_of := Some keyOf; s_id := Some (js "a1") |}.

(** A callback that has not answered yet and, whatever happens, answers its
    caller [c] exactly once, as the last thing it does. *)
Inductive Answers (c : nat) : Prog unit -> Prop :=
  | Answers_send pl : Answers c (SendResponse c pl (Ret tt))
  | Answers_DateNow k : (forall t, Answers c (k t)) -> Answers c (DateNow k)
  | Answers_GetLastMb k : (forall t, Answers c (k t)) -> Answers c (GetLastMb k)
  | Answers_SetLastMb t k : Answers c k -> Answers c (SetLastMb t k)
  | Answers_Sleep ms k : Answers c k -> Answers c (Sleep ms k)
  | Answers_Fetch r k : (forall x, Answers c (k x)) -> Answers c (Fetch r k)
  | Answers_Suspend k : Answers c k -> Answers c (Suspend k)
  | Answers_StorageGet k_ k : (forall x, Answers c (k x)) -> Answers c (StorageGet k_ k)
  | Answers_StorageSet k_ v k : Answers c k -> Answers c (StorageSet k_ v k)
  | Answers_Warn k : Answers c k -> Answers c (Warn k).

(** The callbacks not yet started form a chain: the first waits for the
    promise [head], each next one for the promise derived by the one before,
    and the last one derived [queue]. *)
Fixpoint chain (rs : list Reaction) (head q : nat) : Prop :=
  match rs with
  | [] => head = q
  | r :: rs' => awaited r = head /\ (head < derived r)%nat /\ chain rs' (derived r) q
  end.

(** The callbacks not yet started are the jobs of callers in increasing
    order, from [lo] on and below [hi]. *)
Fixpoint queued (rs : list Reaction) (lo hi : nat) : Prop :=
  match rs with
  | [] => (lo <= hi)%nat
  | r :: rs' =>
      exists c msg,
        (lo <= c)%nat /\ (c < hi)%nat /\ callback r = job c msg /\ queued rs' (S c) hi
  end.

(** Either nothing is in flight and the head of the chain is fulfilled, or
    exactly one callback is, that will settle the head of the chain and has
    not answered its caller yet. *)
Definition inflight (s : Sys) (head lo : nat) : Prop :=
  (tasks s = [] /\ promises s !! head = Some Fulfilled
   /\ Forall (fun c => (c < lo)%nat) (answered (trace (world s))))
  \/ (exists t c,
        tasks s = [t] /\ settles t = head /\ promises s !! head = Some Pending
        /\ Answers c (remaining t) /\ (c < lo)%nat
        /\ Forall (fun c' => (c' < c)%nat) (answered (trace (world s)))).

Definition Inv (s : Sys) : Prop :=
  exists head lo,
    chain (reactions s) head (queue s)
    /\ queued (reactions s) lo (arrived s)
    /\ Forall (fun r => promises s !! derived r = Some Pending) (reactions s)
    /\ inflight s head lo
    /\ StronglySorted lt (answered (trace (world s))).

(** A lookup message without a title. *)
Definition untitledMessage : Message :=
  {| m_type := Some (js "LOOKUP_CAMELot");
     m_title := None;
     m_artist := Some (js "deadmau5");
     m_cacheKey := Some (js "ta:|deadmau5") |}.

(** The callbacks in flight that wait for the answer to a request. *)
Definition awaitsFetch (t : Task) : bool :=
  match remaining t with
  | Fetch _ _ => true
  | _ => false
  end.




(** What was sent, to whom, in the order of the answers. *)
Definition sent (tr : list Event) : list (nat * Payload) :=
  omap (fun e => match e with
                 | EvSend c p => Some (c, p)
                 | _ => None
                 end) tr.

(** The outcomes a program can end with, whatever its awaits settle with. *)
Inductive ends {A : Type} : Prog A -> Outcome A -> Prop :=
  | ends_Ret a : ends (Ret a) (Returned a)
  | ends_Throw e : ends (Throw e) (Thrown e)
  | ends_DateNow k t o : ends (k t) o -> ends (DateNow k) o
  | ends_GetLastMb k t o : ends (k t) o -> ends (GetLastMb k) o
  | ends_SetLastMb t k o : ends k o -> ends (SetLastMb t k) o
  | ends_Sleep ms k o : ends k o -> ends (Sleep ms k) o
  | ends_Fetch r k x o : ends (k x) o -> ends (Fetch r k) o
  | ends_Suspend k o : ends k o -> ends (Suspend k) o
  | ends_StorageGet k_ k x o : ends (k x) o -> ends (StorageGet k_ k) o
  | ends_StorageSet k_ v k o : ends k o -> ends (StorageSet k_ v k) o
  | ends_Warn k o : ends k o -> ends (Warn k) o
  | ends_SendResponse c p k o : ends k o -> ends (SendResponse c p k) o.

(** The lookup that the callback of [msg] awaits. *)
Definition lookupOf (msg : Message) : Prog ResolvedKey :=
  lookupCamelot (orEmpty (m_cacheKey msg))
                (normalizeWhitespace (m_title msg))
                (normalizeWhitespace (m_artist msg)).

(** What the sender of [msg] may be answered: [{ ok: true, data: null }] for
    a message that lacks something; otherwise [{ ok: true, data }] with a
    record its lookup returned, or [{ ok: false, error }] with an error its
    lookup threw. *)
Definition expected (msg : Message) (p : Payload) : Prop :=
  if incomplete msg then p = PayloadOk None
  else (exists data, ends (lookupOf msg) (Returned data) /\ p = PayloadOk (Some data))
       \/ (exists e, ends (lookupOf msg) (Thrown e) /\ p = PayloadFail e).

(** A callback that has not answered yet and, whatever happens, answers its
    caller [c] exactly once, as the last thing it does, with a payload that
    satisfies [P]. *)
Inductive Sends (c : nat) (P : Payload -> Prop) : Prog unit -> Prop :=
  | Sends_send pl : P pl -> Sends c P (SendResponse c pl (Ret tt))
  | Sends_DateNow k : (forall t, Sends c P (k t)) -> Sends c P (DateNow k)
  | Sends_GetLastMb k : (forall t, Sends c P (k t)) -> Sends c P (GetLastMb k)
  | Sends_SetLastMb t k : Sends c P k -> Sends c P (SetLastMb t k)
  | Sends_Sleep ms k : Sends c P k -> Sends c P (Sleep ms k)
  | Sends_Fetch r k : (forall x, Sends c P (k x)) -> Sends c P (Fetch r k)
  | Sends_Suspend k : Sends c P k -> Sends c P (Suspend k)
  | Sends_StorageGet k_ k : (forall x, Sends c P (k x)) -> Sends c P (StorageGet k_ k)
  | Sends_StorageSet k_ v k : Sends c P k -> Sends c P (StorageSet k_ v k)
  | Sends_Warn k : Sends c P k -> Sends c P (Warn k).

(** The points at which a callback is suspended. *)
Definition atAwait (p : Prog unit) : bool :=
  match p with
  | Sleep _ _ | Suspend _ | Fetch _ _ | StorageGet _ _ | StorageSet _ _ _ => true
  | _ => false
  end.

(** The callers of the lookup messages among [msgs], in the order of
    arrival; [c] is the number of the first message. *)
Fixpoint lookupCallers (c : nat) (msgs : list Message) : list nat :=
  match msgs with
  | [] => []
  | m :: rest => (if isLookup m then [c] else []) ++ lookupCallers (S c) rest
  end.

(** A step other than the arrival of a message. *)
Definition work (s s' : Sys) : Prop := step s s' /\ arrived s' = arrived s.

(** The worker has received the messages [msgs], in this order, with any
    work before, between and after them. *)
Inductive received (w0 : World) : list Message -> Sys -> Prop :=
  | received_none : received w0 [] (initial w0)
  | received_message msgs s msg :
      received w0 msgs s -> received w0 (msgs ++ [msg]) (listener msg s)
  | received_work msgs s s' :
      received w0 msgs s -> work s s' -> received w0 msgs s'.

(** A turn of the chain: a callback starts, or a callback in flight goes on
    after its await has settled. *)
Inductive turn : Sys -> Sys -> Prop :=
  | turn_start s rs1 r rs2 :
      reactions s = rs1 ++ r :: rs2 ->
      promises s !! awaited r = Some Fulfilled ->
      turn s (land (derived r) (advance (callback r) (world s)) s (rs1 ++ rs2) (tasks s))
  | turn_resume s ts1 t ts2 x k :
      tasks s = ts1 ++ t :: ts2 ->
      resume (remaining t) x (world s) = Some k ->
      turn s (land (settles t) (advance k (world s)) s (reactions s) (ts1 ++ ts2)).

(** The books of the worker after the messages [msgs]: every lookup message
    received is answered, in flight or waiting in the chain, in the order of
    arrival; what has been answered is what its sender may be answered; a
    callback in flight is suspended at an await and will answer the sender
    of its message so, and a callback that waits is the job of its sender's
    message. *)
Definition ledger (msgs : list Message) (s : Sys) : Prop :=
  arrived s = length msgs
  /\ Forall (fun cp => exists msg, msgs !! fst cp = Some msg /\ expected msg (snd cp))
       (sent (trace (world s)))
  /\ exists inFlight waiting,
       lookupCallers 0 msgs = answered (trace (world s)) ++ inFlight ++ waiting
       /\ Forall2 (fun t c => exists msg,
                      msgs !! c = Some msg
                      /\ atAwait (remaining t) = true
                      /\ Sends c (expected msg) (remaining t))
            (tasks s) inFlight
       /\ Forall2 (fun r c => exists msg, msgs !! c = Some msg /\ callback r = job c msg)
            (reactions s) waiting.

(** Examples: the first callback of the chain starts; the one callback in
    flight goes on after its await has settled with [x]. *)
Definition started (s : Sys) : Sys :=
  match reactions s with
  | r :: rs => land (derived r) (advance (callback r) (world s)) s rs (tasks s)
  | [] => s
  end.

Definition resumed (x : NetResult) (s : Sys) : Sys :=
  match tasks s with
  | [t] =>
      match resume (remaining t) x (world s) with
      | Some k => land (settles t) (advance k (world s)) s (reactions s) []
      | None => s
      end
  | _ => s
  end.

Definition canStart (s : Sys) : bool :=
  match reactions s with
  | r :: _ =>
      match promises s !! awaited r with
      | Some Fulfilled => true
      | _ => false
      end
  | [] => false
  end.

Definition canResume (x : NetResult) (s : Sys) : bool :=
  match tasks s with
  | [t] =>
      match resume (remaining t) x (world s) with
      | Some _ => true
      | None => false
      end
  | _ => false
  end.

(** The network refuses a request. *)
Definition offline : NetResult := NetReject (ErrNetwork (js "offline")).

(** The worker after a complete message and a message without title have
    arrived and both callbacks have run to their end, every request being
    refused by the network: the first callback awaits the cache, the
    credential and the first request to MusicBrainz. *)
Definition quietState : Sys :=
  started (resumed offline (resumed offline (resumed offline
    (started (listener untitledMessage (listener exampleMessage (initial exampleWorld))))))).

(* ===================================================================== *)
(** ** The overlay script (content.js) and the options page (options.js)  *)
(* ===================================================================== *)

Local Open Scope N_scope.

(** [norm] of content.js: [(s || "").replace(/\s+/g, " ").trim()]. *)
Definition norm (s : option jsstring) : jsstring :=
  trim (replaceRuns isWhiteSpace false (orEmpty s)).

(** The class [\d]. *)
Definition isDigit (c : N) : bool := (48 <=? c) && (c <=? 57).

(** [/^\d{1,2}:\d{2}$/.test(s)] *)
Definition testMinSec (s : jsstring) : bool :=
  match s with
  | [a; c; m1; m2] => isDigit a && (c =? 58) && isDigit m1 && isDigit m2
  | [a; b; c; m1; m2] =>
      isDigit a && isDigit b && (c =? 58) && isDigit m1 && isDigit m2
  | _ => false
  end.

(** [/^\d{1,2}:\d{2}:\d{2}$/.test(s)] *)
Definition testHourMinSec (s : jsstring) : bool :=
  match s with
  | [a; c; m1; m2; c'; s1; s2] =>
      isDigit a && (c =? 58) && isDigit m1 && isDigit m2
      && (c' =? 58) && isDigit s1 && isDigit s2
  | [a; b; c; m1; m2; c'; s1; s2] =>
      isDigit a && isDigit b && (c =? 58) && isDigit m1 && isDigit m2
      && (c' =? 58) && isDigit s1 && isDigit s2
  | _ => false
  end.

Definition isDuration (s : jsstring) : bool := testMinSec s || testHourMinSec s.

Fixpoint startsWith (s p : jsstring) : bool :=
  match p, s with
  | [], _ => true
  | x :: p', y :: s' => (x =? y) && startsWith s' p'
  | _ :: _, [] => false
  end.

(** [s.includes(sub)] *)
Fixpoint includes (s sub : jsstring) : bool :=
  startsWith s sub
  || match s with
     | [] => false
     | _ :: r => includes r sub
     end.

(** The class [\w], for the word boundary [\b]. *)
Definition isWordChar (c : N) : bool :=
  ((65 <=? c) && (c <=? 90)) || ((97 <=? c) && (c <=? 122))
  || isDigit c || (c =? 95).

Fixpoint dropDigits (s : jsstring) : jsstring :=
  match s with
  | [] => []
  | c :: r => if isDigit c then dropDigits r else s
  end.

(** [[kmb]\b] at the head of [s]. *)
Definition unitThenBoundary (s : jsstring) : bool :=
  match s with
  | u :: r =>
      ((u =? 107) || (u =? 109) || (u =? 98))
      && match r with
         | [] => true
         | w :: _ => negb (isWordChar w)
         end
  | [] => false
  end.

(** [/^\d+(\.\d+)?[kmb]\b/.test(l)]: the digits are taken greedily; giving
    some back never helps, since what follows them must be [.] or a unit. *)
Definition testCount (l : jsstring) : bool :=
  match l with
  | c :: r =>
      isDigit c
      && let r1 := dropDigits r in
         match r1 with
         | 46 :: d :: r2 =>
             if isDigit d then unitThenBoundary (dropDigits r2)
             else unitThenBoundary r1
         | _ => unitThenBoundary r1
         end
  | [] => false
  end.

Definition isMetaLine (s : jsstring) : bool :=
  let l := toLowerCase s in
  if negb (nonEmpty s) then true
  else if isDuration s then true
  else if strEqb l (js "explicit") || strEqb l (js "e") then true
  else if includes l (js "plays") || includes l (js "views") then true
  else if testCount l then true
  else false.

(** The loop [for (const cand of clean.slice(1, 4))]; the empty string when
    it ends without [break]. *)
Fixpoint pickArtist (title : jsstring) (cands : list jsstring) : jsstring :=
  match cands with
  | [] => []
  | cand :: others =>
      let a := norm (Some (hd [] (split 8226 cand))) in
      if nonEmpty a && negb (strEqb a title) && negb (isMetaLine a) then a
      else pickArtist title others
  end.

(** [parseRowText], on [el.innerText]. *)
Definition parseRowText (innerText : option jsstring) : option (jsstring * jsstring) :=
  let raw := orEmpty innerText in
  if negb (nonEmpty raw) then None
  else
    let lines := List.filter nonEmpty (List.map (fun l => norm (Some l)) (split 10 raw)) in
    let clean := List.filter (fun l => negb (isMetaLine l)) lines in
    if (length clean <? 2)%nat then None
    else
      let title := hd [] clean in
      let artist := pickArtist title (firstn 3 (skipn 1 clean)) in
      if negb (nonEmpty title) || negb (nonEmpty artist) then None
      else Some (title, artist).

(** [cacheKeyFor]; [lower] is the host's [toLowerCase], of which nothing is
    assumed. *)
Definition cacheKeyFor (lower : jsstring -> jsstring) (title artist : jsstring) : jsstring :=
  js "ta:" ++ lower title ++ js "|" ++ lower artist.

(** The message [requestCamelot] sends. *)
Definition requestCamelot (cacheKey title artist : jsstring) : Message :=
  {| m_type := Some (js "LOOKUP_CAMELot");
     m_title := Some title;
     m_artist := Some artist;
     m_cacheKey := Some cacheKey |}.

(** The message that [ensureItemForAnchor] sends for a row that has no badge
    yet, if any. *)
Definition rowMessage (lower : jsstring -> jsstring) (innerText : option jsstring)
  : option Message :=
  match parseRowText innerText with
  | Some (title, artist) =>
      Some (requestCamelot (cacheKeyFor lower title artist) title artist)
  | None => None
  end.

Local Close Scope N_scope.

(** options.js: the handler of the save button, on the value of the input;
    it returns the text it shows. *)
Definition KEY_NAME : jsstring := js "getsongApiKey".

Definition saveKey (value : option jsstring) : Prog jsstring :=
  let v := trim (orEmpty value) in
  exec storageSet KEY_NAME (SString v);
  Ret (if nonEmpty v then js "Saved." else js "Cleared.").

(* ===================================================================== *)
(** ** Further notions the properties are stated with                     *)
(* ===================================================================== *)

(** Every white-space character is a single U+0020 that follows a character
    that is none; [afterSpace] tells that the character before was one. *)
Fixpoint singleSpaced (afterSpace : bool) (s : jsstring) : bool :=
  match s with
  | [] => true
  | c :: r =>
      if isWhiteSpace c then (c =? 32)%N && negb afterSpace && singleSpaced true r
      else singleSpaced false r
  end.

Definition endsSolid (s : jsstring) : bool :=
  match rev s with
  | [] => true
  | c :: _ => negb (isWhiteSpace c)
  end.

(** A string in the form [normalizeWhitespace] produces: no white space at
    either end, and single U+0020 between words. *)
Definition tidy (s : jsstring) : bool := singleSpaced true s && endsSolid s.

(** The characters of a token: [[a-z0-9#]]. *)
Definition isTokenChar (c : N) : bool :=
  (((97 <=? c) && (c <=? 122)) || ((48 <=? c) && (c <=? 57)) || (c =? 35))%N.

(** Reading a Lucene-escaped phrase back: a backslash stands for the
    character after it. *)
Fixpoint unescapeLucene (s : jsstring) : jsstring :=
  match s with
  | [] => []
  | c :: r =>
      if (c =? 92)%N then
        match r with
        | [] => [c]
        | c' :: r' => c' :: unescapeLucene r'
        end
      else c :: unescapeLucene r
  end.

(** No double quote stands unescaped, no backslash alone. *)
Fixpoint wellEscaped (s : jsstring) : bool :=
  match s with
  | [] => true
  | c :: r =>
      if (c =? 92)%N then
        match r with
        | [] => false
        | c' :: r' => ((c' =? 92) || (c' =? 34))%N && wellEscaped r'
        end
      else negb (c =? 34)%N && wellEscaped r
  end.

(** The last step of [normalizeKeyName], on the string [k] it has cleaned. *)
Definition spellNote (k : jsstring) : jsstring :=
  if testFlat k then
    let up := toUpperCase k in
    match getProp flatsToSharps up with
    | VString v => if nonEmpty v then v else firstn 1 up
    | _ => firstn 1 up
    end
  else if testSharp k then toUpperCase (firstn 1 k) ++ [35%N]
  else if testPlain k then toUpperCase k
  else k.

(** The pitch class of a normalized note name, if it is one. *)
Fixpoint indexOf (names : list jsstring) (name : jsstring) : option nat :=
  match names with
  | [] => None
  | n :: others =>
      if strEqb name n then Some 0%nat
      else match indexOf others name with
           | Some i => Some (S i)
           | None => None
           end
  end.

Definition pitchClassOf (name : jsstring) : option nat := indexOf noteNames name.

(** The keys a parsed key string can have: a capital A-G, alone, followed by
    [#], or followed by a capital B (the flat sign of the verbose form read
    under the [i] flag). *)
Definition parsedKeys : list jsstring :=
  flat_map (fun L => [[L]; [L; 35%N]; [L; 66%N]]) [65%N; 66%N; 67%N; 68%N; 69%N; 70%N; 71%N].

(** The Camelot code of a parsed key and scale. *)
Definition camelotOfParsed (k sc : jsstring) : jsval :=
  match pitchClassOf k with
  | Some pc => VString (camelotWheel pc (strEqb sc (js "minor")))
  | None => VNull
  end.

(** The order of the candidates: a score at least as high comes first. *)
Definition byScore (x y : Candidate) : Prop := c_score y <= c_score x.

(** Effects that write nothing to the store. *)
Definition noWrite (o : OpDesc) : Prop :=
  match o with
  | OStorageSet _ _ => False
  | _ => True
  end.

(** Effects that write to the store under [cacheKey] only. *)
Definition writesOnly (cacheKey : jsstring) (o : OpDesc) : Prop :=
  match o with
  | OStorageSet k_ _ => k_ = cacheKey
  | _ => True
  end.

(** The code [keyToCamelot] gives for the [key] and [mode] of a record. *)
Definition camelotFor (k m : jsval) : jsval :=
  match k, m with
  | VString k', VString m' => orNull (keyToCamelot (Some k') (Some m'))
  | _, _ => VNull
  end.

(** No code unit of the string is a capital letter A-Z. *)
Definition noCapital (s : jsstring) : bool :=
  forallb (fun c => negb ((65 <=? c) && (c <=? 90))%N) s.

(** The shape of the records the worker builds.  The code is the one of the
    record's own key and mode.  Key and mode are both null, or the key is
    normalized and the mode is either a non-empty Basic Latin string without
    capitals, or the lower-case form of a string that is not all Basic Latin
    (for which the code is null: such a mode is neither "major" nor
    "minor").  A recording comes with its score, which is at least
    [MUSICBRAINZ_MIN_SCORE]; a record of Provider A is tagged and names no
    recording, a record of Provider B has no [provider] and no
    [providerId]. *)
Definition wellFormed (r : ResolvedKey) : Prop :=
  camelot r = camelotFor (key r) (mode r)
  /\ (key r = VNull /\ mode r = VNull
      \/ exists k,
           key r = VString k /\ normalizeKeyName (Some k) = k
           /\ ((exists m, mode r = VString m /\ m <> []
                          /\ isBasicLatin m = true /\ noCapital m = true)
               \/ (exists m, mode r = VLowered m /\ isBasicLatin m = false)))
  /\ match mbid r, score r with
     | VNull, None => True
     | VString m, Some s => m <> [] /\ MUSICBRAINZ_MIN_SCORE <= s
     | _, _ => False
     end
  /\ match provider r with
     | VString p => p = js "getsongbpm" /\ mbid r = VNull /\ key r <> VNull
     | VUndefined => providerId r = VUndefined
     | _ => False
     end.

Definition isRejected (st : PromiseState) : bool :=
  match st with
  | Rejected _ => true
  | _ => false
  end.

(** No promise is rejected; the callbacks in flight are suspended at an
    await and still to answer; the callbacks not yet started are jobs. *)
Definition unbroken (s : Sys) : Prop :=
  Forall (fun st => isRejected st = false) (promises s)
  /\ Forall (fun t => atAwait (remaining t) = true /\ exists c, Answers c (remaining t))
       (tasks s)
  /\ Forall (fun r => exists c msg, callback r = job c msg) (reactions s).

(** The queries [pre], sent one after the other from [w], each get an answer
    without a candidate; [w'] is the world after them. *)
Fixpoint fruitless (env : Env) (pre : list jsstring) (w w' : World) : Prop :=
  match pre with
  | [] => w' = w
  | q :: others =>
      exists data wm,
        run env (rateLimitedMusicBrainzFetch q) w = (Returned data, wm)
        /\ rankRecordings (default [] (j_recordings data)) = []
        /\ fruitless env others wm w'
  end.

(* ===================================================================== *)
(** * Verification                                                        *)
(* ===================================================================== *)

(** ** Strings *)

Lemma strEqb_spec (a b : jsstring) : strEqb a b = true <-> a = b.
Proof.
  revert b. induction a as [|x a IH]; intros [|y b]; simpl; try (split; congruence).
  rewrite andb_true_iff, N.eqb_eq, IH. split.
  - intros [-> ->]. reflexivity.
  - intros H. injection H as -> ->. split; reflexivity.
Qed.

Lemma strEqb_refl (a : jsstring) : strEqb a a = true.
Proof. apply strEqb_spec. reflexivity. Qed.

Lemma strEqb_false (a b : jsstring) : strEqb a b = false <-> a <> b.
Proof.
  rewrite <- strEqb_spec. destruct (strEqb a b); split; congruence.
Qed.

Lemma setHas_spec (A : list jsstring) (t : jsstring) : setHas A t = true <-> t ∈ A.
Proof.
  unfold setHas. rewrite existsb_exists. split.
  - intros [x [Hin Heq]]. apply strEqb_spec in Heq. subst x.
    apply list_elem_of_In. exact Hin.
  - intros Hin. exists t. split; [apply list_elem_of_In; exact Hin | apply strEqb_refl].
Qed.

Lemma setHas_false (A : list jsstring) (t : jsstring) : setHas A t = false <-> t ∉ A.
Proof.
  rewrite <- setHas_spec. destruct (setHas A t); split; congruence.
Qed.


(** ** Key theory: the Camelot wheel *)

Lemma ownProp_None (obj : list (jsstring * jsstring)) (k : jsstring) :
  forallb (fun kv => negb (strEqb k (fst kv))) obj = true -> ownProp obj k = None.
Proof.
  induction obj as [|[k' v] obj IH]; simpl; [reflexivity|].
  rewrite andb_true_iff, negb_true_iff. intros [Hk Hrest].
  rewrite Hk. apply IH, Hrest.
Qed.

Lemma not_note_forallb (obj : list (jsstring * jsstring)) (k : jsstring) :
  forallb (fun kv => setHas noteNames (fst kv)) obj = true ->
  k ∉ noteNames ->
  forallb (fun kv => negb (strEqb k (fst kv))) obj = true.
Proof.
  intros Hobj Hk. apply forallb_forall. intros kv Hin.
  rewrite forallb_forall in Hobj. specialize (Hobj kv Hin).
  apply setHas_spec in Hobj. apply negb_true_iff, strEqb_false.
  intros ->. contradiction.
Qed.

Lemma getProp_unknown (obj : list (jsstring * jsstring)) (k : jsstring) :
  forallb (fun kv => setHas noteNames (fst kv)) obj = true ->
  k ∉ noteNames -> k ∉ objectPrototypeKeys ->
  orNull (getProp obj k) = VNull.
Proof.
  intros Hobj Hk Hproto. unfold getProp.
  rewrite (ownProp_None obj k (not_note_forallb obj k Hobj Hk)).
  apply setHas_false in Hproto. rewrite Hproto. reflexivity.
Qed.

(** C1 (as amended): on the twelve normalized note names and the two modes,
    [keyToCamelot] returns the code of the canonical Camelot wheel; it returns
    [null] whenever the lower-cased mode is neither "major" nor "minor", and
    whenever the normalized note is none of the twelve table entries (nor the
    name of a member that an object literal inherits). *)
Theorem keyToCamelot_wheel :
  (forall (pc : nat) (minor : bool) (name : jsstring),
      noteNames !! pc = Some name ->
      keyToCamelot (Some name) (Some (modeName minor)) = VString (camelotWheel pc minor))
  /\ (forall key mode : option jsstring,
         toLowerCase (orEmpty mode) <> js "major" ->
         toLowerCase (orEmpty mode) <> js "minor" ->
         keyToCamelot key mode = VNull)
  /\ (forall key mode : option jsstring,
         normalizeKeyName key ∉ noteNames ->
         normalizeKeyName key ∉ objectPrototypeKeys ->
         keyToCamelot key mode = VNull).
Proof.
  split; [|split].
  - intros pc minor name Hname.
    do 12 (destruct pc as [|pc];
           [injection Hname as <-; destruct minor; vm_compute; reflexivity|]).
    discriminate Hname.
  - intros key mode Hmaj Hmin. unfold keyToCamelot.
    apply strEqb_false in Hmaj, Hmin. rewrite Hmaj, Hmin. reflexivity.
  - intros key mode Hk Hproto. unfold keyToCamelot.
    destruct (strEqb _ (js "major")); [|destruct (strEqb _ (js "minor"))];
      [apply getProp_unknown; [vm_compute; reflexivity|assumption..]
      |apply getProp_unknown; [vm_compute; reflexivity|assumption..]
      |reflexivity].
Qed.

Lemma keyToCamelot_wheel_witness :
  keyToCamelot (Some (js "A")) (Some (modeName true)) = VString (js "8A")
  /\ keyToCamelot (Some (js "C")) (Some (js "dorian")) = VNull
  /\ keyToCamelot (Some (js "H")) (Some (js "major")) = VNull.
Proof.
  destruct keyToCamelot_wheel as [Hwheel [Hmode Hnote]].
  split; [|split].
  - apply (Hwheel 9%nat true (js "A")). reflexivity.
  - apply (Hmode (Some (js "C")) (Some (js "dorian"))); vm_compute; discriminate.
  - apply (Hnote (Some (js "H")) (Some (js "major")));
      apply setHas_false; vm_compute; reflexivity.
Defined.

(** C1 as stated fails on the mode: the code lower-cases it first, so a mode
    that is neither "major" nor "minor" can still select a table. *)
Lemma keyToCamelot_mode_case_counterexample :
  Some (js "MAJOR") <> Some (js "major")
  /\ Some (js "MAJOR") <> Some (js "minor")
  /\ keyToCamelot (Some (js "C")) (Some (js "MAJOR")) = VString (js "8B")
  /\ keyToCamelot (Some (js "C")) (Some (js "MAJOR")) <> VNull.
Proof.
  split; [|split; [|split]]; vm_compute; (reflexivity || discriminate).
Qed.

(** A note name that is no table entry but names a member inherited from
    [Object.prototype] does not yield [null] either. *)
Example keyToCamelot_inherited_member :
  keyToCamelot (Some (js "toString")) (Some (js "major")) = VInherited (js "toString").
Proof. vm_compute. reflexivity. Qed.

(** ** Key theory: note names *)

Lemma replaceRuns_blank (cls : N -> bool) (pre r : jsstring) :
  forallb cls pre = true ->
  replaceRuns cls true (pre ++ r) = replaceRuns cls true r.
Proof.
  induction pre as [|c pre IH]; simpl; [reflexivity|].
  rewrite andb_true_iff. intros [-> Hpre]. apply IH, Hpre.
Qed.

Lemma replaceRuns_solid (cls : N -> bool) (b : bool) (core r : jsstring) :
  forallb (fun c => negb (cls c)) core = true -> core <> [] ->
  replaceRuns cls b (core ++ r) = core ++ replaceRuns cls false r.
Proof.
  revert b. induction core as [|c core IH]; intros b Hcore Hne; [congruence|].
  simpl in Hcore. apply andb_true_iff in Hcore as [Hc Hcore].
  apply negb_true_iff in Hc. simpl. rewrite Hc. f_equal.
  destruct core as [|c' core']; [reflexivity|].
  apply IH; [exact Hcore|discriminate].
Qed.

Lemma trimStart_blank (pre r : jsstring) :
  blank pre -> trimStart (pre ++ r) = trimStart r.
Proof.
  unfold blank. induction pre as [|c pre IH]; simpl; [reflexivity|].
  rewrite andb_true_iff. intros [-> Hpre]. apply IH, Hpre.
Qed.

Lemma trimStart_solid (c : N) (r : jsstring) :
  isWhiteSpace c = false -> trimStart (c :: r) = c :: r.
Proof. intros H. simpl. rewrite H. reflexivity. Qed.

Lemma trimStart_all_blank (s : jsstring) : blank s -> trimStart s = [].
Proof.
  intros H. rewrite <- (app_nil_r s). rewrite trimStart_blank by exact H. reflexivity.
Qed.

Lemma replaceRuns_all_blank (s : jsstring) :
  blank s -> blank (replaceRuns isWhiteSpace false s).
Proof.
  unfold blank. destruct s as [|c s]; [reflexivity|].
  simpl. rewrite andb_true_iff. intros [Hc Hs]. rewrite Hc.
  rewrite <- (app_nil_r s), replaceRuns_blank by exact Hs. reflexivity.
Qed.

Lemma solid_last (core : jsstring) :
  solid core -> core <> [] ->
  exists c init, core = init ++ [c] /\ isWhiteSpace c = false.
Proof.
  intros Hs Hne. destruct (exists_last Hne) as [init [c ->]].
  exists c, init. split; [reflexivity|].
  unfold solid in Hs. rewrite forallb_app in Hs.
  apply andb_true_iff in Hs as [_ Hc]. simpl in Hc.
  rewrite andb_true_r in Hc. apply negb_true_iff, Hc.
Qed.

(** Padding with white space is stripped. *)
Lemma normalizeWhitespace_padded (pre core post : jsstring) :
  blank pre -> blank post -> solid core -> core <> [] ->
  normalizeWhitespace (Some (pre ++ core ++ post)) = core.
Proof.
  intros Hpre Hpost Hcore Hne. unfold normalizeWhitespace, orEmpty.
  assert (Hmid : forall b, replaceRuns isWhiteSpace b (core ++ post)
                           = core ++ replaceRuns isWhiteSpace false post)
    by (intros b; apply replaceRuns_solid; assumption).
  assert (Hrun : exists sp, blank sp /\
            replaceRuns isWhiteSpace false (pre ++ core ++ post)
            = sp ++ core ++ replaceRuns isWhiteSpace false post).
  { destruct pre as [|c pre].
    - exists []. split; [reflexivity|]. simpl. apply Hmid.
    - exists [32%N]. split; [reflexivity|].
      unfold blank in Hpre. simpl in Hpre.
      apply andb_true_iff in Hpre as [Hc Hpre].
      simpl. rewrite Hc. simpl. f_equal.
      rewrite replaceRuns_blank by exact Hpre. apply Hmid. }
  destruct Hrun as [sp [Hsp ->]].
  pose proof (replaceRuns_all_blank post Hpost) as Hpost'.
  set (post' := replaceRuns isWhiteSpace false post) in *.
  destruct (solid_last core Hcore Hne) as [c [init [-> Hc]]].
  unfold trim, trimEnd.
  rewrite trimStart_blank by exact Hsp.
  assert (Hhead : trimStart ((init ++ [c]) ++ post') = (init ++ [c]) ++ post').
  { destruct init as [|c0 init'].
    - simpl. rewrite Hc. reflexivity.
    - unfold solid in Hcore. simpl in Hcore.
      apply andb_true_iff in Hcore as [Hc0 _]. apply negb_true_iff in Hc0.
      simpl. rewrite Hc0. reflexivity. }
  rewrite Hhead. rewrite !rev_app_distr. simpl.
  rewrite trimStart_blank.
  - simpl. rewrite Hc. simpl. rewrite rev_involutive. reflexivity.
  - unfold blank in *. rewrite forallb_forall in *.
    intros x Hx. apply Hpost'. apply in_rev. exact Hx.
Qed.

Lemma isNoteLetter_cases (l : N) :
  isNoteLetter l = true ->
  In l [65; 66; 67; 68; 69; 70; 71; 97; 98; 99; 100; 101; 102; 103]%N.
Proof.
  unfold isNoteLetter. rewrite orb_true_iff, !andb_true_iff, !N.leb_le.
  intros H. simpl.
  assert (l = 65 \/ l = 66 \/ l = 67 \/ l = 68 \/ l = 69 \/ l = 70 \/ l = 71
          \/ l = 97 \/ l = 98 \/ l = 99 \/ l = 100 \/ l = 101 \/ l = 102
          \/ l = 103)%N as Hl by lia.
  intuition auto.
Qed.

Lemma isNoteLetter_solid (l : N) : isNoteLetter l = true -> isWhiteSpace l = false.
Proof.
  intros H. apply isNoteLetter_cases in H. simpl in H.
  repeat (destruct H as [<-|H]; [reflexivity|]). contradiction.
Qed.

(** C8 (as amended): [normalizeKeyName] is total; it first collapses and trims
    white space and turns the Unicode accidentals into ASCII, and returns that
    string when it is not a recognized spelling (so an unrecognized input that
    is already in that form comes back unchanged).  A letter A-G in either
    case, alone or followed by a sharp, is upper-cased and keeps a single
    trailing [#]; the five flats Db, Eb, Gb, Ab, Bb become their sharp
    equivalents; white space around the spelling is stripped. *)
Theorem normalizeKeyName_spec :
  (forall key : option jsstring,
      let k := asciiAccidentals (normalizeWhitespace key) in
      testFlat k = false -> testSharp k = false -> testPlain k = false ->
      normalizeKeyName key = k)
  /\ (forall s : jsstring,
         normalizeWhitespace (Some s) = s -> asciiAccidentals s = s ->
         testFlat s = false -> testSharp s = false -> testPlain s = false ->
         normalizeKeyName (Some s) = s)
  /\ (forall (pre post : jsstring) (l : N),
         blank pre -> blank post -> isNoteLetter l = true ->
         normalizeKeyName (Some (pre ++ [l] ++ post)) = [upperUnit l]
         /\ (forall a : N, a = 35%N \/ a = 9839%N ->
               normalizeKeyName (Some (pre ++ [l; a] ++ post)) = [upperUnit l; 35%N])
         /\ (forall (a : N) (sharp : jsstring), a = 98%N \/ a = 9837%N ->
               sharpOfFlat (upperUnit l) = Some sharp ->
               normalizeKeyName (Some (pre ++ [l; a] ++ post)) = sharp)).
Proof.
  split; [|split].
  - intros key k Hf Hs Hp. unfold normalizeKeyName. fold k.
    rewrite Hf, Hs, Hp. reflexivity.
  - intros s Hws Hacc Hf Hs Hp. unfold normalizeKeyName.
    rewrite Hws, Hacc, Hf, Hs, Hp. reflexivity.
  - intros pre post l Hpre Hpost Hl.
    pose proof (isNoteLetter_solid l Hl) as Hsolid.
    pose proof (isNoteLetter_cases l Hl) as Hcases. simpl in Hcases.
    split; [|split].
    + unfold normalizeKeyName.
      rewrite normalizeWhitespace_padded;
        [|assumption|assumption|unfold solid; simpl; rewrite Hsolid; reflexivity|discriminate].
      repeat (destruct Hcases as [<-|Hcases]; [reflexivity|]). contradiction.
    + intros a Ha. unfold normalizeKeyName.
      rewrite normalizeWhitespace_padded;
        [|assumption|assumption
         |unfold solid; simpl; rewrite Hsolid; destruct Ha as [-> | ->]; reflexivity
         |discriminate].
      repeat (destruct Hcases as [<-|Hcases];
              [destruct Ha as [-> | ->]; reflexivity|]). contradiction.
    + intros a sharp Ha Hsharp. unfold normalizeKeyName.
      rewrite normalizeWhitespace_padded;
        [|assumption|assumption
         |unfold solid; simpl; rewrite Hsolid; destruct Ha as [-> | ->]; reflexivity
         |discriminate].
      repeat (destruct Hcases as [<-|Hcases];
              [destruct Ha as [-> | ->]; vm_compute in Hsharp;
               first [discriminate Hsharp
                     |injection Hsharp as <-; vm_compute; reflexivity]|]).
      contradiction.
Qed.

Lemma normalizeKeyName_spec_witness :
  normalizeKeyName (Some (js "H")) = js "H"
  /\ normalizeKeyName (Some (js "X Y")) = js "X Y"
  /\ normalizeKeyName (Some (js " " ++ [103%N] ++ js " ")) = [upperUnit 103%N]
  /\ normalizeKeyName (Some (js " " ++ [102%N; 35%N] ++ js " ")) = [upperUnit 102%N; 35%N]
  /\ normalizeKeyName (Some (js "  " ++ [68%N; 98%N] ++ [])) = js "C#".
Proof.
  destruct normalizeKeyName_spec as [Hfall [Hclean Hrec]].
  split; [|split; [|split; [|split]]].
  - apply (Hfall (Some (js "H"))); reflexivity.
  - apply (Hclean (js "X Y")); reflexivity.
  - refine (proj1 (Hrec (js " ") (js " ") 103%N _ _ _)); reflexivity.
  - refine (proj1 (proj2 (Hrec (js " ") (js " ") 102%N _ _ _)) 35%N _);
      first [reflexivity | left; reflexivity].
  - refine (proj2 (proj2 (Hrec (js "  ") [] 68%N _ _ _)) 98%N (js "C#") _ _);
      first [reflexivity | left; reflexivity].
Defined.

(** C8 as stated fails: an input that is no note spelling is not returned
    unchanged when it holds a Unicode accidental or superfluous white space. *)
Lemma normalizeKeyName_unrecognized_counterexample :
  matchCompact [72; 9837]%N = None
  /\ normalizeKeyName (Some [72; 9837]%N) = js "Hb"
  /\ normalizeKeyName (Some [72; 9837]%N) <> [72; 9837]%N
  /\ normalizeKeyName (Some (js " H ")) = js "H"
  /\ normalizeKeyName (Some (js " H ")) <> js " H ".
Proof.
  split; [|split; [|split; [|split]]]; vm_compute; (reflexivity || discriminate).
Qed.

(** ** Text matching: token overlap *)

Lemma newSet_acc (l acc : list jsstring) :
  NoDup acc ->
  NoDup (fold_left setAdd l acc)
  /\ forall t, t ∈ fold_left setAdd l acc <-> t ∈ acc \/ t ∈ l.
Proof.
  revert acc. induction l as [|x l IH]; intros acc Hacc; simpl.
  - split; [exact Hacc|]. intros t. rewrite elem_of_nil. tauto.
  - assert (Hadd : NoDup (setAdd acc x) /\ forall t, t ∈ setAdd acc x <-> t ∈ acc \/ t = x).
    { unfold setAdd. destruct (setHas acc x) eqn:Hhas.
      - apply setHas_spec in Hhas. split; [exact Hacc|].
        intros t. split; [tauto|]. intros [H| ->]; assumption.
      - apply setHas_false in Hhas. split.
        + apply NoDup_app. split; [exact Hacc|]. split.
          * intros y Hy Hy'. apply list_elem_of_singleton in Hy'. subst y. contradiction.
          * apply NoDup_singleton.
        + intros t. rewrite elem_of_app, list_elem_of_singleton. tauto. }
    destruct Hadd as [Hnd Hin]. destruct (IH _ Hnd) as [IH1 IH2].
    split; [exact IH1|]. intros t. rewrite IH2, Hin, elem_of_cons. tauto.
Qed.

Lemma newSet_NoDup (l : list jsstring) : NoDup (newSet l).
Proof. apply (newSet_acc l []). apply NoDup_nil_2. Qed.

Lemma tokenSet_NoDup (s : option jsstring) : NoDup (tokenSet s).
Proof. apply newSet_NoDup. Qed.

Lemma countShared_acc (A B : list jsstring) (n : nat) :
  fold_left (fun inter t => if setHas B t then S inter else inter) A n
  = (n + length (List.filter (setHas B) A))%nat.
Proof.
  revert n. induction A as [|x A IH]; intros n; simpl; [lia|].
  rewrite IH. destruct (setHas B x); simpl; lia.
Qed.

Lemma countShared_filter (A B : list jsstring) :
  countShared A B = length (List.filter (setHas B) A).
Proof. unfold countShared. rewrite countShared_acc. reflexivity. Qed.

Lemma filter_setHas_NoDup (A B : list jsstring) :
  NoDup A -> NoDup (List.filter (setHas B) A).
Proof.
  intros H. apply NoDup_ListNoDup. apply List.NoDup_filter.
  apply NoDup_ListNoDup. exact H.
Qed.

(** The counting loop computes the size of the intersection. *)
Lemma countShared_size (A B : list jsstring) :
  NoDup A ->
  countShared A B = size ((list_to_set A : gset jsstring) ∩ list_to_set B).
Proof.
  intros HA. rewrite countShared_filter.
  rewrite <- (size_list_to_set (C := gset jsstring) (List.filter (setHas B) A))
    by (apply filter_setHas_NoDup; exact HA).
  f_equal. apply set_eq. intros t.
  rewrite elem_of_intersection, !elem_of_list_to_set.
  rewrite !list_elem_of_In, filter_In, <- !list_elem_of_In, setHas_spec.
  tauto.
Qed.

Lemma length_size (A : list jsstring) :
  NoDup A -> length A = size (list_to_set A : gset jsstring).
Proof. intros H. symmetry. apply size_list_to_set. exact H. Qed.

Lemma countShared_comm (A B : list jsstring) :
  NoDup A -> NoDup B -> countShared A B = countShared B A.
Proof.
  intros HA HB. rewrite !countShared_size by assumption.
  f_equal. apply (comm_L (∩)).
Qed.

Lemma countShared_le (A B : list jsstring) : (countShared A B <= length A)%nat.
Proof. rewrite countShared_filter. apply List.filter_length_le. Qed.

Lemma countShared_self (A : list jsstring) : countShared A A = length A.
Proof.
  rewrite countShared_filter. f_equal.
  apply forallb_filter_id. apply forallb_forall.
  intros t Ht. apply setHas_spec, list_elem_of_In, Ht.
Qed.

Lemma countShared_disjoint (A B : list jsstring) :
  (forall t, t ∈ A -> t ∉ B) -> countShared A B = 0%nat.
Proof.
  intros H. rewrite countShared_filter.
  induction A as [|x A IH]; simpl; [reflexivity|].
  assert (Hx : setHas B x = false) by (apply setHas_false, H; left).
  rewrite Hx. apply IH. intros t Ht. apply H. right. exact Ht.
Qed.

Lemma ratio_one (n : nat) : (n <> 0)%nat -> (Z.of_nat n # Pos.of_nat n == 1)%Q.
Proof.
  intros Hn. unfold Qeq. simpl.
  rewrite Z.mul_1_r. destruct n as [|n]; [congruence|].
  rewrite <- Pos.of_nat_succ. rewrite Zpos_P_of_succ_nat. lia.
Qed.

Lemma ratio_bounds (i m : nat) :
  (i <= m)%nat -> (m <> 0)%nat ->
  (0 <= Z.of_nat i # Pos.of_nat m)%Q /\ (Z.of_nat i # Pos.of_nat m <= 1)%Q.
Proof.
  intros Him Hm. unfold Qle. simpl. split; [lia|].
  rewrite Z.mul_1_r. destruct m as [|m]; [congruence|].
  rewrite <- Pos.of_nat_succ. rewrite Zpos_P_of_succ_nat. lia.
Qed.

(** C7 (as amended): the score of a string against itself is 1 whenever its
    token set is not empty; the score is 0 whenever the two token sets share
    no token (in particular when either is empty); the score is symmetric,
    lies in [0, 1], and is the size of the intersection of the two token sets
    over the larger of their sizes. *)
Theorem tokenOverlapScore_spec :
  (forall a : option jsstring,
      tokenSet a <> [] -> (tokenOverlapScore a a == 1)%Q)
  /\ (forall a b : option jsstring,
         (forall t, t ∈ tokenSet a -> t ∉ tokenSet b) ->
         (tokenOverlapScore a b == 0)%Q)
  /\ (forall a b : option jsstring,
         tokenOverlapScore a b = tokenOverlapScore b a)
  /\ (forall a b : option jsstring,
         (0 <= tokenOverlapScore a b)%Q /\ (tokenOverlapScore a b <= 1)%Q)
  /\ (forall a b : option jsstring,
         let A : gset jsstring := list_to_set (tokenSet a) in
         let B : gset jsstring := list_to_set (tokenSet b) in
         size A <> 0%nat -> size B <> 0%nat ->
         tokenOverlapScore a b
         = (Z.of_nat (size (A ∩ B)) # Pos.of_nat (Nat.max (size A) (size B)))%Q).
Proof.
  split; [|split; [|split; [|split]]].
  - intros a Ha. unfold tokenOverlapScore.
    destruct (tokenSet a) as [|t A] eqn:HA; [congruence|].
    change (Nat.eqb (length (t :: A)) 0) with false. simpl orb. cbv iota.
    rewrite countShared_self, Nat.max_id. apply ratio_one. discriminate.
  - intros a b Hdisj. unfold tokenOverlapScore.
    destruct (_ || _); [reflexivity|].
    rewrite (countShared_disjoint _ _ Hdisj). reflexivity.
  - intros a b. unfold tokenOverlapScore.
    rewrite (orb_comm (Nat.eqb (length (tokenSet b)) 0)).
    destruct (_ || _); [reflexivity|].
    rewrite (countShared_comm (tokenSet a) (tokenSet b))
      by apply tokenSet_NoDup.
    rewrite Nat.max_comm. reflexivity.
  - intros a b. unfold tokenOverlapScore.
    destruct (Nat.eqb (length (tokenSet a)) 0) eqn:Ha; [split; discriminate|].
    destruct (Nat.eqb (length (tokenSet b)) 0) eqn:Hb; [split; discriminate|].
    simpl orb. cbv iota. apply Nat.eqb_neq in Ha, Hb.
    apply ratio_bounds.
    + pose proof (countShared_le (tokenSet a) (tokenSet b)). lia.
    + lia.
  - intros a b A B HA HB. subst A B.
    pose proof (length_size (tokenSet a) (tokenSet_NoDup a)) as La.
    pose proof (length_size (tokenSet b) (tokenSet_NoDup b)) as Lb.
    rewrite <- La in *. rewrite <- Lb in *.
    unfold tokenOverlapScore.
    apply Nat.eqb_neq in HA, HB. rewrite HA, HB. simpl orb. cbv iota.
    rewrite countShared_size by apply tokenSet_NoDup. reflexivity.
Qed.

Lemma tokenOverlapScore_spec_witness :
  (tokenOverlapScore (Some (js "Strobe (Remastered)")) (Some (js "Strobe (Remastered)")) == 1)%Q
  /\ (tokenOverlapScore (Some (js "Strobe")) (Some (js "Levels")) == 0)%Q.
Proof.
  destruct tokenOverlapScore_spec as [Hself [Hdisj _]].
  split.
  - apply (Hself (Some (js "Strobe (Remastered)"))). vm_compute. discriminate.
  - apply (Hdisj (Some (js "Strobe")) (Some (js "Levels"))).
    assert (Ha : tokenSet (Some (js "Strobe")) = [js "strobe"])
      by (vm_compute; reflexivity).
    assert (Hb : tokenSet (Some (js "Levels")) = [js "levels"])
      by (vm_compute; reflexivity).
    rewrite Ha, Hb. intros t Ht Ht'.
    apply list_elem_of_singleton in Ht, Ht'. subst t.
    vm_compute in Ht'. discriminate Ht'.
Defined.

(** C7 as stated fails: a non-empty string whose token set is empty scores 0
    against itself. *)
Lemma tokenOverlapScore_self_counterexample :
  js "!" <> []
  /\ tokenSet (Some (js "!")) = []
  /\ tokenOverlapScore (Some (js "!")) (Some (js "!")) = 0%Q
  /\ ~ (tokenOverlapScore (Some (js "!")) (Some (js "!")) == 1)%Q.
Proof.
  split; [|split; [|split]]; vm_compute; (reflexivity || discriminate).
Qed.

(** ** Effects: running programs *)

#[local] Arguments getGetsongApiKey : simpl never.
#[local] Arguments rateLimitedMusicBrainzFetch : simpl never.
#[local] Arguments searchQueries : simpl never.
#[local] Arguments searchMusicBrainzRecordings : simpl never.
#[local] Arguments abSubmissions : simpl never.
#[local] Arguments fetchAcousticBrainzKeyAnySubmission : simpl never.
#[local] Arguments lookupViaGetSongBpm : simpl never.
#[local] Arguments firstWithTonal : simpl never.
#[local] Arguments resolveUncached : simpl never.
#[local] Arguments lookupCamelot : simpl never.
#[local] Arguments job : simpl never.

Lemma searchQueries_unfold (q : jsstring) (rest : list jsstring) :
  searchQueries (q :: rest)
  = bind (encodeURIComponent q) (fun encoded =>
      bind (rateLimitedMusicBrainzFetch encoded) (fun data =>
        let ranked := rankRecordings (default [] (j_recordings data)) in
        if negb (Nat.eqb (length ranked) 0) then Ret ranked else searchQueries rest)).
Proof. reflexivity. Qed.

Lemma searchQueries_cons (q : jsstring) (rest : list jsstring) :
  encodable q = true ->
  searchQueries (q :: rest)
  = bind (rateLimitedMusicBrainzFetch q) (fun data =>
      let ranked := rankRecordings (default [] (j_recordings data)) in
      if negb (Nat.eqb (length ranked) 0) then Ret ranked else searchQueries rest).
Proof.
  intros H. rewrite searchQueries_unfold. unfold encodeURIComponent. rewrite H. reflexivity.
Qed.

Lemma searchQueries_malformed (q : jsstring) (rest : list jsstring) :
  encodable q = false -> searchQueries (q :: rest) = Throw ErrURI.
Proof.
  intros H. rewrite searchQueries_unfold. unfold encodeURIComponent. rewrite H. reflexivity.
Qed.

Lemma firstWithTonal_cons (now : Z) (cacheKey : jsstring) (mb : Candidate)
    (rest : list Candidate) :
  firstWithTonal now cacheKey (mb :: rest)
  = bind (fetchAcousticBrainzKeyAnySubmission (c_mbid mb)) (fun ab =>
      match ab with
      | None => firstWithTonal now cacheKey rest
      | Some (abKey, abScale) =>
          let out := {| camelot := orNull (keyToCamelot (Some abKey) (Some abScale));
                        key := VString (normalizeKeyName (Some abKey));
                        mode := orNull (lowered abScale);
                        provider := VUndefined;
                        providerId := VUndefined;
                        mbid := VString (c_mbid mb);
                        score := Some (c_score mb);
                        cachedAt := now |} in
          bind (storageSet cacheKey (SRecord out)) (fun _ => Ret (Some out))
      end).
Proof. reflexivity. Qed.

Lemma run_bind {A B : Type} (env : Env) (p : Prog A) (f : A -> Prog B) (w : World) :
  run env (bind p f) w
  = match run env p w with
    | (Returned a, w') => run env (f a) w'
    | (Thrown e, w') => (Thrown e, w')
    end.
Proof.
  revert w. induction p; intros w; simpl; auto.
Qed.

Lemma run_tryCatch {A : Type} (env : Env) (p : Prog A) (h : Error -> Prog A) (w : World) :
  run env (tryCatch p h) w
  = match run env p w with
    | (Returned a, w') => (Returned a, w')
    | (Thrown e, w') => run env (h e) w'
    end.
Proof.
  revert w. induction p; intros w; simpl; auto.
Qed.

Lemma Always_impl {A : Type} (P Q : OpDesc -> Prop) (p : Prog A) :
  (forall o, P o -> Q o) -> Always P p -> Always Q p.
Proof.
  intros HPQ H. induction H; constructor; auto.
Qed.

Lemma Always_bind {A B : Type} (P : OpDesc -> Prop) (p : Prog A) (f : A -> Prog B) :
  Always P p -> (forall a, Always P (f a)) -> Always P (bind p f).
Proof.
  intros Hp Hf. induction Hp; simpl; try (constructor; auto); auto.
Qed.

Lemma Always_tryCatch {A : Type} (P : OpDesc -> Prop) (p : Prog A) (h : Error -> Prog A) :
  Always P p -> (forall e, Always P (h e)) -> Always P (tryCatch p h).
Proof.
  intros Hp Hh. induction Hp; simpl; try (constructor; auto); auto.
Qed.

(** Walks through a program built from the primitives, case by case. *)
Ltac always_step :=
  match goal with
  | |- forall _, _ => intro
  | |- Always _ (bind _ _) => apply Always_bind
  | |- Always _ (tryCatch _ _) => apply Always_tryCatch
  | |- Always _ (match ?x with _ => _ end) => destruct x
  | |- Always _ (Ret _) => apply Always_Ret
  | |- Always _ (Throw _) => apply Always_Throw
  | |- Always _ (DateNow _) => apply Always_DateNow
  | |- Always _ (GetLastMb _) => apply Always_GetLastMb
  | |- Always _ (SetLastMb _ _) => apply Always_SetLastMb
  | |- Always _ (Sleep _ _) => apply Always_Sleep
  | |- Always _ (Fetch _ _) => apply Always_Fetch
  | |- Always _ (Suspend _) => apply Always_Suspend
  | |- Always _ (StorageGet _ _) => apply Always_StorageGet
  | |- Always _ (StorageSet _ _ _) => apply Always_StorageSet
  | |- Always _ (Warn _) => apply Always_Warn
  | |- Always _ (SendResponse _ _ _) => apply Always_SendResponse
  end.

Ltac always := repeat always_step.

Lemma getGetsongApiKey_ops : Always gsbOp getGetsongApiKey.
Proof. unfold getGetsongApiKey, storageGet. always; simpl; auto. Qed.

Lemma lookupViaGetSongBpm_ops (title artist : jsstring) :
  Always gsbOp (lookupViaGetSongBpm title artist).
Proof.
  unfold lookupViaGetSongBpm. apply Always_bind; [apply getGetsongApiKey_ops|].
  intros apiKey. unfold encodeURIComponent, fetch, resJson. always; simpl; auto.
Qed.

Lemma rateLimitedMusicBrainzFetch_ops (query : jsstring) :
  Always mbOp (rateLimitedMusicBrainzFetch query).
Proof.
  unfold rateLimitedMusicBrainzFetch, sleep, fetch, resJson. always; simpl; auto.
Qed.

Lemma searchQueries_ops (queries : list jsstring) : Always mbOp (searchQueries queries).
Proof.
  induction queries as [|q rest IH]; [constructor|].
  destruct (encodable q) eqn:Hq; [|rewrite (searchQueries_malformed q rest Hq); constructor].
  rewrite (searchQueries_cons q rest Hq).
  apply Always_bind; [apply rateLimitedMusicBrainzFetch_ops|].
  intros data. cbv zeta. destruct (negb _); [constructor|exact IH].
Qed.

Lemma searchMusicBrainzRecordings_ops (title artist : jsstring) :
  Always mbOp (searchMusicBrainzRecordings title artist).
Proof. apply searchQueries_ops. Qed.

Lemma abSubmissions_ops (mbid_ : jsstring) (ns : list nat) :
  Always abOp (abSubmissions mbid_ ns).
Proof.
  induction ns as [|n rest IH]; cbn [abSubmissions]; [constructor|].
  unfold fetch, resJson. cbn [bind].
  constructor; [exact I|]. intros [e|res]; simpl; [constructor|].
  destruct (status res =? 404); [constructor|].
  destruct (negb (ok res)); [constructor|]. cbn [bind].
  constructor; [exact I|].
  destruct (json res) as [data|]; cbn [bind]; [|constructor].
  destruct (nullish _ _) as [k|]; [|exact IH].
  destruct (nullish _ _) as [sc|]; [|exact IH].
  destruct (_ && _); [constructor|exact IH].
Qed.

Lemma firstWithTonal_ops (now : Z) (cacheKey : jsstring) (candidates : list Candidate) :
  Always (resolveOp cacheKey) (firstWithTonal now cacheKey candidates).
Proof.
  induction candidates as [|mb rest IH]; [constructor|].
  rewrite firstWithTonal_cons. apply Always_bind.
  - apply (Always_impl abOp); [unfold resolveOp; tauto|apply abSubmissions_ops].
  - intros [[abKey abScale]|]; [|exact IH].
    unfold storageSet. always. unfold resolveOp. simpl. tauto.
Qed.

Lemma resolveUncached_ops (now : Z) (cacheKey title artist : jsstring) :
  Always (resolveOp cacheKey) (resolveUncached now cacheKey title artist).
Proof.
  unfold resolveUncached. apply Always_bind.
  - apply (Always_impl gsbOp); [unfold resolveOp; tauto|apply lookupViaGetSongBpm_ops].
  - intros [g|].
    + unfold storageSet. always. unfold resolveOp. simpl. tauto.
    + apply Always_bind.
      * apply (Always_impl mbOp); [unfold resolveOp; tauto|].
        apply searchMusicBrainzRecordings_ops.
      * intros [|top rest].
        -- unfold storageSet. always. unfold resolveOp. simpl. tauto.
        -- apply Always_bind; [apply firstWithTonal_ops|].
           intros [out|]; [constructor|].
           unfold storageSet. always. unfold resolveOp. simpl. tauto.
Qed.

(** ** The rate limiter *)

Lemma spaced_snoc (gap last t' : Z) (ts : list Z) :
  spaced gap ts -> Forall (fun t => t <= last) ts -> last + gap <= t' ->
  spaced gap (ts ++ [t']).
Proof.
  intros Hsp Hle Ht'. induction ts as [|t ts IH]; simpl; [auto|].
  destruct Hsp as [Hhead Htail]. apply Forall_cons in Hle as [Ht Hle].
  split; [|apply IH; assumption].
  destruct ts as [|t1 ts']; simpl; [lia|exact Hhead].
Qed.

Lemma mbTimes_snoc (tr : list Event) (e : Event) :
  mbTimes (tr ++ [e]) = mbTimes tr ++ mbTimes [e].
Proof. unfold mbTimes. apply omap_app. Qed.

(** A program that does not touch the limiter leaves it as it was. *)
Lemma run_quietMb {A : Type} (env : Env) (p : Prog A) (w : World) :
  Always quietMb p ->
  mbTimes (trace (snd (run env p w))) = mbTimes (trace w)
  /\ lastMbRequestAt (snd (run env p w)) = lastMbRequestAt w.
Proof.
  intros H. revert w. induction H; intros w; simpl; auto.
  - contradiction.
  - rewrite (proj1 (IHAlways _)), (proj2 (IHAlways _)). auto.
  - match goal with Hk : forall x w, _ |- _ => destruct (Hk (respond env (awaits w) r) (pass env 0 (logEvent (EvFetch (clock w) r) w))) as [-> ->] end.
    simpl. rewrite mbTimes_snoc.
    destruct r; simpl in *; try contradiction; rewrite app_nil_r; auto.
  - rewrite (proj1 (IHAlways _)), (proj2 (IHAlways _)). auto.
  - match goal with Hk : forall x w, _ |- _ => destruct (Hk (storage w !! k_) (pass env 0 w)) as [-> ->] end. auto.
  - rewrite (proj1 (IHAlways _)), (proj2 (IHAlways _)). auto.
  - rewrite (proj1 (IHAlways _)), (proj2 (IHAlways _)). simpl.
    rewrite mbTimes_snoc, app_nil_r. auto.
  - rewrite (proj1 (IHAlways _)), (proj2 (IHAlways _)). simpl.
    rewrite mbTimes_snoc, app_nil_r. auto.
Qed.

Lemma run_quietMb_inv {A : Type} (env : Env) (p : Prog A) (w : World) :
  Always quietMb p -> mbInv w -> mbInv (snd (run env p w)).
Proof.
  intros Hq [Hsp Hle]. destruct (run_quietMb env p w Hq) as [Ht Hl].
  unfold mbInv. rewrite Ht, Hl. auto.
Qed.

Lemma quiet_of_gsb (o : OpDesc) : gsbOp o -> quietMb o.
Proof. destruct o as [| | | |[]| | | | |]; simpl; auto. Qed.

Lemma quiet_of_ab_write (cacheKey : jsstring) (o : OpDesc) :
  abOp o \/ writeOp cacheKey o -> quietMb o.
Proof. destruct o as [| | | |[]| | | | |]; simpl; tauto. Qed.

(** What one rate-limited request does: it leaves at a time [t] that is at
    least [MB_MIN_INTERVAL_MS] after [lastMbRequestAt], and [lastMbRequestAt]
    becomes [t]. *)
Lemma rateLimitedMusicBrainzFetch_run (env : Env) (query : jsstring) (w : World) :
  let w' := snd (run env (rateLimitedMusicBrainzFetch query) w) in
  exists t : Z,
    trace w' = trace w ++ [EvFetch t (ReqMbSearch query)]
    /\ lastMbRequestAt w' = t
    /\ lastMbRequestAt w + MB_MIN_INTERVAL_MS <= t
    /\ clock w + Z.max 0 (MB_MIN_INTERVAL_MS - (clock w - lastMbRequestAt w)) <= t
    /\ storage w' = storage w.
Proof.
  unfold rateLimitedMusicBrainzFetch, sleep, fetch, resJson. simpl.
  set (wait := Z.max 0 (MB_MIN_INTERVAL_MS - (clock w - lastMbRequestAt w))).
  destruct (wait =? 0) eqn:Hwait; simpl.
  - apply Z.eqb_eq in Hwait. exists (clock w).
    destruct (respond env (awaits w) (ReqMbSearch query)) as [e|res]; simpl;
      [|destruct (negb (ok res)); simpl; [|destruct (json res); simpl]];
      (split; [reflexivity|split; [reflexivity|split; [|split; [|reflexivity]]]]);
      unfold MB_MIN_INTERVAL_MS in *; lia.
  - apply Z.eqb_neq in Hwait.
    exists (clock w + Z.max 0 wait + Z.of_N (elapsed env (awaits w))).
    destruct (respond env (S (awaits w)) (ReqMbSearch query)) as [e|res]; simpl;
      [|destruct (negb (ok res)); simpl; [|destruct (json res); simpl]];
      (split; [reflexivity|split; [reflexivity|split; [|split; [|reflexivity]]]]);
      unfold MB_MIN_INTERVAL_MS in *; lia.
Qed.

Lemma rateLimitedMusicBrainzFetch_inv (env : Env) (query : jsstring) (w : World) :
  mbInv w -> mbInv (snd (run env (rateLimitedMusicBrainzFetch query) w)).
Proof.
  intros [Hsp Hle].
  destruct (rateLimitedMusicBrainzFetch_run env query w) as [t [Htr [Hlast [Hgap _]]]].
  unfold mbInv. rewrite Htr, Hlast, mbTimes_snoc. simpl. split.
  - apply (spaced_snoc _ (lastMbRequestAt w)); assumption.
  - apply Forall_app. split.
    + eapply Forall_impl; [exact Hle|]. simpl. intros x Hx.
      unfold MB_MIN_INTERVAL_MS in *. lia.
    + constructor; [lia|constructor].
Qed.

Lemma searchQueries_inv (env : Env) (queries : list jsstring) (w : World) :
  mbInv w -> mbInv (snd (run env (searchQueries queries) w)).
Proof.
  revert w. induction queries as [|q rest IH]; intros w Hw; [exact Hw|].
  destruct (encodable q) eqn:Hq; [|rewrite (searchQueries_malformed q rest Hq); exact Hw].
  rewrite (searchQueries_cons q rest Hq), run_bind.
  pose proof (rateLimitedMusicBrainzFetch_inv env q w Hw) as H1.
  destruct (run env (rateLimitedMusicBrainzFetch q) w) as [[data|e] w1]; simpl in *;
    [|exact H1].
  destruct (negb _); simpl; [exact H1|apply IH, H1].
Qed.

Lemma searchMusicBrainzRecordings_inv (env : Env) (title artist : jsstring) (w : World) :
  mbInv w -> mbInv (snd (run env (searchMusicBrainzRecordings title artist) w)).
Proof. apply searchQueries_inv. Qed.

Lemma storageSet_inv (env : Env) (k_ : jsstring) (v : StoreVal) (w : World) :
  mbInv w -> mbInv (snd (run env (storageSet k_ v) w)).
Proof. intros H. exact H. Qed.

Lemma firstWithTonal_inv (env : Env) (now : Z) (cacheKey : jsstring)
    (candidates : list Candidate) (w : World) :
  mbInv w -> mbInv (snd (run env (firstWithTonal now cacheKey candidates) w)).
Proof.
  apply run_quietMb_inv.
  apply (Always_impl (fun o => abOp o \/ writeOp cacheKey o));
    [apply quiet_of_ab_write|].
  induction candidates as [|mb rest IH]; [constructor|].
  rewrite firstWithTonal_cons. apply Always_bind.
  - apply (Always_impl abOp); [tauto|apply abSubmissions_ops].
  - intros [[abKey abScale]|]; [|exact IH].
    unfold storageSet. always. simpl. tauto.
Qed.

Lemma resolveUncached_inv (env : Env) (now : Z) (cacheKey title artist : jsstring)
    (w : World) :
  mbInv w -> mbInv (snd (run env (resolveUncached now cacheKey title artist) w)).
Proof.
  intros Hw. unfold resolveUncached. rewrite run_bind.
  pose proof (run_quietMb_inv env (lookupViaGetSongBpm title artist) w
                (Always_impl _ _ _ quiet_of_gsb (lookupViaGetSongBpm_ops title artist)) Hw)
    as H1.
  destruct (run env (lookupViaGetSongBpm title artist) w) as [[[g|]|e] w1];
    cbn [snd] in H1; [exact H1| |exact H1].
  rewrite run_bind.
  pose proof (searchMusicBrainzRecordings_inv env title artist w1 H1) as H2.
  destruct (run env (searchMusicBrainzRecordings title artist) w1)
    as [[[|top others]|e] w2]; cbn [snd] in H2; [exact H2| |exact H2].
  rewrite run_bind.
  pose proof (firstWithTonal_inv env now cacheKey (top :: others) w2 H2) as H3.
  destruct (run env (firstWithTonal now cacheKey (top :: others)) w2)
    as [[[out|]|e] w3]; cbn [snd] in H3; exact H3.
Qed.

Lemma mbInv_same (w w' : World) :
  trace w' = trace w -> lastMbRequestAt w' = lastMbRequestAt w ->
  mbInv w -> mbInv w'.
Proof. unfold mbInv. intros -> ->. auto. Qed.

Lemma lookupCamelot_inv (env : Env) (cacheKey title artist : jsstring) (w : World) :
  mbInv w -> mbInv (snd (run env (lookupCamelot cacheKey title artist) w)).
Proof.
  intros Hw. unfold lookupCamelot, storageGet. cbn [run bind].
  assert (Hw' : mbInv (pass env 0 w)) by (apply (mbInv_same w); auto).
  destruct (freshCached _ _); [exact Hw'|].
  apply resolveUncached_inv. exact Hw'.
Qed.

Lemma mbInv_send (c : nat) (p : Payload) (w : World) :
  mbInv w -> mbInv (logEvent (EvSend c p) w).
Proof.
  unfold mbInv. simpl. rewrite mbTimes_snoc, app_nil_r. auto.
Qed.

Lemma job_inv (env : Env) (c : nat) (msg : Message) (w : World) :
  mbInv w -> mbInv (snd (run env (job c msg) w)).
Proof.
  intros Hw. unfold job. rewrite run_tryCatch.
  destruct (incomplete msg).
  - cbn [run snd]. apply mbInv_send, Hw.
  - rewrite run_bind.
    pose proof (lookupCamelot_inv env (orEmpty (m_cacheKey msg))
                  (normalizeWhitespace (m_title msg))
                  (normalizeWhitespace (m_artist msg)) w Hw) as H1.
    destruct (run env (lookupCamelot _ _ _) w) as [[data|e] w1]; cbn [snd] in H1;
      cbn [run snd]; apply mbInv_send, H1.
Qed.

(** C2 (as amended): every request to the recording-search service is made
    through the limiter, which waits [max(0, 1100 - (now - lastMbRequestAt))]
    and then sets [lastMbRequestAt] to the time at which the request leaves;
    so, however many messages are served, two consecutive requests to that
    service are at least 1100 ms apart.  (Requests to the audio-features
    service are not throttled.) *)
Theorem rate_limit_spacing (env : Env) (msgs : list Message) (c : nat) (w : World) :
  mbInv w ->
  mbInv (serve env c msgs w)
  /\ spaced 1100 (mbTimes (trace (serve env c msgs w)))
  /\ forall query w1,
       let w2 := snd (run env (rateLimitedMusicBrainzFetch query) w1) in
       exists t : Z,
         trace w2 = trace w1 ++ [EvFetch t (ReqMbSearch query)]
         /\ lastMbRequestAt w2 = t
         /\ clock w1 + Z.max 0 (1100 - (clock w1 - lastMbRequestAt w1)) <= t.
Proof.
  intros Hw.
  assert (Hinv : mbInv (serve env c msgs w)).
  { revert c w Hw. induction msgs as [|m rest IH]; intros c w Hw; simpl; [exact Hw|].
    apply IH. destruct (isLookup m); [apply job_inv|]; exact Hw. }
  split; [exact Hinv|]. split; [exact (proj1 Hinv)|].
  intros query w1 w2.
  destruct (rateLimitedMusicBrainzFetch_run env query w1) as [t [H1 [H2 [_ [H3 _]]]]].
  exists t. auto.
Qed.

(** Two lookups served one after the other, neither finding a key: six
    requests to the recording search, each 1140 ms after the one before. *)
Lemma example_mb_times :
  mbTimes (trace (serve (exampleEnv None 50 40) 0 [exampleMessage; otherMessage]
                    exampleWorld))
  = [1700000000080; 1700000001220; 1700000002360;
     1700000003500; 1700000004640; 1700000005780].
Proof. vm_compute. reflexivity. Qed.

Lemma rate_limit_spacing_witness :
  mbInv exampleWorld
  /\ mbTimes (trace (serve (exampleEnv None 50 40) 0 [exampleMessage; otherMessage]
                       exampleWorld))
     = [1700000000080; 1700000001220; 1700000002360;
        1700000003500; 1700000004640; 1700000005780]
  /\ spaced 1100
       (mbTimes (trace (serve (exampleEnv None 50 40) 0
                          [exampleMessage; otherMessage] exampleWorld))).
Proof.
  assert (H : mbInv exampleWorld) by (split; [exact I|constructor]).
  split; [exact H|]. split; [exact example_mb_times|].
  exact (proj1 (proj2 (rate_limit_spacing (exampleEnv None 50 40)
                         [exampleMessage; otherMessage] 0 exampleWorld H))).
Defined.

Lemma example_providerB_times :
  providerBTimes
    (trace (snd (run (exampleEnv None 100 40)
                   (lookupCamelot (js "ta:strobe|deadmau5") (js "Strobe") (js "deadmau5"))
                   exampleWorld)))
  = [1700000000080; 1700000000160; 1700000000240; 1700000000320].
Proof. vm_compute. reflexivity. Qed.

Lemma example_ab_times :
  abTimes
    (trace (snd (run (exampleEnv None 100 40)
                   (fetchAcousticBrainzKeyAnySubmission (js "m1")) exampleWorld)))
  = [1700000000000; 1700000000080; 1700000000160].
Proof. vm_compute. reflexivity. Qed.

(** C2 as stated fails for the audio-features service: its requests do not
    go through the limiter.  With awaits of 40 ms, one resolution sends its
    four Provider B requests 80 ms apart. *)
Lemma provider_b_spacing_counterexample :
  ~ spaced 1100
      (providerBTimes
         (trace (snd (run (exampleEnv None 100 40)
                        (lookupCamelot (js "ta:strobe|deadmau5") (js "Strobe")
                           (js "deadmau5"))
                        exampleWorld))))
  /\ ~ spaced 1100
         (abTimes
            (trace (snd (run (exampleEnv None 100 40)
                           (fetchAcousticBrainzKeyAnySubmission (js "m1"))
                           exampleWorld)))).
Proof.
  rewrite example_providerB_times, example_ab_times.
  split; intros [H _]; lia.
Qed.

(** ** The orchestrator *)

Lemma lookupCamelot_run (env : Env) (cacheKey title artist : jsstring) (w : World) :
  run env (lookupCamelot cacheKey title artist) w
  = match freshCached (clock w) (storage w !! cacheKey) with
    | Some cached => (Returned cached, pass env 0 w)
    | None => run env (resolveUncached (clock w) cacheKey title artist) (pass env 0 w)
    end.
Proof.
  unfold lookupCamelot, storageGet. cbn [run bind].
  destruct (freshCached _ _); reflexivity.
Qed.

Lemma storageSet_run {A : Type} (env : Env) (k_ : jsstring) (v : StoreVal) (a : A)
    (w : World) :
  run env (bind (storageSet k_ v) (fun _ => Ret a)) w
  = (Returned a, pass env 0 (setStorage k_ v w)).
Proof. reflexivity. Qed.

Lemma firstWithTonal_hit (env : Env) (now : Z) (cacheKey : jsstring)
    (pre post : list Candidate) (mb : Candidate) (abKey abScale : jsstring)
    (w w1 w2 : World) :
  misses env pre w w1 ->
  run env (fetchAcousticBrainzKeyAnySubmission (c_mbid mb)) w1
    = (Returned (Some (abKey, abScale)), w2) ->
  run env (firstWithTonal now cacheKey (pre ++ mb :: post)) w
  = (Returned (Some (hitRecord now mb abKey abScale)),
     pass env 0 (setStorage cacheKey (SRecord (hitRecord now mb abKey abScale)) w2)).
Proof.
  revert w. induction pre as [|c others IH]; intros w Hmiss Hhit.
  - simpl in Hmiss. subst w1. simpl app.
    rewrite firstWithTonal_cons, run_bind, Hhit. reflexivity.
  - destruct Hmiss as [wm [Hc Hrest]]. simpl app.
    rewrite firstWithTonal_cons, run_bind, Hc. apply IH; assumption.
Qed.

Lemma insertSorted_perm {A : Type} (precedes : A -> A -> bool) (x : A) (l : list A) :
  Permutation (x :: l) (insertSorted precedes x l).
Proof.
  induction l as [|y l IH]; simpl; [reflexivity|].
  destruct (precedes y x); [|reflexivity].
  rewrite <- IH. apply perm_swap.
Qed.

Lemma stableSort_perm {A : Type} (precedes : A -> A -> bool) (l : list A) :
  Permutation l (stableSort precedes l).
Proof.
  induction l as [|x l IH]; simpl; [reflexivity|].
  rewrite <- insertSorted_perm. constructor. exact IH.
Qed.

Lemma firstn_nil_iff {A : Type} (n : nat) (l : list A) :
  firstn (S n) l = [] <-> l = [].
Proof. destruct l; simpl; split; congruence. Qed.

Lemma filter_nil_iff {A : Type} (f : A -> bool) (l : list A) :
  List.filter f l = [] <-> Forall (fun x => f x = false) l.
Proof.
  induction l as [|x l IH]; simpl; [split; auto|].
  destruct (f x) eqn:Hx.
  - split; [discriminate|]. intros H. apply Forall_cons in H as [H _]. congruence.
  - rewrite IH. split; [intros H; constructor; assumption|].
    intros H. apply Forall_cons in H as [_ H]. exact H.
Qed.

(** The ranking is empty exactly when no recording has an identifier and a
    score of at least 60. *)
Lemma rankRecordings_nil (recs : list Recording) :
  rankRecordings recs = [] <-> Forall (fun r => qualifies r = false) recs.
Proof.
  unfold rankRecordings. rewrite firstn_nil_iff, filter_nil_iff.
  rewrite !Forall_forall.
  split.
  - intros H r Hr. unfold qualifies.
    destruct (toCandidate r) as [c|] eqn:Hc; [|reflexivity].
    apply H. rewrite <- (stableSort_perm higherScore).
    apply list_elem_of_omap. exists r. split; [exact Hr|exact Hc].
  - intros H c Hc.
    rewrite <- (stableSort_perm higherScore) in Hc.
    apply list_elem_of_omap in Hc as [r [Hr Hrc]].
    specialize (H r Hr). unfold qualifies in H. rewrite Hrc in H. exact H.
Qed.

(** C3 (as amended): when Provider A yields nothing and the fallback runs, the
    first Stage-1 candidate, in order, whose Stage-2 lookup succeeds produces
    the record that is returned and cached: its [mbid] and [score] are those
    of that candidate, and it carries no [provider] field (only the records of
    Provider A are tagged).  When Stage 1 finds no candidate, that is, no
    recording with an identifier and a score of at least 60, the record
    returned and cached has [camelot], [key] and [mode] null and no
    [provider] field either. *)
Theorem provider_b_fallback (env : Env) (cacheKey title artist : jsstring)
    (w wa wb : World) :
  freshCached (clock w) (storage w !! cacheKey) = None ->
  run env (lookupViaGetSongBpm title artist) (pass env 0 w) = (Returned None, wa) ->
  (forall (pre post : list Candidate) (mb : Candidate) (abKey abScale : jsstring)
          (w1 w2 : World),
      run env (searchMusicBrainzRecordings title artist) wa
        = (Returned (pre ++ mb :: post), wb) ->
      misses env pre wb w1 ->
      run env (fetchAcousticBrainzKeyAnySubmission (c_mbid mb)) w1
        = (Returned (Some (abKey, abScale)), w2) ->
      let out := hitRecord (clock w) mb abKey abScale in
      let w' := pass env 0 (setStorage cacheKey (SRecord out) w2) in
      run env (lookupCamelot cacheKey title artist) w = (Returned out, w')
      /\ storage w' !! cacheKey = Some (SRecord out)
      /\ mbid out = VString (c_mbid mb)
      /\ score out = Some (c_score mb)
      /\ provider out = VUndefined)
  /\ (run env (searchMusicBrainzRecordings title artist) wa = (Returned [], wb) ->
      let miss := missRecord (clock w) in
      let w' := pass env 0 (setStorage cacheKey (SRecord miss) wb) in
      run env (lookupCamelot cacheKey title artist) w = (Returned miss, w')
      /\ storage w' !! cacheKey = Some (SRecord miss)
      /\ camelot miss = VNull /\ key miss = VNull /\ mode miss = VNull
      /\ provider miss = VUndefined)
  /\ (forall recs : list Recording,
         rankRecordings recs = [] <-> Forall (fun r => qualifies r = false) recs).
Proof.
  intros Hcache Hgsb. split; [|split].
  - intros pre post mb abKey abScale w1 w2 Hsearch Hmiss Hhit out w'.
    split; [|split; [apply lookup_insert_eq|auto]].
    rewrite lookupCamelot_run, Hcache. unfold resolveUncached.
    rewrite run_bind, Hgsb, run_bind, Hsearch.
    destruct (pre ++ mb :: post) as [|top others] eqn:Hc;
      [destruct pre; discriminate Hc|].
    rewrite <- Hc, run_bind.
    rewrite (firstWithTonal_hit env (clock w) cacheKey pre post mb abKey abScale wb w1 w2)
      by assumption.
    reflexivity.
  - intros Hsearch miss w'.
    split; [|split; [apply lookup_insert_eq|auto]].
    rewrite lookupCamelot_run, Hcache. unfold resolveUncached.
    rewrite run_bind, Hgsb, run_bind, Hsearch. reflexivity.
  - apply rankRecordings_nil.
Qed.

Lemma provider_b_fallback_witness :
  exists out w',
    run (exampleEnv (Some exampleTonal) 100 40)
        (lookupCamelot (js "ta:strobe|deadmau5") (js "Strobe") (js "deadmau5"))
        exampleWorld = (Returned out, w')
    /\ storage w' !! js "ta:strobe|deadmau5" = Some (SRecord out)
    /\ mbid out = VString (js "m1")
    /\ score out = Some 100
    /\ provider out = VUndefined.
Proof.
  set (env := exampleEnv (Some exampleTonal) 100 40).
  set (wa := snd (run env (lookupViaGetSongBpm (js "Strobe") (js "deadmau5"))
                    (pass env 0 exampleWorld))).
  set (wb := snd (run env (searchMusicBrainzRecordings (js "Strobe") (js "deadmau5")) wa)).
  set (w2 := snd (run env (fetchAcousticBrainzKeyAnySubmission (js "m1")) wb)).
  assert (Hcache : freshCached (clock exampleWorld)
                     (storage exampleWorld !! js "ta:strobe|deadmau5") = None)
    by reflexivity.
  assert (Hgsb : run env (lookupViaGetSongBpm (js "Strobe") (js "deadmau5"))
                   (pass env 0 exampleWorld) = (Returned None, wa))
    by (vm_compute; reflexivity).
  destruct (provider_b_fallback env (js "ta:strobe|deadmau5") (js "Strobe")
              (js "deadmau5") exampleWorld wa wb Hcache Hgsb) as [Hhit _].
  specialize (Hhit [] [] (mkCandidate (js "m1") 100) (js "C") (js "major") wb w2).
  eexists _, _. apply Hhit.
  - vm_compute. reflexivity.
  - reflexivity.
  - vm_compute. reflexivity.
Defined.

(** C3 as stated fails: the record of a Provider B hit has no [provider]
    field, so it is not "musicbrainz"; and a recording whose score is exactly
    60, hence not above 60, is a candidate and can give a hit. *)
Lemma provider_b_counterexample :
  (exists out,
      fst (run (exampleEnv (Some exampleTonal) 100 40)
             (lookupCamelot (js "ta:strobe|deadmau5") (js "Strobe") (js "deadmau5"))
             exampleWorld) = Returned out
      /\ camelot out = VString (js "8B")
      /\ mbid out = VString (js "m1")
      /\ provider out = VUndefined
      /\ provider out <> VString (js "musicbrainz"))
  /\ (exists out,
         fst (run (exampleEnv (Some exampleTonal) 60 40)
                (lookupCamelot (js "ta:strobe|deadmau5") (js "Strobe") (js "deadmau5"))
                exampleWorld) = Returned out
         /\ score out = Some 60
         /\ camelot out = VString (js "8B")
         /\ camelot out <> VNull).
Proof.
  split.
  - eexists. split; [vm_compute; reflexivity|].
    repeat split; discriminate.
  - eexists. split; [vm_compute; reflexivity|].
    repeat split; discriminate.
Qed.

(** ** What a run adds to the trace *)

Lemma fetches_snoc (tr : list Event) (e : Event) :
  fetches (tr ++ [e]) = fetches tr ++ fetches [e].
Proof. unfold fetches. apply omap_app. Qed.

Lemma fetches_app (tr1 tr2 : list Event) :
  fetches (tr1 ++ tr2) = fetches tr1 ++ fetches tr2.
Proof. unfold fetches. apply omap_app. Qed.

(** A run only adds to the trace. *)
Lemma run_trace_extends {A : Type} (env : Env) (p : Prog A) (w : World) :
  exists rest, trace (snd (run env p w)) = trace w ++ rest.
Proof.
  revert w. induction p as [a|e|k IH|k IH|t k IH|ms k IH|r k IH|k IH|k_ k IH|k_ v k IH
                            |k IH|c pl k IH]; intros w; cbn [run snd].
  - exists []. rewrite app_nil_r. reflexivity.
  - exists []. rewrite app_nil_r. reflexivity.
  - apply IH.
  - apply IH.
  - apply (IH (setLast t w)).
  - apply (IH (pass env ms w)).
  - destruct (IH (respond env (awaits w) r)
                (pass env 0 (logEvent (EvFetch (clock w) r) w))) as [rest H].
    exists (EvFetch (clock w) r :: rest). rewrite H. cbn [trace pass logEvent].
    rewrite <- app_assoc. reflexivity.
  - apply (IH (pass env 0 w)).
  - apply (IH (storage w !! k_) (pass env 0 w)).
  - apply (IH (pass env 0 (setStorage k_ v w))).
  - destruct (IH (logEvent EvWarn w)) as [rest H].
    exists (EvWarn :: rest). rewrite H. cbn [trace logEvent].
    rewrite <- app_assoc. reflexivity.
  - destruct (IH (logEvent (EvSend c pl) w)) as [rest H].
    exists (EvSend c pl :: rest). rewrite H. cbn [trace logEvent].
    rewrite <- app_assoc. reflexivity.
Qed.

Lemma run_bind_extends {A B : Type} (env : Env) (p : Prog A) (f : A -> Prog B) (w : World) :
  exists rest, trace (snd (run env (bind p f) w)) = trace (snd (run env p w)) ++ rest.
Proof.
  rewrite run_bind. destruct (run env p w) as [[a|e] w']; cbn [snd].
  - apply run_trace_extends.
  - exists []. rewrite app_nil_r. reflexivity.
Qed.

(** What a program does first, it does first in whatever it is bound to. *)
Lemma bind_first {A B : Type} (env : Env) (p : Prog A) (f : A -> Prog B) (w : World)
    (ev : Event) :
  (exists rest, trace (snd (run env p w)) = trace w ++ ev :: rest) ->
  exists rest, trace (snd (run env (bind p f) w)) = trace w ++ ev :: rest.
Proof.
  intros [rest H]. destruct (run_bind_extends env p f w) as [rest2 H2].
  exists (rest ++ rest2). rewrite H2, H, <- app_assoc. reflexivity.
Qed.

Lemma first_fetch (tr0 tr rest : list Event) (t : Z) (r : Request) :
  tr = tr0 ++ EvFetch t r :: rest -> fetches tr = fetches tr0 ++ r :: fetches rest.
Proof. intros ->. rewrite fetches_app. reflexivity. Qed.

Lemma fetch_first {A : Type} (env : Env) (r : Request) (f : Response -> Prog A) (w : World) :
  exists rest,
    trace (snd (run env (bind (fetch r) f) w)) = trace w ++ EvFetch (clock w) r :: rest.
Proof.
  unfold fetch. cbn [bind run].
  destruct (run_trace_extends env
              (bind match respond env (awaits w) r with
                    | NetReject e => Throw e
                    | NetOk res => Ret res
                    end f)
              (pass env 0 (logEvent (EvFetch (clock w) r) w))) as [rest H].
  exists rest. rewrite H. cbn [trace pass logEvent]. rewrite <- app_assoc. reflexivity.
Qed.

Lemma abSubmissions_cons (mbid_ : jsstring) (n : nat) (others : list nat) :
  abSubmissions mbid_ (n :: others)
  = (do res <- fetch (ReqAbLowLevel mbid_ n);
     if status res =? 404 then Ret None
     else if negb (ok res) then Ret None
     else
       do data <- resJson res;
       let tonal := j_tonal data in
       let key_ := nullish (tonal ≫= key_key) (tonal ≫= chords_key) in
       let scale := nullish (tonal ≫= key_scale) (tonal ≫= chords_scale) in
       match key_, scale with
       | Some k, Some sc =>
           if nonEmpty k && nonEmpty sc then Ret (Some (k, sc))
           else abSubmissions mbid_ others
       | _, _ => abSubmissions mbid_ others
       end).
Proof. reflexivity. Qed.


(** The first thing the search does is to send its first query, the first
    thing the loop over the candidates does is to ask for the first
    submission of the first candidate. *)
Lemma searchMusicBrainzRecordings_first (env : Env) (title artist : jsstring) (w : World) :
  encodable (hd [] (mbQueries title artist)) = true ->
  exists t rest,
    trace (snd (run env (searchMusicBrainzRecordings title artist) w))
    = trace w ++ EvFetch t (ReqMbSearch (hd [] (mbQueries title artist))) :: rest.
Proof.
  intros Henc. change (searchMusicBrainzRecordings title artist)
    with (searchQueries (mbQueries title artist)).
  unfold mbQueries in *. cbn [hd] in *.
  rewrite (searchQueries_cons _ _ Henc).
  match goal with
  | |- context [rateLimitedMusicBrainzFetch ?q] =>
      destruct (rateLimitedMusicBrainzFetch_run env q w) as (t & Ht & _)
  end.
  exists t. apply bind_first. exists []. exact Ht.
Qed.

Lemma firstWithTonal_first (env : Env) (now : Z) (cacheKey : jsstring) (top : Candidate)
    (others : list Candidate) (w : World) :
  exists rest,
    trace (snd (run env (firstWithTonal now cacheKey (top :: others)) w))
    = trace w ++ EvFetch (clock w) (ReqAbLowLevel (c_mbid top) 0) :: rest.
Proof.
  rewrite firstWithTonal_cons. apply bind_first.
  unfold fetchAcousticBrainzKeyAnySubmission. rewrite abSubmissions_cons.
  apply fetch_first.
Qed.

(** ** Provider A: the credential and the request *)

Lemma lookupViaGetSongBpm_silent_key (env : Env) (title artist : jsstring) (w : World) :
  noCredential w ->
  run env (lookupViaGetSongBpm title artist) w
  = (Returned None, logEvent EvWarn (pass env 0 w)).
Proof.
  unfold noCredential, lookupViaGetSongBpm, getGetsongApiKey, storageGet.
  cbn [run bind].
  destruct (storage w !! GETSONG_KEY_STORAGE) as [[raw|rec]|]; cbn [run bind].
  - intros ->. reflexivity.
  - contradiction.
  - intros _. reflexivity.
Qed.

Lemma lookupViaGetSongBpm_asks (env : Env) (title artist : jsstring) (w : World)
    (raw : jsstring) :
  storage w !! GETSONG_KEY_STORAGE = Some (SString raw) -> trim raw <> [] ->
  encodable (gsbLookup title artist) = true ->
  trace (snd (run env (lookupViaGetSongBpm title artist) w))
  = trace w ++ [EvFetch (clock (pass env 0 w))
                  (ReqGetSong (trim raw) (gsbLookup title artist))]
  /\ forall g, fst (run env (lookupViaGetSongBpm title artist) w) = Returned (Some g) ->
       exists l, firstParsed l = Some g.
Proof.
  intros Hkey Hne Henc.
  unfold lookupViaGetSongBpm, getGetsongApiKey, storageGet, encodeURIComponent, fetch,
    resJson.
  cbn [run bind]. rewrite Hkey. cbn [run bind].
  destruct (trim raw) as [|c t] eqn:Htrim; [congruence|]. cbn [nonEmpty negb run bind].
  fold (gsbLookup title artist). rewrite Henc. cbn [run bind].
  destruct (respond env _ _) as [e|res]; cbn [run bind fst snd trace pass logEvent];
    [split; [reflexivity|discriminate]|].
  destruct (negb (ok res)); cbn [run bind fst snd trace pass logEvent];
    [split; [reflexivity|discriminate]|].
  destruct (json res) as [data|]; cbn [run bind fst snd trace pass logEvent];
    [|split; [reflexivity|discriminate]].
  destruct (length (default [] (j_search data)) =? 0)%nat;
    cbn [run bind fst snd trace pass logEvent];
    [split; [reflexivity|discriminate]|].
  split; [reflexivity|]. intros g H. injection H as H. eauto.
Qed.

(** The query cannot be encoded: [encodeURIComponent] throws. *)
Lemma lookupViaGetSongBpm_malformed (env : Env) (title artist : jsstring) (w : World)
    (raw : jsstring) :
  storage w !! GETSONG_KEY_STORAGE = Some (SString raw) -> trim raw <> [] ->
  encodable (gsbLookup title artist) = false ->
  run env (lookupViaGetSongBpm title artist) w = (Thrown ErrURI, pass env 0 w).
Proof.
  intros Hkey Hne Henc.
  unfold lookupViaGetSongBpm, getGetsongApiKey, storageGet, encodeURIComponent.
  cbn [run bind]. rewrite Hkey. cbn [run bind].
  destruct (trim raw) as [|c t] eqn:Htrim; [congruence|]. cbn [nonEmpty negb run bind].
  fold (gsbLookup title artist). rewrite Henc. reflexivity.
Qed.


(** ** The cache *)

Lemma agree_pass (env : Env) (cacheKey : jsstring) (ms : Z) (w1 w2 : World) :
  agree cacheKey w1 w2 -> agree cacheKey (pass env ms w1) (pass env ms w2).
Proof.
  intros (Hc & Hl & Ha & Ht & Hs). unfold agree, pass. simpl.
  rewrite Hc, Ha. auto.
Qed.

Lemma agree_log (cacheKey : jsstring) (e : Event) (w1 w2 : World) :
  agree cacheKey w1 w2 -> agree cacheKey (logEvent e w1) (logEvent e w2).
Proof.
  intros (Hc & Hl & Ha & Ht & Hs). unfold agree, logEvent. simpl.
  rewrite Ht. auto.
Qed.

Lemma agree_setLast (cacheKey : jsstring) (t : Z) (w1 w2 : World) :
  agree cacheKey w1 w2 -> agree cacheKey (setLast t w1) (setLast t w2).
Proof.
  intros (Hc & Hl & Ha & Ht & Hs). unfold agree, setLast. simpl. auto.
Qed.

Lemma agree_setStorage (cacheKey k_ : jsstring) (v : StoreVal) (w1 w2 : World) :
  agree cacheKey w1 w2 -> agree cacheKey (setStorage k_ v w1) (setStorage k_ v w2).
Proof.
  intros (Hc & Hl & Ha & Ht & Hs). unfold agree, setStorage. simpl.
  repeat split; auto. intros k' Hk'.
  destruct (decide (k_ = k')) as [->|Hne].
  - rewrite !lookup_insert_eq. reflexivity.
  - rewrite !lookup_insert_ne by exact Hne. apply Hs, Hk'.
Qed.

(** A program that does not read what is stored under [cacheKey] runs alike
    in two worlds that differ only there. *)
Lemma run_agree {A : Type} (env : Env) (cacheKey : jsstring) (p : Prog A) (w1 w2 : World) :
  Always (readsOther cacheKey) p -> agree cacheKey w1 w2 ->
  fst (run env p w1) = fst (run env p w2)
  /\ agree cacheKey (snd (run env p w1)) (snd (run env p w2)).
Proof.
  intros H. revert w1 w2.
  induction H as [a|e|k _ _ IH|k _ _ IH|t k _ _ IH|ms k _ _ IH|r k _ _ IH
                  |k _ _ IH|k_ k Hk _ IH|k_ v k _ _ IH|k _ _ IH|c p k _ _ IH];
    intros w1 w2 Hag; cbn [run].
  - split; [reflexivity|exact Hag].
  - split; [reflexivity|exact Hag].
  - destruct Hag as (Hc & Hrest). rewrite Hc. apply IH. split; assumption.
  - destruct Hag as (Hc & Hl & Hrest). rewrite Hl. apply IH. repeat split; tauto.
  - apply IH, agree_setLast, Hag.
  - apply IH, agree_pass, Hag.
  - pose proof Hag as (Hc & Hl & Ha & Hrest). rewrite Ha, Hc.
    apply IH, agree_pass, agree_log, Hag.
  - apply IH, agree_pass, Hag.
  - pose proof Hag as (Hc & Hl & Ha & Ht & Hs).
    rewrite (Hs k_ Hk). apply IH, agree_pass, Hag.
  - apply IH, agree_pass, agree_setStorage, Hag.
  - apply IH, agree_log, Hag.
  - apply IH, agree_log, Hag.
Qed.

Lemma readsOther_of_resolveOp (cacheKey : jsstring) (o : OpDesc) :
  cacheKey <> GETSONG_KEY_STORAGE -> resolveOp cacheKey o -> readsOther cacheKey o.
Proof.
  intros Hne. unfold resolveOp.
  destruct o; simpl; try tauto.
  intros [H|[H|[H|H]]]; try contradiction. subst. congruence.
Qed.

Lemma firstWithTonal_caches (env : Env) (now : Z) (cacheKey : jsstring)
    (candidates : list Candidate) (w w' : World) (out : ResolvedKey) :
  run env (firstWithTonal now cacheKey candidates) w = (Returned (Some out), w') ->
  storage w' !! cacheKey = Some (SRecord out) /\ cachedAt out = now.
Proof.
  revert w. induction candidates as [|mb others IH]; intros w Hrun.
  - discriminate Hrun.
  - rewrite firstWithTonal_cons, run_bind in Hrun.
    destruct (run env (fetchAcousticBrainzKeyAnySubmission (c_mbid mb)) w)
      as [[[[abKey abScale]|]|e] w1].
    + cbv zeta in Hrun. rewrite storageSet_run in Hrun.
      injection Hrun as <- <-. split; [apply lookup_insert_eq|reflexivity].
    + apply (IH w1 Hrun).
    + discriminate Hrun.
Qed.

(** Whatever a resolution returns has just been stored under the cache key,
    stamped with the time at which the resolution began. *)
Lemma resolveUncached_caches (env : Env) (now : Z) (cacheKey title artist : jsstring)
    (w w' : World) (out : ResolvedKey) :
  run env (resolveUncached now cacheKey title artist) w = (Returned out, w') ->
  storage w' !! cacheKey = Some (SRecord out) /\ cachedAt out = now.
Proof.
  unfold resolveUncached. rewrite run_bind.
  destruct (run env (lookupViaGetSongBpm title artist) w) as [[[g|]|e] w1].
  - cbv zeta. rewrite storageSet_run. intros H. injection H as <- <-.
    split; [apply lookup_insert_eq|reflexivity].
  - rewrite run_bind.
    destruct (run env (searchMusicBrainzRecordings title artist) w1)
      as [[[|top others]|e] w2].
    + cbv zeta. rewrite storageSet_run. intros H. injection H as <- <-.
      split; [apply lookup_insert_eq|reflexivity].
    + rewrite run_bind.
      destruct (run env (firstWithTonal now cacheKey (top :: others)) w2)
        as [[[hit|]|e] w3] eqn:Hfirst.
      * cbn [run]. intros H. injection H as <- <-.
        apply (firstWithTonal_caches env now cacheKey (top :: others) w2 w3 hit Hfirst).
      * cbv zeta. rewrite storageSet_run. intros H. injection H as <- <-.
        split; [apply lookup_insert_eq|reflexivity].
      * discriminate.
    + discriminate.
  - discriminate.
Qed.

(** The resolution, step by step: Provider A is asked first; its record,
    when it has one, is the result and Provider B is not asked; when it has
    none, the recording search is run, and with candidates the
    audio-features service is asked, from the best candidate on. *)
Lemma resolveUncached_steps (env : Env) (now : Z) (cacheKey title artist : jsstring)
    (w : World) :
  let r := run env (resolveUncached now cacheKey title artist) w in
  let a := run env (lookupViaGetSongBpm title artist) w in
  (exists rest, trace r.2 = trace a.2 ++ rest)
  /\ (forall e, a.1 = Thrown e -> r = (Thrown e, a.2))
  /\ (forall g, a.1 = Returned (Some g) ->
        r.1 = Returned {| camelot := g_camelot g;
                          key := VString (g_key g);
                          mode := VString (g_mode g);
                          provider := VString (g_provider g);
                          providerId := g_providerId g;
                          mbid := VNull;
                          score := None;
                          cachedAt := now |}
        /\ trace r.2 = trace a.2)
  /\ (a.1 = Returned None ->
      let b := run env (searchMusicBrainzRecordings title artist) a.2 in
      (exists rest, trace r.2 = trace b.2 ++ rest)
      /\ (encodable (hd [] (mbQueries title artist)) = true ->
          exists rest,
            fetches (trace r.2)
            = fetches (trace a.2) ++ ReqMbSearch (hd [] (mbQueries title artist)) :: rest)
      /\ (forall e, b.1 = Thrown e -> r = (Thrown e, b.2))
      /\ (b.1 = Returned [] ->
          r.1 = Returned (missRecord now) /\ trace r.2 = trace b.2)
      /\ (forall top others, b.1 = Returned (top :: others) ->
            let h := run env (firstWithTonal now cacheKey (top :: others)) b.2 in
            (exists rest,
               fetches (trace r.2)
               = fetches (trace b.2) ++ ReqAbLowLevel (c_mbid top) 0 :: rest)
            /\ (forall e, h.1 = Thrown e -> r = (Thrown e, h.2))
            /\ (forall out, h.1 = Returned (Some out) -> r = (Returned out, h.2))
            /\ (h.1 = Returned None ->
                r.1 = Returned {| camelot := VNull; key := VNull; mode := VNull;
                                  provider := VUndefined; providerId := VUndefined;
                                  mbid := VString (c_mbid top);
                                  score := Some (c_score top);
                                  cachedAt := now |}
                /\ trace r.2 = trace h.2))).
Proof.
  intros r a. subst r a.
  split; [apply run_bind_extends|].
  unfold resolveUncached. rewrite run_bind.
  destruct (run env (lookupViaGetSongBpm title artist) w) as [[[g|]|e] wa]; cbn [fst snd].
  - split; [discriminate|]. split; [|discriminate].
    intros g' Hg. injection Hg as <-. cbv zeta. rewrite storageSet_run. split; reflexivity.
  - split; [discriminate|]. split; [discriminate|]. intros _. cbv zeta.
    split; [apply run_bind_extends|]. split.
    { intros Henc.
      destruct (searchMusicBrainzRecordings_first env title artist wa Henc) as (t & rest & H).
      match goal with
      | |- context [run env (bind (searchMusicBrainzRecordings title artist) ?f) wa] =>
          destruct (bind_first env (searchMusicBrainzRecordings title artist) f wa _
                      (ex_intro _ rest H)) as [rest' H']
      end.
      exists (fetches rest'). apply (first_fetch _ _ _ t), H'. }
    rewrite run_bind.
    destruct (run env (searchMusicBrainzRecordings title artist) wa)
      as [[[|top others]|e] wb]; cbn [fst snd].
    + split; [discriminate|]. split; [|discriminate].
      intros _. rewrite storageSet_run. split; reflexivity.
    + split; [discriminate|]. split; [discriminate|].
      intros top' others' Htop. injection Htop as <- <-. cbv zeta.
      split.
      { match goal with
        | |- context [run env (bind (firstWithTonal now cacheKey (top :: others)) ?f) wb] =>
            destruct (bind_first env (firstWithTonal now cacheKey (top :: others)) f wb _
                        (firstWithTonal_first env now cacheKey top others wb)) as [rest' H']
        end.
        exists (fetches rest'). apply (first_fetch _ _ _ (clock wb)), H'. }
      rewrite run_bind.
      destruct (run env (firstWithTonal now cacheKey (top :: others)) wb)
        as [[[hit|]|e] wh]; cbn [fst snd].
      * split; [discriminate|]. split; [|discriminate].
        intros out Hout. injection Hout as <-. reflexivity.
      * split; [discriminate|]. split; [discriminate|].
        intros _. rewrite storageSet_run. split; reflexivity.
      * split; [|split; discriminate]. intros e' He. injection He as <-. reflexivity.
    + split; [|split; discriminate]. intros e' He. injection He as <-. reflexivity.
  - split; [|split; discriminate]. intros e' He. injection He as <-. reflexivity.
Qed.

(** C4: a record cached under a key and less than 30 days old is returned as
    it is, without any request and without any write; a record that is 30
    days old or older counts for nothing: the whole resolution is run
    (Provider A, then Provider B), what it returns replaces the stale record,
    and the run is the one that takes place when nothing is cached under the
    key.  The resolution run on a stale record is observed step by step.
    Provider A is asked first: without a credential its warning is the first
    thing logged, with one its search for the title and the artist is the
    first request sent; an error it throws is the outcome, a record it
    returns is the result, stamped with the time of the lookup, and nothing
    more is sent.  When it returns nothing Provider B is performed: the
    first query of the recording search is the next request sent; without a
    candidate the result is the miss record; with candidates the next
    request asks the audio-features service for the first submission of the
    best one, and the result is the first record the candidates yield, or
    the miss record that names the best candidate. *)
Theorem cache_ttl (env : Env) (cacheKey title artist : jsstring) (w : World)
    (cached : ResolvedKey) :
  storage w !! cacheKey = Some (SRecord cached) ->
  (clock w - cachedAt cached < CACHE_TTL_MS ->
   exists w',
     run env (lookupCamelot cacheKey title artist) w = (Returned cached, w')
     /\ trace w' = trace w
     /\ storage w' = storage w)
  /\ (CACHE_TTL_MS <= clock w - cachedAt cached ->
      let r := run env (lookupCamelot cacheKey title artist) w in
      let r0 := run env (lookupCamelot cacheKey title artist) (withoutKey cacheKey w) in
      r = run env (resolveUncached (clock w) cacheKey title artist) (pass env 0 w)
      /\ (forall out,
            r.1 = Returned out ->
            storage r.2 !! cacheKey = Some (SRecord out)
            /\ cachedAt out = clock w
            /\ out <> cached)
      /\ (cacheKey <> GETSONG_KEY_STORAGE ->
          r.1 = r0.1
          /\ trace r.2 = trace r0.2
          /\ clock r.2 = clock r0.2
          /\ (forall out, r.1 = Returned out -> storage r.2 = storage r0.2))
      /\ (let a := run env (lookupViaGetSongBpm title artist) (pass env 0 w) in
          (exists rest, trace r.2 = trace a.2 ++ rest)
          /\ (noCredential w ->
              a.1 = Returned None /\ exists rest, trace r.2 = trace w ++ EvWarn :: rest)
          /\ (forall raw,
                storage w !! GETSONG_KEY_STORAGE = Some (SString raw) -> trim raw <> [] ->
                encodable (gsbLookup title artist) = true ->
                exists rest,
                  fetches (trace r.2)
                  = fetches (trace w) ++ ReqGetSong (trim raw) (gsbLookup title artist) :: rest)
          /\ (forall e, a.1 = Thrown e -> r = (Thrown e, a.2))
          /\ (forall g, a.1 = Returned (Some g) ->
                r.1 = Returned {| camelot := g_camelot g;
                                  key := VString (g_key g);
                                  mode := VString (g_mode g);
                                  provider := VString (g_provider g);
                                  providerId := g_providerId g;
                                  mbid := VNull;
                                  score := None;
                                  cachedAt := clock w |}
                /\ trace r.2 = trace a.2)
          /\ (a.1 = Returned None ->
              let b := run env (searchMusicBrainzRecordings title artist) a.2 in
              (exists rest, trace r.2 = trace b.2 ++ rest)
              /\ (encodable (hd [] (mbQueries title artist)) = true ->
                  exists rest,
                    fetches (trace r.2)
                    = fetches (trace a.2)
                      ++ ReqMbSearch (hd [] (mbQueries title artist)) :: rest)
              /\ (forall e, b.1 = Thrown e -> r = (Thrown e, b.2))
              /\ (b.1 = Returned [] ->
                  r.1 = Returned (missRecord (clock w)) /\ trace r.2 = trace b.2)
              /\ (forall top others, b.1 = Returned (top :: others) ->
                    let h := run env (firstWithTonal (clock w) cacheKey (top :: others))
                               b.2 in
                    (exists rest,
                       fetches (trace r.2)
                       = fetches (trace b.2) ++ ReqAbLowLevel (c_mbid top) 0 :: rest)
                    /\ (forall e, h.1 = Thrown e -> r = (Thrown e, h.2))
                    /\ (forall out, h.1 = Returned (Some out) -> r = (Returned out, h.2))
                    /\ (h.1 = Returned None ->
                        r.1 = Returned {| camelot := VNull; key := VNull; mode := VNull;
                                          provider := VUndefined;
                                          providerId := VUndefined;
                                          mbid := VString (c_mbid top);
                                          score := Some (c_score top);
                                          cachedAt := clock w |}
                        /\ trace r.2 = trace h.2))))).
Proof.
  intros Hstored. split.
  - intros Hfresh. exists (pass env 0 w).
    rewrite lookupCamelot_run, Hstored. unfold freshCached.
    apply Z.ltb_lt in Hfresh. rewrite Hfresh. auto.
  - intros Hstale r r0. subst r r0.
    rewrite !lookupCamelot_run.
    assert (H1 : freshCached (clock w) (storage w !! cacheKey) = None).
    { rewrite Hstored. unfold freshCached.
      apply Z.ltb_ge in Hstale. rewrite Hstale. reflexivity. }
    assert (H2 : freshCached (clock (withoutKey cacheKey w))
                   (storage (withoutKey cacheKey w) !! cacheKey) = None).
    { unfold withoutKey. cbn [storage]. rewrite lookup_delete_eq. reflexivity. }
    rewrite H1, H2. change (clock (withoutKey cacheKey w)) with (clock w).
    assert (Hsteps := resolveUncached_steps env (clock w) cacheKey title artist
                        (pass env 0 w)).
    cbv zeta in Hsteps. destruct Hsteps as (Hext & Hthrow & Hhit & Hnone).
    assert (Hquiet : noCredential w ->
              (run env (lookupViaGetSongBpm title artist) (pass env 0 w)).1 = Returned None
              /\ exists rest,
                   trace (run env (resolveUncached (clock w) cacheKey title artist)
                            (pass env 0 w)).2 = trace w ++ EvWarn :: rest).
    { intros Hno. destruct Hext as [rest Hrest]. revert Hrest.
      rewrite (lookupViaGetSongBpm_silent_key env title artist (pass env 0 w) Hno).
      cbn [fst snd trace logEvent pass]. intros Hrest. split; [reflexivity|].
      exists rest. rewrite Hrest, <- app_assoc. reflexivity. }
    assert (Hasks : forall raw,
              storage w !! GETSONG_KEY_STORAGE = Some (SString raw) -> trim raw <> [] ->
              encodable (gsbLookup title artist) = true ->
              exists rest,
                fetches (trace (run env (resolveUncached (clock w) cacheKey title artist)
                                  (pass env 0 w)).2)
                = fetches (trace w) ++ ReqGetSong (trim raw) (gsbLookup title artist) :: rest).
    { intros raw Hraw Hne Henc. destruct Hext as [rest Hrest].
      destruct (lookupViaGetSongBpm_asks env title artist (pass env 0 w) raw Hraw Hne Henc)
        as [Htr _].
      rewrite Htr in Hrest. cbn [trace pass] in Hrest. rewrite <- app_assoc in Hrest.
      exists (fetches rest). apply (first_fetch _ _ _ _ _ Hrest). }
    set (p := resolveUncached (clock w) cacheKey title artist) in *.
    destruct (run env p (pass env 0 w)) as [o1 w1] eqn:E1.
    split; [reflexivity|].
    refine ((fun H => conj (proj1 H) (conj (proj2 H)
              (conj Hext (conj Hquiet (conj Hasks (conj Hthrow (conj Hhit Hnone))))))) _).
    split.
    { intros out Hret. cbn [fst snd] in *. subst o1.
      destruct (resolveUncached_caches env _ _ _ _ _ _ _ E1) as [Hk1 Hat].
      split; [exact Hk1|]. split; [exact Hat|].
      intros ->. unfold CACHE_TTL_MS in Hstale. lia. }
    intros Hkey.
    assert (Hag : agree cacheKey (pass env 0 w) (pass env 0 (withoutKey cacheKey w))).
    { apply agree_pass. unfold agree, withoutKey. simpl. repeat split; auto.
      intros k' Hk'. rewrite lookup_delete_ne by congruence. reflexivity. }
    assert (Hops : Always (readsOther cacheKey) p).
    { apply (Always_impl (resolveOp cacheKey));
        [intros o; apply readsOther_of_resolveOp, Hkey|apply resolveUncached_ops]. }
    destruct (run_agree env cacheKey p _ _ Hops Hag) as [Hout (Hc & Hl & Ha & Ht & Hs)].
    rewrite E1 in Hout, Hc, Ht, Hs.
    destruct (run env p (pass env 0 (withoutKey cacheKey w))) as [o2 w2] eqn:E2.
    cbn [fst snd] in *.
    split; [exact Hout|]. split; [exact Ht|]. split; [exact Hc|].
    intros out Hret.
    assert (Ho2 : o2 = Returned out) by congruence.
    rewrite Hret in E1. rewrite Ho2 in E2.
    destruct (resolveUncached_caches env _ _ _ _ _ _ _ E1) as [Hk1 _].
    destruct (resolveUncached_caches env _ _ _ _ _ _ _ E2) as [Hk2 _].
    apply map_eq. intros k'. destruct (decide (k' = cacheKey)) as [->|Hne].
    + rewrite Hk1, Hk2. reflexivity.
    + apply Hs, Hne.
Qed.

(** A stale record beside a credential: Provider A is asked and has
    nothing, then Provider B is performed and finds the key. *)
Lemma example_stale_run :
  fetches (trace (snd (run staleEnv
                         (lookupCamelot (js "ta:strobe|deadmau5") (js "Strobe")
                            (js "deadmau5"))
                         staleWorld)))
  = [ReqGetSong (js "secret") (gsbLookup (js "Strobe") (js "deadmau5"));
     ReqMbSearch (hd [] (mbQueries (js "Strobe") (js "deadmau5")));
     ReqAbLowLevel (js "m1") 0]
  /\ fst (run staleEnv (lookupViaGetSongBpm (js "Strobe") (js "deadmau5"))
            (pass staleEnv 0 staleWorld))
     = Returned None.
Proof. split; vm_compute; reflexivity. Qed.

Lemma cache_ttl_witness :
  (exists w',
      run (exampleEnv (Some exampleTonal) 100 40)
          (lookupCamelot (js "ta:strobe|deadmau5") (js "Strobe") (js "deadmau5"))
          (cachedWorld 1699999999000)
      = (Returned (missRecord 1699999999000), w')
      /\ trace w' = trace (cachedWorld 1699999999000)
      /\ storage w' = storage (cachedWorld 1699999999000))
  /\ (forall out,
         fst (run (exampleEnv (Some exampleTonal) 100 40)
                (lookupCamelot (js "ta:strobe|deadmau5") (js "Strobe") (js "deadmau5"))
                (cachedWorld 0)) = Returned out ->
         storage (snd (run (exampleEnv (Some exampleTonal) 100 40)
                         (lookupCamelot (js "ta:strobe|deadmau5") (js "Strobe")
                            (js "deadmau5"))
                         (cachedWorld 0))) !! js "ta:strobe|deadmau5"
         = Some (SRecord out)
         /\ cachedAt out = clock (cachedWorld 0)
         /\ out <> missRecord 0)
  /\ (fetches (trace (snd (run staleEnv
                              (lookupCamelot (js "ta:strobe|deadmau5") (js "Strobe")
                                 (js "deadmau5"))
                              staleWorld)))
      = [ReqGetSong (js "secret") (gsbLookup (js "Strobe") (js "deadmau5"));
         ReqMbSearch (hd [] (mbQueries (js "Strobe") (js "deadmau5")));
         ReqAbLowLevel (js "m1") 0]
      /\ (exists rest,
            fetches (trace (snd (run staleEnv
                                   (lookupCamelot (js "ta:strobe|deadmau5") (js "Strobe")
                                      (js "deadmau5"))
                                   staleWorld)))
            = fetches (trace staleWorld)
              ++ ReqGetSong (trim (js " secret ")) (gsbLookup (js "Strobe") (js "deadmau5"))
                 :: rest)
      /\ (exists rest,
            fetches (trace (snd (run staleEnv
                                   (lookupCamelot (js "ta:strobe|deadmau5") (js "Strobe")
                                      (js "deadmau5"))
                                   staleWorld)))
            = fetches (trace (snd (run staleEnv
                                     (lookupViaGetSongBpm (js "Strobe") (js "deadmau5"))
                                     (pass staleEnv 0 staleWorld))))
              ++ ReqMbSearch (hd [] (mbQueries (js "Strobe") (js "deadmau5"))) :: rest)).
Proof.
  split; [|split].
  - apply (proj1 (cache_ttl (exampleEnv (Some exampleTonal) 100 40)
                    (js "ta:strobe|deadmau5") (js "Strobe") (js "deadmau5")
                    (cachedWorld 1699999999000) (missRecord 1699999999000)
                    (lookup_singleton_eq _ _))).
    reflexivity.
  - refine (proj1 (proj2
              (proj2 (cache_ttl (exampleEnv (Some exampleTonal) 100 40)
                        (js "ta:strobe|deadmau5") (js "Strobe") (js "deadmau5")
                        (cachedWorld 0) (missRecord 0)
                        (lookup_singleton_eq _ _)) _))).
    vm_compute. discriminate.
  - split; [exact (proj1 example_stale_run)|].
    assert (Hstored : storage staleWorld !! js "ta:strobe|deadmau5"
                      = Some (SRecord (missRecord 0))) by (vm_compute; reflexivity).
    assert (Hstale : CACHE_TTL_MS <= clock staleWorld - cachedAt (missRecord 0))
      by (vm_compute; discriminate).
    destruct (proj2 (proj2 (proj2
                (proj2 (cache_ttl staleEnv (js "ta:strobe|deadmau5") (js "Strobe")
                          (js "deadmau5") staleWorld (missRecord 0) Hstored) Hstale))))
      as (_ & _ & Hasks & _ & _ & Hnone).
    split.
    + apply (Hasks (js " secret ")); [vm_compute; reflexivity|vm_compute; discriminate
                                      |reflexivity].
    + apply (proj1 (proj2 (Hnone (proj2 example_stale_run)))). reflexivity.
Defined.

(** ** Provider A *)

Lemma lookupViaGetSongBpm_run (env : Env) (title artist : jsstring) (w : World)
    (apiKeyRaw : jsstring) (res : Response) (data : Json) (items : list SongItem) :
  storage w !! GETSONG_KEY_STORAGE = Some (SString apiKeyRaw) ->
  nonEmpty (trim apiKeyRaw) = true ->
  encodable (gsbLookup title artist) = true ->
  respond env (S (awaits w)) (ReqGetSong (trim apiKeyRaw) (gsbLookup title artist))
    = NetOk res ->
  ok res = true -> json res = Some data -> j_search data = Some items -> items <> [] ->
  run env (lookupViaGetSongBpm title artist) w
  = (Returned (firstParsed (firstn 5 (rankItems title artist items))),
     pass env 0 (pass env 0
       (logEvent (EvFetch (clock (pass env 0 w))
                    (ReqGetSong (trim apiKeyRaw) (gsbLookup title artist)))
          (pass env 0 w)))).
Proof.
  intros Hkey Hne Henc Hresp Hok Hjson Hsearch Hitems.
  unfold lookupViaGetSongBpm, getGetsongApiKey, storageGet, encodeURIComponent, fetch, resJson.
  cbn [run bind]. rewrite Hkey. cbn [run bind]. rewrite Hne. cbn [negb run bind].
  fold (gsbLookup title artist). rewrite Henc. cbn [run bind].
  change (awaits (pass env 0 w)) with (S (awaits w)). rewrite Hresp.
  cbn [run bind]. rewrite Hok. cbn [negb run bind]. rewrite Hjson. cbn [run bind].
  rewrite Hsearch. cbn [default].
  destruct items as [|s items']; [congruence|]. reflexivity.
Qed.

(** *** Binary64 numbers *)

Lemma grid_positive : Zpos (Z.to_pos (2 ^ 1074)) = 2 ^ 1074.
Proof. apply Z2Pos.id. apply Z.pow_pos_nonneg; lia. Qed.

Lemma pow2_pos (j : Z) : 0 <= j -> Zpos (Z.to_pos (2 ^ j)) = 2 ^ j.
Proof. intros Hj. apply Z2Pos.id. apply Z.pow_pos_nonneg; lia. Qed.

Lemma roundHalfEven_lower (n : Z) (d : positive) :
  0 <= n -> n / Zpos d <= roundHalfEven n d.
Proof.
  intros Hn. unfold roundHalfEven.
  destruct (2 * (n mod Zpos d) ?= Zpos d); [destruct (Z.even _)| |]; lia.
Qed.

Lemma roundHalfEven_nonneg (n : Z) (d : positive) : 0 <= n -> 0 <= roundHalfEven n d.
Proof.
  intros Hn. pose proof (roundHalfEven_lower n d Hn).
  pose proof (Z.div_pos n (Zpos d) Hn ltac:(lia)). lia.
Qed.

Lemma roundHalfEven_positive (n : Z) (d : positive) : Zpos d <= n -> 0 < roundHalfEven n d.
Proof.
  intros Hn. pose proof (roundHalfEven_lower n d ltac:(lia)).
  assert (1 <= n / Zpos d) by (apply Z.div_le_lower_bound; lia). lia.
Qed.

(** [2 ^ floorLog2 n d <= n / d]. *)
Lemma floorLog2_lower (n d : positive) :
  (0 <= floorLog2 n d -> Zpos d * 2 ^ floorLog2 n d <= Zpos n)
  /\ (floorLog2 n d < 0 -> Zpos d <= Zpos n * 2 ^ (- floorLog2 n d)).
Proof.
  unfold floorLog2.
  pose proof (Z.log2_spec (Zpos n) ltac:(lia)) as [Hn _].
  pose proof (Z.log2_spec (Zpos d) ltac:(lia)) as [_ Hd].
  pose proof (Z.log2_nonneg (Zpos n)) as Ha.
  pose proof (Z.log2_nonneg (Zpos d)) as Hb.
  set (a := Z.log2 (Zpos n)) in *. set (b := Z.log2 (Zpos d)) in *.
  clearbody a b. cbv zeta.
  destruct (0 <=? a - b) eqn:He.
  - apply Z.leb_le in He.
    destruct (Zpos d * 2 ^ (a - b) <=? Zpos n) eqn:Ht.
    + apply Z.leb_le in Ht. split; [intros _; exact Ht|lia].
    + split.
      * intros H1.
        assert (Hpow : 2 ^ a = 2 ^ Z.succ b * 2 ^ (a - b - 1))
          by (rewrite <- Z.pow_add_r by lia; f_equal; lia).
        assert (0 < 2 ^ (a - b - 1)) by (apply Z.pow_pos_nonneg; lia).
        nia.
      * intros H1.
        assert (Hab : a - b = 0) by lia.
        replace (- (a - b - 1)) with 1 by lia.
        assert (b = a) by lia. subst b.
        assert (2 ^ Z.succ a = 2 * 2 ^ a) by (rewrite Z.pow_succ_r by lia; reflexivity).
        lia.
  - apply Z.leb_gt in He.
    destruct (Zpos d <=? Zpos n * 2 ^ (- (a - b))) eqn:Ht.
    + apply Z.leb_le in Ht. split; [lia|intros _; exact Ht].
    + split; [lia|]. intros _.
      assert (Hpow : 2 ^ Z.succ b = 2 ^ a * 2 ^ (- (a - b - 1)))
        by (rewrite <- Z.pow_add_r by lia; f_equal; lia).
      assert (0 < 2 ^ (- (a - b - 1))) by (apply Z.pow_pos_nonneg; lia).
      nia.
Qed.

Lemma doublePos_nonneg (n d : positive) : (0 <= doublePos n d)%Q.
Proof.
  unfold doublePos. destruct (0 <=? _) eqn:Hu.
  - apply Z.leb_le in Hu.
    assert (H : 0 <= roundHalfEven (Zpos n)
                       (d * Z.to_pos (2 ^ Z.max (floorLog2 n d - 52) (-1074)))
                     * 2 ^ Z.max (floorLog2 n d - 52) (-1074)).
    { apply Z.mul_nonneg_nonneg; [apply roundHalfEven_nonneg; lia|].
      apply Z.pow_nonneg. lia. }
    unfold Qle. cbn [Qnum Qden inject_Z]. lia.
  - assert (H : 0 <= roundHalfEven
                       (Zpos n * 2 ^ (- Z.max (floorLog2 n d - 52) (-1074))) d).
    { apply roundHalfEven_nonneg.
      apply Z.mul_nonneg_nonneg; [lia|apply Z.pow_nonneg; lia]. }
    unfold Qle. cbn [Qnum Qden]. lia.
Qed.

(** A number that is at least the least positive binary64 number is not
    rounded to zero. *)
Lemma doublePos_positive (n d : positive) :
  Zpos d <= Zpos n * 2 ^ 1074 -> (0 < doublePos n d)%Q.
Proof.
  intros Hgrid. unfold doublePos.
  destruct (floorLog2_lower n d) as [Hlo1 Hlo2].
  set (e := floorLog2 n d) in *.
  destruct (0 <=? Z.max (e - 52) (-1074)) eqn:Hu.
  - apply Z.leb_le in Hu.
    assert (He : Z.max (e - 52) (-1074) = e - 52) by lia. rewrite He in *.
    assert (H : 0 < roundHalfEven (Zpos n) (d * Z.to_pos (2 ^ (e - 52))) * 2 ^ (e - 52)).
    { apply Z.mul_pos_pos; [|apply Z.pow_pos_nonneg; lia].
      apply roundHalfEven_positive. rewrite Pos2Z.inj_mul, pow2_pos by lia.
      specialize (Hlo1 ltac:(lia)).
      assert (2 ^ (e - 52) <= 2 ^ e) by (apply Z.pow_le_mono_r; lia).
      nia. }
    unfold Qlt. cbn [Qnum Qden inject_Z]. lia.
  - apply Z.leb_gt in Hu.
    assert (H : 0 < roundHalfEven (Zpos n * 2 ^ (- Z.max (e - 52) (-1074))) d).
    { apply roundHalfEven_positive.
      destruct (Z.max_spec (e - 52) (-1074)) as [[_ ->]|[Hge Hmax]]; [exact Hgrid|].
      rewrite Hmax in *.
      destruct (Z.le_gt_cases 0 e) as [Hpos|Hneg].
      + specialize (Hlo1 Hpos).
        assert (0 < 2 ^ e) by (apply Z.pow_pos_nonneg; lia).
        assert (0 < 2 ^ (- (e - 52))) by (apply Z.pow_pos_nonneg; lia).
        nia.
      + specialize (Hlo2 Hneg).
        assert (2 ^ (- e) <= 2 ^ (- (e - 52))) by (apply Z.pow_le_mono_r; lia).
        nia. }
    unfold Qlt. cbn [Qnum Qden]. lia.
Qed.

(** What [double] yields is a binary64 number. *)
Lemma doublePos_onGrid (n d : positive) : onGrid (doublePos n d).
Proof.
  unfold doublePos, onGrid.
  set (e := floorLog2 n d).
  pose proof (Z.le_max_r (e - 52) (-1074)) as Hmin.
  set (u := Z.max (e - 52) (-1074)) in *.
  destruct (0 <=? u) eqn:Hu.
  - apply Z.leb_le in Hu.
    exists (roundHalfEven (Zpos n) (d * Z.to_pos (2 ^ u)) * 2 ^ u * 2 ^ 1074).
    unfold Qeq. cbn [Qnum Qden inject_Z]. rewrite grid_positive. ring.
  - apply Z.leb_gt in Hu.
    exists (roundHalfEven (Zpos n * 2 ^ (- u)) d * 2 ^ (1074 + u)).
    unfold Qeq. cbn [Qnum Qden]. rewrite grid_positive, pow2_pos by lia.
    rewrite <- Z.mul_assoc, <- Z.pow_add_r by lia. do 2 f_equal. lia.
Qed.

Lemma double_onGrid (x : Q) : onGrid (double x).
Proof.
  unfold double. destruct (Qnum x) as [|n|n].
  - exists 0. reflexivity.
  - apply doublePos_onGrid.
  - destruct (doublePos_onGrid n (Qden x)) as [k Hk]. exists (- k).
    rewrite Hk. reflexivity.
Qed.

Lemma onGrid_minus (x y : Q) : onGrid x -> onGrid y -> onGrid (x - y).
Proof.
  intros [k Hk] [l Hl]. exists (k - l). rewrite Hk, Hl.
  unfold Qeq, Qminus, Qplus, Qopp. cbn [Qnum Qden]. rewrite Pos2Z.inj_mul. ring.
Qed.

(** The sign of a rounded binary64 number is the sign of the number: a
    difference of two binary64 numbers is negative as computed exactly when
    it is negative. *)
Lemma double_negative (x : Q) : onGrid x -> ((double x < 0)%Q <-> (x < 0)%Q).
Proof.
  intros [k Hk]. unfold double.
  destruct x as [num den]. cbn [Qnum Qden].
  unfold Qeq in Hk. cbn [Qnum Qden] in Hk. rewrite grid_positive in Hk.
  destruct num as [|n|n].
  - split; intros H; unfold Qlt in H; cbn [Qnum Qden] in H; lia.
  - pose proof (doublePos_nonneg n den) as Hnn. split; intros H.
    + exfalso. apply (Qlt_not_le _ _ H Hnn).
    + unfold Qlt in H. cbn [Qnum Qden] in H. lia.
  - split; intros _; [unfold Qlt; cbn [Qnum Qden]; lia|].
    assert (Hpos : (0 < doublePos n den)%Q).
    { apply doublePos_positive.
      assert (0 < 2 ^ 1074) by (apply Z.pow_pos_nonneg; lia).
      assert (k < 0) by nia. nia. }
    apply (Qopp_lt_compat 0 (doublePos n den)) in Hpos. exact Hpos.
Qed.

Lemma Qminus_negative (x y : Q) : (x - y < 0)%Q <-> (x < y)%Q.
Proof.
  unfold Qlt, Qminus, Qplus, Qopp. cbn [Qnum Qden]. lia.
Qed.

Lemma gsbScore_onGrid (title artist : jsstring) (s : SongItem) :
  onGrid (gsbScore title artist s).
Proof. unfold gsbScore, dadd. apply double_onGrid. Qed.

(** On binary64 numbers the comparator is negative exactly when the second
    score is the lower one. *)
Lemma higherQ_spec (a b : SongItem * Q) :
  onGrid (snd a) -> onGrid (snd b) ->
  higherQ a b = true <-> (snd b < snd a)%Q.
Proof.
  intros Ha Hb. unfold higherQ, dsub.
  rewrite negb_true_iff, <- not_true_iff_false, Qle_bool_iff.
  rewrite <- (Qminus_negative (snd b) (snd a)).
  rewrite <- (double_negative _ (onGrid_minus _ _ Hb Ha)).
  split; [apply Qnot_le_lt|apply Qlt_not_le].
Qed.

Lemma higherQ_equal (a b : SongItem * Q) :
  (snd a == snd b)%Q -> higherQ a b = false.
Proof.
  intros Heq. unfold higherQ, dsub, double.
  assert (Hnum : Qnum (snd b - snd a) = 0).
  { unfold Qeq in Heq. unfold Qminus, Qplus, Qopp. cbn [Qnum Qden]. lia. }
  rewrite Hnum. reflexivity.
Qed.

Lemma insertSorted_sorted (x : SongItem * Q) (l : list (SongItem * Q)) :
  onGrid (snd x) -> Forall (fun y => onGrid (snd y)) l ->
  StronglySorted notLower l -> StronglySorted notLower (insertSorted higherQ x l).
Proof.
  intros Hx Hgrid Hsorted. induction Hsorted as [|y l Hl IH Hy]; simpl.
  - constructor; constructor.
  - apply Forall_cons in Hgrid as [Hgy Hgrid].
    destruct (higherQ y x) eqn:Hyx.
    + apply (higherQ_spec y x Hgy Hx) in Hyx. constructor; [exact (IH Hgrid)|].
      apply Forall_forall. intros z Hz.
      rewrite <- insertSorted_perm in Hz. apply elem_of_cons in Hz as [->|Hz].
      * unfold notLower. apply Qlt_le_weak, Hyx.
      * rewrite Forall_forall in Hy. apply Hy, Hz.
    + assert (Hle : notLower x y).
      { unfold notLower. apply Qnot_lt_le. intros Hlt.
        apply (higherQ_spec y x Hgy Hx) in Hlt. congruence. }
      constructor; [constructor; assumption|].
      constructor; [exact Hle|].
      eapply Forall_impl; [exact Hy|]. simpl. intros z Hz.
      unfold notLower in *. eapply Qle_trans; eassumption.
Qed.

Lemma rankItems_scores (title artist : jsstring) (items : list SongItem) :
  Forall (fun x => snd x = gsbScore title artist (fst x)) (rankItems title artist items).
Proof.
  unfold rankItems. rewrite <- stableSort_perm.
  apply Forall_forall. intros x Hx.
  apply list_elem_of_In, in_map_iff in Hx as [s [<- _]]. reflexivity.
Qed.

Lemma rankItems_sorted (title artist : jsstring) (items : list SongItem) :
  StronglySorted notLower (rankItems title artist items).
Proof.
  unfold rankItems, stableSort.
  induction items as [|s items IH]; simpl; [constructor|].
  apply insertSorted_sorted; [apply gsbScore_onGrid| |exact IH].
  fold (stableSort higherQ (List.map (fun s => (s, gsbScore title artist s)) items)).
  fold (rankItems title artist items).
  eapply Forall_impl; [apply rankItems_scores|].
  simpl. intros x ->. apply gsbScore_onGrid.
Qed.

(** The sort is stable: results with the same score keep the order of the
    answer. *)
Lemma insertSorted_stable (q : Q) (x : SongItem * Q) (l : list (SongItem * Q)) :
  List.filter (fun y => Qeq_bool (snd y) q) (insertSorted higherQ x l)
  = List.filter (fun y => Qeq_bool (snd y) q) (x :: l).
Proof.
  induction l as [|y l IH]; [reflexivity|].
  cbn [insertSorted]. destruct (higherQ y x) eqn:Hyx; [|reflexivity].
  cbn [List.filter] in *. rewrite IH.
  destruct (Qeq_bool (snd x) q) eqn:Hx; [|reflexivity].
  destruct (Qeq_bool (snd y) q) eqn:Hy; [|reflexivity].
  apply Qeq_bool_iff in Hx, Hy.
  rewrite (higherQ_equal y x) in Hyx; [discriminate|].
  rewrite Hx, Hy. reflexivity.
Qed.

Lemma rankItems_stable (title artist : jsstring) (items : list SongItem) (q : Q) :
  List.filter (fun y => Qeq_bool (snd y) q) (rankItems title artist items)
  = List.filter (fun y => Qeq_bool (snd y) q)
      (List.map (fun s => (s, gsbScore title artist s)) items).
Proof.
  unfold rankItems, stableSort.
  induction (List.map _ items) as [|x l IH]; [reflexivity|].
  cbn [fold_right]. rewrite insertSorted_stable. cbn [List.filter]. rewrite IH. reflexivity.
Qed.

Lemma firstParsed_none (l : list (SongItem * Q)) :
  firstParsed l = None <-> Forall unparsable l.
Proof.
  induction l as [|[s q] l IH]; simpl; [split; auto|].
  destruct (parseGetsongKeyOf (s_key_of s)) as [[k sc]|] eqn:Hp.
  - split; [discriminate|]. intros H. apply Forall_cons in H as [H _].
    unfold unparsable in H. simpl in H. congruence.
  - rewrite IH. split; [intros H; constructor; assumption|].
    intros H. apply Forall_cons in H as [_ H]. exact H.
Qed.

Lemma firstParsed_some (l : list (SongItem * Q)) (g : GsbHit) :
  firstParsed l = Some g ->
  exists pre s q post k sc,
    l = pre ++ (s, q) :: post
    /\ Forall unparsable pre
    /\ parseGetsongKeyOf (s_key_of s) = Some (k, sc)
    /\ g = gsbRecord s k sc.
Proof.
  induction l as [|[s q] l IH]; simpl; [discriminate|].
  destruct (parseGetsongKeyOf (s_key_of s)) as [[k sc]|] eqn:Hp.
  - intros H. injection H as <-.
    exists [], s, q, l, k, sc. repeat split; auto.
  - intros H. destruct (IH H) as (pre & s' & q' & post & k & sc & -> & Hpre & Hparse & Hg).
    exists ((s, q) :: pre), s', q', post, k, sc. repeat split; auto.
Qed.

(** C5: Provider A scores every search result by 0.7 times the token overlap
    of the titles plus 0.3 times the token overlap of the artist names (in
    binary64 arithmetic, as the code computes it), sorts the results by that
    score, highest first, results with the same score staying in the order
    of the answer, looks at the first five in that order, and answers with
    the record, tagged "getsongbpm", of the first of them whose raw key
    string parses (which need not be the best match); it answers null when
    none of the five parses.  The title and the artist are such that the
    request can be made: their query has no lone surrogate. *)
Theorem getsongbpm_lookup (env : Env) (title artist : jsstring) (w : World)
    (apiKeyRaw : jsstring) (res : Response) (data : Json) (items : list SongItem) :
  storage w !! GETSONG_KEY_STORAGE = Some (SString apiKeyRaw) ->
  nonEmpty (trim apiKeyRaw) = true ->
  encodable (gsbLookup title artist) = true ->
  respond env (S (awaits w)) (ReqGetSong (trim apiKeyRaw) (gsbLookup title artist))
    = NetOk res ->
  ok res = true -> json res = Some data -> j_search data = Some items -> items <> [] ->
  let scored := List.map (fun s => (s, gsbScore title artist s)) items in
  let ranked := rankItems title artist items in
  let top5 := firstn 5 ranked in
  (exists w', run env (lookupViaGetSongBpm title artist) w
              = (Returned (firstParsed top5), w'))
  /\ Permutation scored ranked
  /\ Forall (fun x =>
       snd x
       = dadd (dmul (double (tokenOverlapScore (Some (orEmpty (s_title (fst x))))
                               (Some title)))
                    (double (7 # 10)))
              (dmul (double (tokenOverlapScore (Some (orEmpty (s_artistName (fst x))))
                               (Some artist)))
                    (double (3 # 10)))) ranked
  /\ StronglySorted notLower ranked
  /\ (forall q : Q,
        List.filter (fun x => Qeq_bool (snd x) q) ranked
        = List.filter (fun x => Qeq_bool (snd x) q) scored)
  /\ (firstParsed top5 = None <-> Forall unparsable top5)
  /\ (forall g, firstParsed top5 = Some g ->
        exists pre s q post k sc,
          top5 = pre ++ (s, q) :: post
          /\ Forall unparsable pre
          /\ parseGetsongKeyOf (s_key_of s) = Some (k, sc)
          /\ g = gsbRecord s k sc
          /\ g_provider g = js "getsongbpm").
Proof.
  intros Hkey Hne Henc Hresp Hok Hjson Hsearch Hitems scored ranked top5.
  split; [|split; [|split; [|split; [|split; [|split]]]]].
  - eexists. apply (lookupViaGetSongBpm_run env title artist w apiKeyRaw res data items);
      assumption.
  - apply stableSort_perm.
  - apply rankItems_scores.
  - apply rankItems_sorted.
  - intros q. apply rankItems_stable.
  - apply firstParsed_none.
  - intros g Hg.
    destruct (firstParsed_some top5 g Hg) as (pre & s & q & post & k & sc & H1 & H2 & H3 & H4).
    exists pre, s, q, post, k, sc. repeat split; try assumption.
    rewrite H4. reflexivity.
Qed.

(** The two results tie at 3/4 as exact numbers; as binary64 numbers the
    second scores 0.75 and the first 0.7499999999999999, so the second is
    ranked first and gives the answer. *)
Lemma getsongbpm_lookup_witness :
  (exists w', run (gsbEnv tieItems) (lookupViaGetSongBpm (js "a b c d") (js "e f g h"))
                gsbWorld
              = (Returned (firstParsed
                             (firstn 5 (rankItems (js "a b c d") (js "e f g h") tieItems))),
                 w'))
  /\ firstParsed (firstn 5 (rankItems (js "a b c d") (js "e f g h") tieItems))
     = Some {| g_camelot := VString (js "8B"); g_key := js "C"; g_mode := js "major";
               g_provider := js "getsongbpm"; g_providerId := VString (js "a") |}
  /\ List.map (fun x => (s_id (fst x), Qred (snd x)))
       (rankItems (js "a b c d") (js "e f g h") tieItems)
     = [(Some (js "a"), (3 # 4)%Q);
        (Some (js "b"), (6755399441055743 # 9007199254740992)%Q)].
Proof.
  split; [|split; vm_compute; reflexivity].
  refine (proj1 (getsongbpm_lookup (gsbEnv tieItems) (js "a b c d") (js "e f g h")
                   gsbWorld (js " secret ")
                   (mkResponse 200 (Some (mkJson (Some tieItems) None None)))
                   (mkJson (Some tieItems) None None) tieItems _ _ _ _ _ _ _ _));
    first [reflexivity | discriminate | apply lookup_singleton_eq].
Defined.

(** C10: a search result of Provider A whose key string parses to a note
    that has no Camelot code (such as "B#" or "E#") gives a record with
    [camelot] null, [key] the parsed note and [provider] "getsongbpm"; the
    orchestrator caches and returns it, and Provider B is not asked.  (That
    Provider A has a search result entails that the request could be made:
    the query of the title and the artist has no lone surrogate.) *)
Theorem unmapped_key_is_cached (env : Env) (cacheKey title artist : jsstring) (w : World)
    (apiKeyRaw : jsstring) (res : Response) (data : Json) (item : SongItem)
    (note : jsstring) :
  note = js "B#" \/ note = js "E#" ->
  s_key_of item = Some note ->
  freshCached (clock w) (storage w !! cacheKey) = None ->
  storage w !! GETSONG_KEY_STORAGE = Some (SString apiKeyRaw) ->
  nonEmpty (trim apiKeyRaw) = true ->
  encodable (gsbLookup title artist) = true ->
  respond env (S (S (awaits w))) (ReqGetSong (trim apiKeyRaw) (gsbLookup title artist))
    = NetOk res ->
  ok res = true -> json res = Some data -> j_search data = Some [item] ->
  parseGetsongKeyOf (Some note) = Some (note, js "major")
  /\ keyToCamelot (Some note) (Some (js "major")) = VNull
  /\ exists out w',
       run env (lookupCamelot cacheKey title artist) w = (Returned out, w')
       /\ camelot out = VNull
       /\ key out = VString note
       /\ mode out = VString (js "major")
       /\ provider out = VString (js "getsongbpm")
       /\ storage w' !! cacheKey = Some (SRecord out)
       /\ providerBTimes (trace w') = providerBTimes (trace w)
       /\ fetches (trace w')
          = fetches (trace w) ++ [ReqGetSong (trim apiKeyRaw) (gsbLookup title artist)].
Proof.
  intros Hnote Hkeyof Hcache Hkey Hne Henc Hresp Hok Hjson Hsearch.
  assert (Hparse : parseGetsongKeyOf (Some note) = Some (note, js "major"))
    by (destruct Hnote as [-> | ->]; vm_compute; reflexivity).
  assert (Hcam : keyToCamelot (Some note) (Some (js "major")) = VNull)
    by (destruct Hnote as [-> | ->]; vm_compute; reflexivity).
  split; [exact Hparse|]. split; [exact Hcam|].
  eexists _, _. split.
  - rewrite lookupCamelot_run, Hcache. unfold resolveUncached. rewrite run_bind.
    rewrite (lookupViaGetSongBpm_run env title artist (pass env 0 w) apiKeyRaw res data [item]);
      try assumption; [|discriminate].
    unfold rankItems, stableSort. cbn [List.map fold_right insertSorted firstn firstParsed].
    rewrite Hkeyof, Hparse, Hcam. cbv zeta. rewrite storageSet_run. reflexivity.
  - cbn [camelot key mode provider g_camelot g_key g_mode g_provider orNull truthy].
    split; [reflexivity|]. split; [reflexivity|]. split; [reflexivity|].
    split; [reflexivity|]. split; [apply lookup_insert_eq|].
    cbn [trace pass setStorage logEvent]. unfold providerBTimes, fetches.
    rewrite !omap_app. cbn [omap]. split; [apply app_nil_r|reflexivity].
Qed.

Lemma unmapped_key_is_cached_witness :
  parseGetsongKeyOf (Some (js "B#")) = Some (js "B#", js "major")
  /\ keyToCamelot (Some (js "B#")) (Some (js "major")) = VNull
  /\ exists out w',
       run (gsbEnv [itemWithKey (js "B#")])
           (lookupCamelot (js "ta:strobe|deadmau5") (js "Strobe") (js "deadmau5"))
           gsbWorld = (Returned out, w')
       /\ camelot out = VNull
       /\ key out = VString (js "B#")
       /\ mode out = VString (js "major")
       /\ provider out = VString (js "getsongbpm")
       /\ storage w' !! js "ta:strobe|deadmau5" = Some (SRecord out)
       /\ providerBTimes (trace w') = providerBTimes (trace gsbWorld)
       /\ fetches (trace w')
          = fetches (trace gsbWorld)
            ++ [ReqGetSong (trim (js " secret ")) (gsbLookup (js "Strobe") (js "deadmau5"))].
Proof.
  refine (unmapped_key_is_cached (gsbEnv [itemWithKey (js "B#")])
            (js "ta:strobe|deadmau5") (js "Strobe") (js "deadmau5") gsbWorld
            (js " secret ")
            (mkResponse 200 (Some (mkJson (Some [itemWithKey (js "B#")]) None None)))
            (mkJson (Some [itemWithKey (js "B#")]) None None)
            (itemWithKey (js "B#")) (js "B#") _ _ _ _ _ _ _ _ _ _);
    first [reflexivity | left; reflexivity | apply lookup_singleton_eq].
Defined.

(** ** The serial queue *)

Lemma lookupCamelot_silent (cacheKey title artist : jsstring) :
  Always silent (lookupCamelot cacheKey title artist).
Proof.
  unfold lookupCamelot, storageGet. cbn [bind].
  constructor; [exact I|]. intros now.
  constructor; [exact I|]. intros cache.
  destruct (freshCached now cache); [constructor|].
  apply (Always_impl (resolveOp cacheKey)); [|apply resolveUncached_ops].
  intros o. unfold resolveOp. destruct o; simpl; tauto.
Qed.

Lemma answers_tryCatch_bind {A : Type} (c : nat) (p : Prog A) (f : A -> Prog unit)
    (h : Error -> Prog unit) :
  Always silent p ->
  (forall a, Answers c (tryCatch (f a) h)) ->
  (forall e, Answers c (h e)) ->
  Answers c (tryCatch (bind p f) h).
Proof.
  intros Hp Hf Hh.
  induction Hp; cbn [bind tryCatch]; try (constructor; auto); auto.
  contradiction.
Qed.

(** The callback of a message answers its caller, and nobody else, exactly
    once, whatever the resolution does, also when it throws. *)
Lemma job_answers (c : nat) (msg : Message) : Answers c (job c msg).
Proof.
  unfold job. destruct (incomplete msg).
  - cbn [tryCatch]. constructor.
  - apply answers_tryCatch_bind.
    + apply lookupCamelot_silent.
    + intros data. cbn [tryCatch]. constructor.
    + intros e. constructor.
Qed.

Lemma answered_snoc (tr : list Event) (e : Event) :
  answered (tr ++ [e]) = answered tr ++ answered [e].
Proof. unfold answered. apply omap_app. Qed.

(** Up to its next await a callback either ends, having just answered, or is
    still to answer. *)
Lemma advance_answers (c : nat) (p : Prog unit) (w : World) :
  Answers c p ->
  (fst (advance p w) = Ret tt
   /\ answered (trace (snd (advance p w))) = answered (trace w) ++ [c])
  \/ (Answers c (fst (advance p w))
      /\ answered (trace (snd (advance p w))) = answered (trace w)).
Proof.
  intros H. revert w.
  induction H as [pl|k _ IH|k _ IH|t k _ IH|ms k Hk _|r k Hk _|k Hk _|k_ k Hk _
                  |k_ v k Hk _|k _ IH]; intros w; cbn [advance fst snd].
  - left. split; [reflexivity|]. cbn [logEvent trace]. apply answered_snoc.
  - apply IH.
  - apply IH.
  - apply (IH (setLast t w)).
  - right. split; [constructor; exact Hk|reflexivity].
  - right. split; [constructor; exact Hk|].
    cbn [logEvent trace]. rewrite answered_snoc. apply app_nil_r.
  - right. split; [constructor; exact Hk|reflexivity].
  - right. split; [constructor; exact Hk|reflexivity].
  - right. split; [constructor; exact Hk|reflexivity].
  - destruct (IH (logEvent EvWarn w)) as [[H1 H2]|[H1 H2]]; [left|right];
      (split; [exact H1|]); rewrite H2; cbn [logEvent trace];
      rewrite answered_snoc; cbn [answered omap]; rewrite app_nil_r; reflexivity.
Qed.

Lemma resume_answers (c : nat) (p k : Prog unit) (x : NetResult) (w : World) :
  Answers c p -> resume p x w = Some k -> Answers c k.
Proof.
  intros H Hres. destruct H; cbn [resume] in Hres; try discriminate;
    injection Hres as <-; auto.
Qed.

Lemma chain_snoc (rs : list Reaction) (head q d : nat) (cb : Prog unit) :
  chain rs head q -> (q < d)%nat -> chain (rs ++ [mkReaction q d cb]) head d.
Proof.
  revert head. induction rs as [|r rs IH]; intros head; simpl.
  - intros -> Hd. auto.
  - intros (Ha & Hlt & Hrest) Hd. auto.
Qed.

Lemma chain_above (rs : list Reaction) (head q : nat) :
  chain rs head q -> Forall (fun r => (head < derived r)%nat) rs /\ (head <= q)%nat.
Proof.
  revert head. induction rs as [|r rs IH]; intros head; simpl.
  - intros ->. split; [constructor|lia].
  - intros (Ha & Hlt & Hrest). destruct (IH _ Hrest) as [Hall Hq].
    split; [|lia]. constructor; [exact Hlt|].
    eapply Forall_impl; [exact Hall|]. simpl. intros r' Hr'. lia.
Qed.

(** In a chain, only the first callback waits for the head; every other one
    waits for a promise derived by a callback before it. *)
Lemma chain_inner (rs1 rs2 : list Reaction) (r : Reaction) (head q : nat) :
  chain (rs1 ++ r :: rs2) head q ->
  (rs1 = [] /\ awaited r = head)
  \/ (exists r', r' ∈ rs1 /\ derived r' = awaited r).
Proof.
  revert head. induction rs1 as [|r0 rs1 IH]; intros head; simpl.
  - intros (Ha & _). left. auto.
  - intros (Ha & Hlt & Hrest). right.
    destruct (IH _ Hrest) as [[-> Hr]|[r' [Hin Hr']]].
    + exists r0. split; [left|auto].
    + exists r'. split; [right; exact Hin|exact Hr'].
Qed.

Lemma queued_snoc (rs : list Reaction) (lo hi d q : nat) (msg : Message) :
  queued rs lo hi ->
  queued (rs ++ [mkReaction q d (job hi msg)]) lo (S hi).
Proof.
  revert lo. induction rs as [|r rs IH]; intros lo; simpl.
  - intros Hlo. exists hi, msg. repeat split; auto.
  - intros (c & m & H1 & H2 & H3 & H4). exists c, m. repeat split; auto.
Qed.

Lemma queued_bounds (rs : list Reaction) (lo hi : nat) :
  queued rs lo hi -> (lo <= hi)%nat.
Proof.
  revert lo. induction rs as [|r rs IH]; intros lo; simpl; [auto|].
  intros (c & m & H1 & H2 & _). lia.
Qed.

Lemma queued_weaken (rs : list Reaction) (lo lo' hi : nat) :
  (lo' <= lo)%nat -> queued rs lo hi -> queued rs lo' hi.
Proof.
  intros Hle. destruct rs as [|r rs]; simpl; [lia|].
  intros (c & m & H1 & H2 & H3 & H4). exists c, m. repeat split; auto. lia.
Qed.

Lemma queued_more (rs : list Reaction) (lo hi : nat) :
  queued rs lo hi -> queued rs lo (S hi).
Proof.
  revert lo. induction rs as [|r rs IH]; intros lo; simpl; [lia|].
  intros (c & m & H1 & H2 & H3 & H4). exists c, m. repeat split; auto.
Qed.

Lemma sorted_snoc (l : list nat) (c : nat) :
  StronglySorted lt l -> Forall (fun c' => (c' < c)%nat) l ->
  StronglySorted lt (l ++ [c]).
Proof.
  induction 1 as [|x l Hl IH Hx]; intros Hc; simpl.
  - constructor; constructor.
  - apply Forall_cons in Hc as [Hxc Hc]. constructor; [apply IH, Hc|].
    apply Forall_app. split; [exact Hx|]. constructor; [exact Hxc|constructor].
Qed.

Lemma land_done (d : nat) (pw : Prog unit * World) (s : Sys) (rs : list Reaction)
    (ts : list Task) :
  fst pw = Ret tt ->
  land d pw s rs ts
  = mkSys (settle d Fulfilled (promises s)) (queue s) rs ts (arrived s) (snd pw).
Proof. intros H. unfold land. rewrite H. reflexivity. Qed.

Lemma land_waiting (c d : nat) (pw : Prog unit * World) (s : Sys) (rs : list Reaction)
    (ts : list Task) :
  Answers c (fst pw) ->
  land d pw s rs ts
  = mkSys (promises s) (queue s) rs (ts ++ [mkTask d (fst pw)]) (arrived s) (snd pw).
Proof. intros H. unfold land. destruct H; reflexivity. Qed.

Lemma chain_queue_lt (ps : list PromiseState) (rs : list Reaction) (head q : nat) :
  chain rs head q ->
  Forall (fun r => ps !! derived r = Some Pending) rs ->
  is_Some (ps !! head) ->
  (q < length ps)%nat.
Proof.
  revert head. induction rs as [|r rs IH]; intros head; simpl.
  - intros -> _ Hsome. apply lookup_lt_is_Some, Hsome.
  - intros (Ha & Hlt & Hrest) Hall _. apply Forall_cons in Hall as [Hr Hall].
    apply (IH _ Hrest Hall). rewrite Hr. eauto.
Qed.

Lemma queued_callers (rs : list Reaction) (lo hi : nat) :
  queued rs lo hi ->
  Forall (fun r => exists c msg, callback r = job c msg /\ (lo <= c)%nat /\ (c < hi)%nat) rs.
Proof.
  revert lo. induction rs as [|r rs IH]; intros lo; simpl; [constructor|].
  intros (c & m & H1 & H2 & H3 & H4). constructor.
  - exists c, m. auto.
  - eapply Forall_impl; [apply (IH _ H4)|]. simpl.
    intros r' (c' & m' & Hcb & Hlo & Hhi). exists c', m'. repeat split; auto. lia.
Qed.

(** A callback that is to answer [c] is run up to its next await, while
    nothing else is in flight. *)
Lemma Inv_after (s : Sys) (rs : list Reaction) (d c lo : nat) (k : Prog unit) :
  chain rs d (queue s) ->
  queued rs lo (arrived s) ->
  (c < lo)%nat ->
  Forall (fun r => promises s !! derived r = Some Pending) rs ->
  promises s !! d = Some Pending ->
  Answers c k ->
  Forall (fun c' => (c' < c)%nat) (answered (trace (world s))) ->
  StronglySorted lt (answered (trace (world s))) ->
  Inv (land d (advance k (world s)) s rs []).
Proof.
  intros Hchain Hq Hc Hpend Hd Hk Hans Hsorted.
  destruct (advance_answers c k (world s) Hk) as [[Hret Htr]|[Hstill Htr]].
  - rewrite land_done by exact Hret.
    exists d, lo. cbn [reactions queue arrived promises tasks world].
    destruct (chain_above _ _ _ Hchain) as [Habove _].
    split; [exact Hchain|]. split; [exact Hq|]. split; [|split].
    + rewrite Forall_forall in *. intros r Hr. unfold settle.
      rewrite list_lookup_insert_ne; [apply Hpend, Hr|].
      specialize (Habove r Hr). simpl in Habove. lia.
    + left. unfold inflight. cbn [tasks promises world]. split; [reflexivity|].
      split.
      * unfold settle. apply list_lookup_insert_eq.
        apply lookup_lt_is_Some. rewrite Hd. eauto.
      * rewrite Htr. apply Forall_app. split.
        -- eapply Forall_impl; [exact Hans|]. simpl. intros. lia.
        -- constructor; [exact Hc|constructor].
    + rewrite Htr. apply sorted_snoc; assumption.
  - rewrite (land_waiting c) by exact Hstill.
    exists d, lo. cbn [reactions queue arrived promises tasks world].
    split; [exact Hchain|]. split; [exact Hq|]. split; [exact Hpend|]. split.
    + right. exists (mkTask d (fst (advance k (world s)))), c.
      cbn [tasks promises world settles remaining]. rewrite Htr.
      repeat split; auto.
    + rewrite Htr. exact Hsorted.
Qed.

Lemma Inv_initial (w0 : World) : answered (trace w0) = [] -> Inv (initial w0).
Proof.
  intros H. exists 0%nat, 0%nat. unfold initial. simpl.
  split; [reflexivity|]. split; [lia|]. split; [constructor|]. split.
  - left. unfold inflight. simpl. rewrite H. repeat split; constructor.
  - rewrite H. constructor.
Qed.

Lemma Inv_message (msg : Message) (s : Sys) : Inv s -> Inv (listener msg s).
Proof.
  intros (head & lo & Hchain & Hq & Hpend & Hfl & Hsorted).
  unfold listener. destruct (isLookup msg).
  - assert (Hhead : is_Some (promises s !! head)).
    { destruct Hfl as [(_ & H & _)|(t & c & _ & _ & H & _)]; rewrite H; eauto. }
    pose proof (chain_queue_lt _ _ _ _ Hchain Hpend Hhead) as Hqlt.
    exists head, lo. cbn [reactions queue arrived promises tasks world].
    split; [apply chain_snoc; assumption|].
    split; [apply queued_snoc; assumption|]. split; [|split].
    + apply Forall_app. split.
      * eapply Forall_impl; [exact Hpend|]. simpl. intros r Hr.
        rewrite lookup_app_l; [exact Hr|]. apply lookup_lt_is_Some. rewrite Hr. eauto.
      * constructor; [|constructor]. cbn [derived].
        rewrite lookup_app_r by lia. rewrite Nat.sub_diag. reflexivity.
    + unfold inflight in *. cbn [tasks promises world].
      rewrite lookup_app_l by (apply lookup_lt_is_Some, Hhead). exact Hfl.
    + exact Hsorted.
  - exists head, lo. cbn [reactions queue arrived promises tasks world].
    split; [exact Hchain|]. split; [apply queued_more, Hq|].
    split; [exact Hpend|]. split; [exact Hfl|exact Hsorted].
Qed.

(** The chain is kept by every step: callbacks start one at a time, in the
    order of arrival, each one after the one before it has ended. *)
Lemma Inv_step (s s' : Sys) : Inv s -> step s s' -> Inv s'.
Proof.
  intros HInv Hstep. destruct Hstep as [s msg|s rs1 r rs2 Hrs Hful|s rs1 r rs2 e Hrs Hrej
                                        |s ts1 t ts2 x k Hts Hres|s d].
  - apply Inv_message, HInv.
  - destruct HInv as (head & lo & Hchain & Hq & Hpend & Hfl & Hsorted).
    rewrite Hrs in Hchain, Hq, Hpend.
    destruct (chain_inner _ _ _ _ _ Hchain) as [[-> Hhead]|[r' [Hin Hr']]].
    + simpl in Hchain, Hq. destruct Hchain as (_ & Hlt & Hchain).
      destruct Hq as (c & m & Hlo & Hhi & Hcb & Hq).
      apply Forall_cons in Hpend as [Hd Hpend].
      destruct Hfl as [(Hts & _ & Hans)|(t & c' & _ & _ & Hp & _)];
        [|rewrite Hhead in Hful; congruence].
      rewrite Hts, Hcb. simpl app.
      apply (Inv_after s rs2 (derived r) c (S c)); auto.
      * apply job_answers.
      * eapply Forall_impl; [exact Hans|]. simpl. intros. lia.
    + rewrite Forall_forall in Hpend.
      assert (Hp : promises s !! derived r' = Some Pending)
        by (apply Hpend, elem_of_app; left; exact Hin).
      rewrite Hr' in Hp. congruence.
  - destruct HInv as (head & lo & Hchain & Hq & Hpend & Hfl & Hsorted).
    rewrite Hrs in Hchain, Hpend.
    destruct (chain_inner _ _ _ _ _ Hchain) as [[-> Hhead]|[r' [Hin Hr']]].
    + rewrite Hhead in Hrej.
      destruct Hfl as [(_ & Hp & _)|(t & c' & _ & _ & Hp & _)]; congruence.
    + rewrite Forall_forall in Hpend.
      assert (Hp : promises s !! derived r' = Some Pending)
        by (apply Hpend, elem_of_app; left; exact Hin).
      rewrite Hr' in Hp. congruence.
  - destruct HInv as (head & lo & Hchain & Hq & Hpend & Hfl & Hsorted).
    destruct Hfl as [(Hnone & _)|(t0 & c & Hone & Hset & Hp & Hans & Hc & Hbelow)].
    + rewrite Hnone in Hts. destruct ts1; discriminate Hts.
    + rewrite Hone in Hts.
      assert (ts1 = [] /\ t = t0 /\ ts2 = []) as (-> & -> & ->).
      { destruct ts1 as [|t1 ts1]; simpl in Hts.
        - injection Hts as <- <-. auto.
        - injection Hts as _ Hts. destruct ts1; discriminate Hts. }
      simpl app. rewrite Hset.
      apply (Inv_after s (reactions s) head c lo); auto.
      apply (resume_answers c _ _ x (world s) Hans Hres).
  - destruct HInv as (head & lo & Hchain & Hq & Hpend & Hfl & Hsorted).
    exists head, lo. cbn [reactions queue arrived promises tasks world].
    split; [exact Hchain|]. split; [exact Hq|]. split; [exact Hpend|].
    split; [exact Hfl|exact Hsorted].
Qed.

Lemma Inv_reachable (w0 : World) (s : Sys) :
  answered (trace w0) = [] -> reachable w0 s -> Inv s.
Proof.
  intros H0 Hreach. induction Hreach as [|s s' _ IH Hstep].
  - apply Inv_initial, H0.
  - apply (Inv_step s s' IH Hstep).
Qed.

(** What a callback sends: the result of the resolution, or the error it
    threw, as a failure payload. *)
Lemma job_run (env : Env) (c : nat) (msg : Message) (w : World) :
  incomplete msg = false ->
  run env (job c msg) w
  = match run env (lookupCamelot (orEmpty (m_cacheKey msg))
                     (normalizeWhitespace (m_title msg))
                     (normalizeWhitespace (m_artist msg))) w with
    | (Returned data, w') => (Returned tt, logEvent (EvSend c (PayloadOk (Some data))) w')
    | (Thrown e, w') => (Returned tt, logEvent (EvSend c (PayloadFail e)) w')
    end.
Proof.
  intros Hinc. unfold job. rewrite Hinc, run_tryCatch, run_bind.
  destruct (run env (lookupCamelot _ _ _) w) as [[data|e] w']; reflexivity.
Qed.

Lemma atAwait_resume (p : Prog unit) (x : NetResult) (w : World) :
  atAwait p = true -> exists k, resume p x w = Some k.
Proof.
  destruct p; cbn [atAwait resume]; try discriminate; eauto.
Qed.


(** ** Every caller is answered *)

Lemma answered_sent (tr : list Event) : answered tr = (sent tr).*1.
Proof.
  induction tr as [|e tr IH]; [reflexivity|].
  destruct e; cbn in *; [exact IH| |exact IH].
  f_equal. exact IH.
Qed.

Lemma sent_snoc (tr : list Event) (e : Event) : sent (tr ++ [e]) = sent tr ++ sent [e].
Proof. unfold sent. apply omap_app. Qed.

Lemma Sends_Answers (c : nat) (P : Payload -> Prop) (p : Prog unit) :
  Sends c P p -> Answers c p.
Proof. intros H. induction H; constructor; auto. Qed.

Lemma sends_tryCatch_bind {A : Type} (c : nat) (P : Payload -> Prop) (q : Prog A)
    (f : A -> Prog unit) (h : Error -> Prog unit) :
  Always silent q ->
  (forall a, ends q (Returned a) -> Sends c P (tryCatch (f a) h)) ->
  (forall e, ends q (Thrown e) -> Sends c P (h e)) ->
  Sends c P (tryCatch (bind q f) h).
Proof.
  intros Hq. induction Hq as [a|e|k _ _ IH|k _ _ IH|t k _ _ IH|ms k _ _ IH|r k _ _ IH
                              |k _ _ IH|k_ k _ _ IH|k_ v k _ _ IH|k _ _ IH|c' p k Hs _ _];
    intros Hf Hh; cbn [bind tryCatch].
  - apply Hf. constructor.
  - apply Hh. constructor.
  - constructor. intros t. apply IH; intros; [apply Hf|apply Hh]; econstructor; eassumption.
  - constructor. intros t. apply IH; intros; [apply Hf|apply Hh]; econstructor; eassumption.
  - constructor. apply IH; intros; [apply Hf|apply Hh]; constructor; assumption.
  - constructor. apply IH; intros; [apply Hf|apply Hh]; constructor; assumption.
  - constructor. intros x. apply IH; intros; [apply Hf|apply Hh]; econstructor; eassumption.
  - constructor. apply IH; intros; [apply Hf|apply Hh]; constructor; assumption.
  - constructor. intros x. apply IH; intros; [apply Hf|apply Hh]; econstructor; eassumption.
  - constructor. apply IH; intros; [apply Hf|apply Hh]; constructor; assumption.
  - constructor. apply IH; intros; [apply Hf|apply Hh]; constructor; assumption.
  - contradiction.
Qed.

(** The callback of a message answers its sender with what the sender may be
    answered, whatever the resolution does. *)
Lemma job_sends (c : nat) (msg : Message) : Sends c (expected msg) (job c msg).
Proof.
  unfold job, expected. destruct (incomplete msg) eqn:Hinc.
  - cbn [tryCatch]. constructor. reflexivity.
  - apply sends_tryCatch_bind.
    + apply lookupCamelot_silent.
    + intros data Hdata. cbn [tryCatch]. constructor. left. exists data. auto.
    + intros e He. constructor. right. exists e. auto.
Qed.

(** What the big-step run of a program ends with is one of its outcomes. *)
Lemma run_ends {A : Type} (env : Env) (p : Prog A) (w : World) :
  ends p (fst (run env p w)).
Proof.
  revert w. induction p as [a|e|k IH|k IH|t k IH|ms k IH|r k IH|k IH|k_ k IH|k_ v k IH
                            |k IH|c pl k IH]; intros w; cbn [run fst];
    try (econstructor; apply IH); constructor.
Qed.

Lemma advance_sends (c : nat) (P : Payload -> Prop) (p : Prog unit) (w : World) :
  Sends c P p ->
  (fst (advance p w) = Ret tt
   /\ exists pl, P pl /\ sent (trace (snd (advance p w))) = sent (trace w) ++ [(c, pl)])
  \/ (Sends c P (fst (advance p w))
      /\ atAwait (fst (advance p w)) = true
      /\ sent (trace (snd (advance p w))) = sent (trace w)).
Proof.
  intros H. revert w.
  induction H as [pl Hpl|k _ IH|k _ IH|t k _ IH|ms k Hk _|r k Hk _|k Hk _|k_ k Hk _
                  |k_ v k Hk _|k _ IH]; intros w; cbn [advance fst snd].
  - left. split; [reflexivity|]. exists pl. split; [exact Hpl|].
    cbn [logEvent trace]. apply sent_snoc.
  - apply IH.
  - apply IH.
  - apply (IH (setLast t w)).
  - right. split; [constructor; exact Hk|]. split; reflexivity.
  - right. split; [constructor; exact Hk|]. split; [reflexivity|].
    cbn [logEvent trace]. rewrite sent_snoc. apply app_nil_r.
  - right. split; [constructor; exact Hk|]. split; reflexivity.
  - right. split; [constructor; exact Hk|]. split; reflexivity.
  - right. split; [constructor; exact Hk|]. split; reflexivity.
  - destruct (IH (logEvent EvWarn w)) as [[H1 (pl & Hpl & H2)]|(H1 & Haw & H2)].
    + left. split; [exact H1|]. exists pl. split; [exact Hpl|].
      rewrite H2. cbn [logEvent trace]. rewrite sent_snoc. cbn [sent omap].
      rewrite app_nil_r. reflexivity.
    + right. split; [exact H1|]. split; [exact Haw|].
      rewrite H2. cbn [logEvent trace]. rewrite sent_snoc. cbn [sent omap].
      rewrite app_nil_r. reflexivity.
Qed.

Lemma resume_sends (c : nat) (P : Payload -> Prop) (p k : Prog unit) (x : NetResult)
    (w : World) :
  Sends c P p -> resume p x w = Some k -> Sends c P k.
Proof.
  intros H Hres. destruct H; cbn [resume] in Hres; try discriminate;
    injection Hres as <-; auto.
Qed.

Lemma lookupCallers_snoc (msgs : list Message) (msg : Message) (c : nat) :
  lookupCallers c (msgs ++ [msg])
  = lookupCallers c msgs ++ (if isLookup msg then [(c + length msgs)%nat] else []).
Proof.
  revert c. induction msgs as [|m msgs IH]; intros c; cbn [lookupCallers app length].
  - rewrite Nat.add_0_r, app_nil_r. reflexivity.
  - rewrite IH, <- app_assoc.
    replace (c + S (length msgs))%nat with (S c + length msgs)%nat by lia. reflexivity.
Qed.

Lemma land_arrived (d : nat) (pw : Prog unit * World) (s : Sys) (rs : list Reaction)
    (ts : list Task) :
  arrived (land d pw s rs ts) = arrived s.
Proof. unfold land. destruct (fst pw); reflexivity. Qed.

Lemma listener_arrived (msg : Message) (s : Sys) :
  arrived (listener msg s) = S (arrived s).
Proof. unfold listener. destruct (isLookup msg); reflexivity. Qed.

(** A callback starts only at the head of the chain, and only when nothing
    is in flight; none is ever skipped; at most one is in flight. *)
Lemma Inv_react (s : Sys) (rs1 rs2 : list Reaction) (r : Reaction) :
  Inv s ->
  reactions s = rs1 ++ r :: rs2 ->
  promises s !! awaited r = Some Fulfilled ->
  rs1 = [] /\ tasks s = [].
Proof.
  intros (head & lo & Hchain & _ & Hpend & Hfl & _) Hrs Hful.
  rewrite Hrs in Hchain, Hpend.
  destruct (chain_inner _ _ _ _ _ Hchain) as [[-> Hhead]|[r' [Hin Hr']]].
  - split; [reflexivity|].
    destruct Hfl as [(Hts & _)|(t & c' & _ & _ & Hp & _)]; [exact Hts|].
    rewrite Hhead in Hful. congruence.
  - rewrite Forall_forall in Hpend.
    assert (Hp : promises s !! derived r' = Some Pending)
      by (apply Hpend, elem_of_app; left; exact Hin).
    rewrite Hr' in Hp. congruence.
Qed.

Lemma Inv_no_skip (s : Sys) (rs1 rs2 : list Reaction) (r : Reaction) (e : Error) :
  Inv s ->
  reactions s = rs1 ++ r :: rs2 ->
  promises s !! awaited r = Some (Rejected e) ->
  False.
Proof.
  intros (head & lo & Hchain & _ & Hpend & Hfl & _) Hrs Hrej.
  rewrite Hrs in Hchain, Hpend.
  destruct (chain_inner _ _ _ _ _ Hchain) as [[-> Hhead]|[r' [Hin Hr']]].
  - rewrite Hhead in Hrej.
    destruct Hfl as [(_ & Hp & _)|(t & c' & _ & _ & Hp & _)]; congruence.
  - rewrite Forall_forall in Hpend.
    assert (Hp : promises s !! derived r' = Some Pending)
      by (apply Hpend, elem_of_app; left; exact Hin).
    rewrite Hr' in Hp. congruence.
Qed.

Lemma Inv_resume (s : Sys) (ts1 ts2 : list Task) (t : Task) :
  Inv s -> tasks s = ts1 ++ t :: ts2 -> ts1 = [] /\ ts2 = [].
Proof.
  intros (head & lo & _ & _ & _ & Hfl & _) Hts.
  destruct Hfl as [(Hnone & _)|(t0 & c & Hone & _)].
  - rewrite Hnone in Hts. destruct ts1; discriminate Hts.
  - rewrite Hone in Hts. destruct ts1 as [|t1 ts1]; simpl in Hts.
    + injection Hts as _ <-. auto.
    + injection Hts as _ Hts. destruct ts1; discriminate Hts.
Qed.

Lemma Inv_head (s : Sys) (r : Reaction) (rs : list Reaction) :
  Inv s -> tasks s = [] -> reactions s = r :: rs ->
  promises s !! awaited r = Some Fulfilled.
Proof.
  intros (head & lo & Hchain & _ & _ & Hfl & _) Hnone Hr.
  rewrite Hr in Hchain. destruct Hchain as [-> _].
  destruct Hfl as [(_ & Hhead & _)|(t & c & Htask & _)]; [exact Hhead|].
  rewrite Hnone in Htask. discriminate Htask.
Qed.

Lemma turn_step (s s' : Sys) : turn s s' -> step s s'.
Proof.
  intros [s0 rs1 r rs2 Hrs Hful|s0 ts1 t ts2 x k Hts Hres].
  - apply (step_react s0 rs1 r rs2 Hrs Hful).
  - apply (step_resume s0 ts1 t ts2 x k Hts Hres).
Qed.

Lemma turn_work (s s' : Sys) : turn s s' -> work s s'.
Proof.
  intros H. split; [apply turn_step, H|].
  destruct H; apply land_arrived.
Qed.

Lemma received_reachable (w0 : World) (msgs : list Message) (s : Sys) :
  received w0 msgs s -> reachable w0 s.
Proof.
  intros H. induction H as [|msgs s msg _ IH|msgs s s' _ IH [Hstep _]].
  - constructor.
  - apply (reach_step _ _ _ IH (step_message s msg)).
  - apply (reach_step _ _ _ IH Hstep).
Qed.

Lemma reachable_received (w0 : World) (s : Sys) :
  reachable w0 s -> exists msgs, received w0 msgs s.
Proof.
  intros H. induction H as [|s s' _ [msgs IH] Hstep].
  - exists []. constructor.
  - destruct Hstep as [s msg|s rs1 r rs2 Hrs Hful|s rs1 r rs2 e Hrs Hrej
                       |s ts1 t ts2 x k Hts Hres|s d].
    + exists (msgs ++ [msg]). constructor. exact IH.
    + exists msgs. apply (received_work _ _ _ _ IH). split.
      * apply (step_react s rs1 r rs2 Hrs Hful).
      * apply land_arrived.
    + exists msgs. apply (received_work _ _ _ _ IH). split.
      * apply (step_skip s rs1 r rs2 e Hrs Hrej).
      * reflexivity.
    + exists msgs. apply (received_work _ _ _ _ IH). split.
      * apply (step_resume s ts1 t ts2 x k Hts Hres).
      * apply land_arrived.
    + exists msgs. apply (received_work _ _ _ _ IH). split.
      * apply step_tick.
      * reflexivity.
Qed.

(** The books after a callback that is to answer [c] has run up to its next
    await, while nothing else is in flight. *)
Lemma ledger_land (msgs : list Message) (s : Sys) (d c : nat) (msg : Message)
    (k : Prog unit) (rs : list Reaction) (waiting : list nat) :
  arrived s = length msgs ->
  Forall (fun cp => exists msg, msgs !! fst cp = Some msg /\ expected msg (snd cp))
    (sent (trace (world s))) ->
  lookupCallers 0 msgs = answered (trace (world s)) ++ [c] ++ waiting ->
  msgs !! c = Some msg ->
  Sends c (expected msg) k ->
  Forall2 (fun r c => exists msg, msgs !! c = Some msg /\ callback r = job c msg)
    rs waiting ->
  ledger msgs (land d (advance k (world s)) s rs []).
Proof.
  intros Harr Hsent Hcallers Hmsg Hk Hrs.
  destruct (advance_sends c _ k (world s) Hk) as [[Hret (pl & Hpl & Htr)]|(Hstill & Haw & Htr)].
  - rewrite land_done by exact Hret. unfold ledger.
    cbn [reactions arrived tasks world].
    split; [exact Harr|]. split.
    + rewrite Htr. apply Forall_app. split; [exact Hsent|].
      constructor; [|constructor]. exists msg. auto.
    + exists [], waiting. split; [|split; [constructor|exact Hrs]].
      rewrite answered_sent, Htr, fmap_app, <- answered_sent. cbn [fmap list_fmap fst].
      rewrite Hcallers. cbn [app]. rewrite <- app_assoc. reflexivity.
  - rewrite (land_waiting c) by (eapply Sends_Answers; exact Hstill). unfold ledger.
    cbn [reactions arrived tasks world app].
    split; [exact Harr|]. split.
    + rewrite Htr. exact Hsent.
    + exists [c], waiting. split; [|split; [|exact Hrs]].
      * rewrite answered_sent, Htr, <- answered_sent. exact Hcallers.
      * constructor; [|constructor]. exists msg. cbn [remaining]. auto.
Qed.

Lemma ledger_initial (w0 : World) : answered (trace w0) = [] -> ledger [] (initial w0).
Proof.
  intros H0. unfold ledger, initial. cbn [reactions arrived tasks world length].
  assert (Hsent : sent (trace w0) = []).
  { rewrite answered_sent in H0. destruct (sent (trace w0)); [reflexivity|discriminate]. }
  split; [reflexivity|]. split; [rewrite Hsent; constructor|].
  exists [], []. rewrite H0. repeat split; constructor.
Qed.

Lemma ledger_message (msgs : list Message) (msg : Message) (s : Sys) :
  ledger msgs s -> ledger (msgs ++ [msg]) (listener msg s).
Proof.
  intros (Harr & Hsent & fl & wt & Hcallers & Hts & Hrs).
  assert (Hmore : forall c m, msgs !! c = Some m -> (msgs ++ [msg]) !! c = Some m).
  { intros c m Hc. apply lookup_app_l_Some, Hc. }
  assert (Hsent' : Forall (fun cp => exists m, (msgs ++ [msg]) !! fst cp = Some m
                                       /\ expected m (snd cp)) (sent (trace (world s)))).
  { eapply Forall_impl; [exact Hsent|]. intros cp (m & Hm & He). exists m. auto. }
  assert (Hts' : Forall2 (fun t c => exists m, (msgs ++ [msg]) !! c = Some m
                                      /\ atAwait (remaining t) = true
                                      /\ Sends c (expected m) (remaining t))
                   (tasks s) fl).
  { eapply Forall2_impl; [exact Hts|]. intros t c (m & Hm & He). exists m. auto. }
  assert (Hrs' : Forall2 (fun r c => exists m, (msgs ++ [msg]) !! c = Some m
                                      /\ callback r = job c m)
                   (reactions s) wt).
  { eapply Forall2_impl; [exact Hrs|]. intros r c (m & Hm & He). exists m. auto. }
  unfold ledger, listener. rewrite lookupCallers_snoc, Hcallers. cbn [Nat.add].
  destruct (isLookup msg); cbn [reactions arrived tasks world].
  - split; [rewrite length_app, Harr; simpl; lia|]. split; [exact Hsent'|].
    exists fl, (wt ++ [length msgs]). split; [rewrite <- !app_assoc; reflexivity|].
    split; [exact Hts'|]. apply Forall2_app; [exact Hrs'|].
    constructor; [|constructor]. exists msg. cbn [callback]. rewrite Harr.
    split; [|reflexivity]. rewrite lookup_app_r by lia. rewrite Nat.sub_diag. reflexivity.
  - split; [rewrite length_app, Harr; simpl; lia|]. split; [exact Hsent'|].
    exists fl, wt. rewrite app_nil_r. auto.
Qed.

Lemma ledger_work (msgs : list Message) (s s' : Sys) :
  Inv s -> ledger msgs s -> work s s' -> ledger msgs s'.
Proof.
  intros HInv (Harr & Hsent & fl & wt & Hcallers & Hts & Hrs) [Hstep Hsame].
  destruct Hstep as [s msg|s rs1 r rs2 Hr Hful|s rs1 r rs2 e Hr Hrej
                    |s ts1 t ts2 x k Ht Hres|s d].
  - rewrite listener_arrived in Hsame. lia.
  - destruct (Inv_react s rs1 rs2 r HInv Hr Hful) as [-> Hnone].
    rewrite Hnone in *. cbn [app] in *. rewrite Hr in Hrs.
    apply Forall2_nil_inv_l in Hts as ->.
    apply Forall2_cons_inv_l in Hrs as (c & wt' & (msg & Hmsg & Hcb) & Hrs & ->).
    rewrite Hcb. apply (ledger_land msgs s (derived r) c msg _ rs2 wt'); auto.
    apply job_sends.
  - destruct (Inv_no_skip s rs1 rs2 r e HInv Hr Hrej).
  - destruct (Inv_resume s ts1 ts2 t HInv Ht) as [-> ->]. cbn [app] in *.
    rewrite Ht in Hts.
    apply Forall2_cons_inv_l in Hts as (c & fl' & (msg & Hmsg & _ & Hsends) & Hnil & ->).
    apply Forall2_nil_inv_l in Hnil as ->.
    apply (ledger_land msgs s (settles t) c msg _ (reactions s) wt); auto.
    apply (resume_sends c _ _ k x (world s) Hsends Hres).
  - unfold ledger. cbn [reactions arrived tasks world tick trace].
    split; [exact Harr|]. split; [exact Hsent|]. exists fl, wt. auto.
Qed.

Lemma received_books (w0 : World) (msgs : list Message) (s : Sys) :
  answered (trace w0) = [] -> received w0 msgs s -> Inv s /\ ledger msgs s.
Proof.
  intros H0 H. induction H as [|msgs s msg _ [IH1 IH2]|msgs s s' _ [IH1 IH2] Hwork].
  - split; [apply Inv_initial, H0|apply ledger_initial, H0].
  - split; [apply Inv_message, IH1|apply ledger_message, IH2].
  - split; [apply (Inv_step s s' IH1), Hwork|apply (ledger_work msgs s s' IH1 IH2 Hwork)].
Qed.

(** When nothing is in flight and nothing waits, every lookup message has
    been answered. *)
Lemma ledger_quiet (msgs : list Message) (s : Sys) :
  ledger msgs s -> tasks s = [] -> reactions s = [] ->
  answered (trace (world s)) = lookupCallers 0 msgs.
Proof.
  intros (_ & _ & fl & wt & Hcallers & Hts & Hrs) Hnone Hidle.
  rewrite Hnone in Hts. rewrite Hidle in Hrs.
  apply Forall2_nil_inv_l in Hts as ->. apply Forall2_nil_inv_l in Hrs as ->.
  rewrite Hcallers, !app_nil_r. reflexivity.
Qed.

(** With work left the chain can take a turn. *)
Lemma books_progress (msgs : list Message) (s : Sys) :
  Inv s -> ledger msgs s ->
  tasks s <> [] \/ reactions s <> [] ->
  exists s', turn s s'.
Proof.
  intros HInv (_ & _ & fl & wt & _ & Hts & Hrs) Hleft.
  destruct (tasks s) as [|t ts] eqn:Htasks.
  - destruct (reactions s) as [|r rs] eqn:Hreact; [destruct Hleft; congruence|].
    eexists. apply (turn_start s [] r rs Hreact).
    apply (Inv_head s r rs HInv Htasks Hreact).
  - apply Forall2_cons_inv_l in Hts as (c & fl' & (msg & _ & Haw & _) & _ & _).
    destruct (atAwait_resume (remaining t) offline (world s) Haw) as [k Hk].
    eexists. apply (turn_resume s [] t ts offline k Htasks Hk).
Qed.

(** Every sequence of turns is finite: a callback in flight ends after
    finitely many awaits, whatever they settle with, and each callback of
    the chain starts once. *)
Lemma acc_landing (c : nat) (k : Prog unit) :
  Answers c k ->
  forall (s0 : Sys) (w : World) (d : nat) (rs : list Reaction),
    Inv (land d (advance k w) s0 rs []) ->
    (forall s', Inv s' -> tasks s' = [] -> length (reactions s') = length rs ->
                Acc (fun s2 s1 => turn s1 s2) s') ->
    Acc (fun s2 s1 => turn s1 s2) (land d (advance k w) s0 rs []).
Proof.
  intros Hk.
  assert (Hawait : forall (p k' : Prog unit) (s0 : Sys) (w : World) (d : nat)
                     (rs : list Reaction),
             advance p w = (p, snd (advance p w)) ->
             land d (advance p w) s0 rs []
             = mkSys (promises s0) (queue s0) rs [mkTask d p] (arrived s0)
                     (snd (advance p w)) ->
             (forall x k', resume p x (snd (advance p w)) = Some k' ->
                forall s1 w1 d1 rs1,
                  Inv (land d1 (advance k' w1) s1 rs1 []) ->
                  (forall s', Inv s' -> tasks s' = [] ->
                              length (reactions s') = length rs1 ->
                              Acc (fun s2 s1 => turn s1 s2) s') ->
                  Acc (fun s2 s1 => turn s1 s2) (land d1 (advance k' w1) s1 rs1 [])) ->
             Inv (land d (advance p w) s0 rs []) ->
             (forall s', Inv s' -> tasks s' = [] -> length (reactions s') = length rs ->
                         Acc (fun s2 s1 => turn s1 s2) s') ->
             Acc (fun s2 s1 => turn s1 s2) (land d (advance p w) s0 rs [])).
  { intros p _ s0 w d rs _ Hland Hnext HInv Hidle.
    rewrite Hland in *. constructor. intros s2 Hturn.
    inversion Hturn as [s1 rs1 r rs2 Hrs Hful Hs1 Hs2|s1 ts1 t ts2 x k' Hts Hres Hs1 Hs2];
      subst s1.
    - destruct (Inv_react _ rs1 rs2 r HInv Hrs Hful) as [_ Hnone]. discriminate Hnone.
    - destruct (Inv_resume _ ts1 ts2 t HInv Hts) as [-> ->].
      cbn [tasks app] in Hts. injection Hts as <-.
      cbn [app settles remaining world reactions] in *.
      apply (Hnext x k' Hres).
      + rewrite Hs2. apply (Inv_step _ _ HInv), turn_step, Hturn.
      + exact Hidle. }
  induction Hk as [pl|k _ IH|k _ IH|t k _ IH|ms k Hk IH|r k Hk IH|k Hk IH|k_ k Hk IH
                   |k_ v k Hk IH|k _ IH]; intros s0 w d rs HInv Hidle.
  - apply Hidle; [exact HInv|reflexivity|reflexivity].
  - apply (IH (clock w) s0 w d rs HInv Hidle).
  - apply (IH (lastMbRequestAt w) s0 w d rs HInv Hidle).
  - apply (IH s0 (setLast t w) d rs HInv Hidle).
  - apply (Hawait _ k); try reflexivity; try assumption.
    intros x k' Hres. injection Hres as <-. exact IH.
  - apply (Hawait _ (k offline)); try reflexivity; try assumption.
    intros x k' Hres. injection Hres as <-. apply IH.
  - apply (Hawait _ k); try reflexivity; try assumption.
    intros x k' Hres. injection Hres as <-. exact IH.
  - apply (Hawait _ (k None)); try reflexivity; try assumption.
    intros x k' Hres. injection Hres as <-. apply IH.
  - apply (Hawait _ k); try reflexivity; try assumption.
    intros x k' Hres. injection Hres as <-. exact IH.
  - apply (IH s0 (logEvent EvWarn w) d rs HInv Hidle).
Qed.

Lemma acc_idle (n : nat) (s : Sys) :
  Inv s -> tasks s = [] -> length (reactions s) = n ->
  Acc (fun s2 s1 => turn s1 s2) s.
Proof.
  revert s. induction n as [|n IH]; intros s HInv Hnone Hlen; constructor; intros s2 Hturn;
    pose proof (Inv_step _ _ HInv (turn_step _ _ Hturn)) as HInv2;
    destruct Hturn as [s rs1 r rs2 Hrs Hful|s ts1 t ts2 x k Hts Hres].
  - rewrite Hrs, length_app in Hlen. simpl in Hlen. lia.
  - rewrite Hnone in Hts. destruct ts1; discriminate Hts.
  - destruct (Inv_react s rs1 rs2 r HInv Hrs Hful) as [-> _].
    rewrite Hnone in *. cbn [app] in *.
    destruct HInv as (head & lo & _ & Hq & _).
    rewrite Hrs in Hq. destruct Hq as (c & msg & _ & _ & Hcb & _).
    apply (acc_landing c); [rewrite Hcb; apply job_answers|exact HInv2|].
    intros s' HInv' Hnone' Hlen'. apply IH; auto.
    rewrite Hlen'. rewrite Hrs in Hlen. simpl in Hlen. lia.
  - rewrite Hnone in Hts. destruct ts1; discriminate Hts.
Qed.

Lemma acc_turns (s : Sys) : Inv s -> Acc (fun s2 s1 => turn s1 s2) s.
Proof.
  intros HInv. destruct (tasks s) as [|t ts] eqn:Htasks.
  - apply (acc_idle (length (reactions s))); auto.
  - constructor. intros s2 Hturn.
    pose proof (Inv_step _ _ HInv (turn_step _ _ Hturn)) as HInv2.
    destruct Hturn as [s rs1 r rs2 Hrs Hful|s ts1 t' ts2 x k Hts Hres].
    + destruct (Inv_react s rs1 rs2 r HInv Hrs Hful) as [_ Hnone]. congruence.
    + destruct (Inv_resume s ts1 ts2 t' HInv Hts) as [-> ->]. cbn [app] in *.
      destruct HInv as (head & lo & _ & _ & _ & Hfl & _).
      destruct Hfl as [(Hnone & _)|(t0 & c & Hone & _ & _ & Hans & _)]; [congruence|].
      rewrite Hone in Hts. injection Hts as <-.
      apply (acc_landing c); [apply (resume_answers c _ k x (world s) Hans Hres)|exact HInv2|].
      intros s' HInv' Hnone' Hlen'. apply (acc_idle (length (reactions s))); auto.
Qed.

(** If no further message arrives, the chain runs until every lookup message
    received has been answered. *)
Lemma settles_down (w0 : World) (msgs : list Message) (s : Sys) :
  answered (trace w0) = [] ->
  received w0 msgs s ->
  exists s', rtc turn s s' /\ received w0 msgs s' /\ tasks s' = [] /\ reactions s' = [].
Proof.
  intros H0 Hrec.
  pose proof (acc_turns s (proj1 (received_books w0 msgs s H0 Hrec))) as Hacc.
  induction Hacc as [s _ IH].
  destruct (received_books w0 msgs s H0 Hrec) as [HInv Hledger].
  destruct (tasks s) as [|t ts] eqn:Htasks; [destruct (reactions s) as [|r rs] eqn:Hreact|].
  - exists s. split; [reflexivity|]. auto.
  - destruct (books_progress msgs s HInv Hledger) as [s1 Hturn];
      [right; rewrite Hreact; discriminate|].
    destruct (IH s1 Hturn (received_work _ _ _ _ Hrec (turn_work _ _ Hturn)))
      as (s' & Hrtc & Hrest).
    exists s'. split; [apply (rtc_l _ _ s1); assumption|exact Hrest].
  - destruct (books_progress msgs s HInv Hledger) as [s1 Hturn];
      [left; rewrite Htasks; discriminate|].
    destruct (IH s1 Hturn (received_work _ _ _ _ Hrec (turn_work _ _ Hturn)))
      as (s' & Hrtc & Hrest).
    exists s'. split; [apply (rtc_l _ _ s1); assumption|exact Hrest].
Qed.

Lemma started_turn (s : Sys) : canStart s = true -> turn s (started s).
Proof.
  unfold canStart, started. destruct (reactions s) as [|r rs] eqn:Hrs; [discriminate|].
  destruct (promises s !! awaited r) as [[| |e]|] eqn:Hp; try discriminate.
  intros _. apply (turn_start s [] r rs Hrs Hp).
Qed.

Lemma resumed_turn (x : NetResult) (s : Sys) : canResume x s = true -> turn s (resumed x s).
Proof.
  unfold canResume, resumed. destruct (tasks s) as [|t [|t' ts]] eqn:Hts; try discriminate.
  destruct (resume (remaining t) x (world s)) as [k|] eqn:Hk; [|discriminate].
  intros _. apply (turn_resume s [] t [] x k Hts Hk).
Qed.

Lemma quietState_received :
  received exampleWorld [exampleMessage; untitledMessage] quietState.
Proof.
  unfold quietState.
  pose proof (received_message exampleWorld _ _ untitledMessage
                (received_message exampleWorld _ _ exampleMessage
                   (received_none exampleWorld))) as H0.
  cbn [app] in H0.
  assert (Hgo : forall s, received exampleWorld [exampleMessage; untitledMessage] s ->
                  canStart s = true ->
                  received exampleWorld [exampleMessage; untitledMessage] (started s)).
  { intros s Hs Hc. apply (received_work _ _ _ _ Hs), turn_work, started_turn, Hc. }
  assert (Hon : forall s, received exampleWorld [exampleMessage; untitledMessage] s ->
                  canResume offline s = true ->
                  received exampleWorld [exampleMessage; untitledMessage]
                    (resumed offline s)).
  { intros s Hs Hc. apply (received_work _ _ _ _ Hs), turn_work, resumed_turn, Hc. }
  apply Hgo; [|vm_compute; reflexivity].
  apply Hon; [|vm_compute; reflexivity].
  apply Hon; [|vm_compute; reflexivity].
  apply Hon; [|vm_compute; reflexivity].
  apply Hgo; [|vm_compute; reflexivity].
  exact H0.
Qed.
(** C6: all lookups go through one chain, and every one of them is answered.
    In every state the worker can reach, whatever the order in which messages
    arrive, awaits settle and time passes: at most one resolution is in
    flight, hence at most one request; the callers are answered in the order
    in which their messages arrived; the caller of the resolution in flight
    and the callers still waiting in the chain have not been answered, and
    each of them will be, with the result or with the failure payload of a
    caught error, as the last act of its own turn.  The state is reached by
    receiving some messages [msgs], and for any such history: every answer
    sent so far went to the sender of a lookup message and is what that
    sender may be answered ([{ ok: true, data }] with a record its lookup
    returned, [{ ok: false, error }] with an error its lookup threw,
    [{ ok: true, data: null }] when the message lacks something); the lookup
    messages received are exactly those answered, the one in flight and those
    waiting, in the order of arrival; with work left the chain can take a
    turn, every turn is a step of the worker, and no sequence of turns is
    infinite; so, if no further message arrives, the chain runs to a state
    with nothing in flight and nothing waiting, in which the sender of every
    lookup message received has been answered exactly once, in the order of
    arrival. *)
Theorem serial_queue (w0 : World) (s : Sys) :
  answered (trace w0) = [] ->
  reachable w0 s ->
  (length (tasks s) <= 1)%nat
  /\ (length (List.filter awaitsFetch (tasks s)) <= 1)%nat
  /\ StronglySorted lt (answered (trace (world s)))
  /\ Forall (fun c => (c < arrived s)%nat) (answered (trace (world s)))
  /\ Forall (fun t => exists c,
                 Answers c (remaining t)
                 /\ (c < arrived s)%nat
                 /\ Forall (fun c' => (c' < c)%nat) (answered (trace (world s))))
       (tasks s)
  /\ Forall (fun r => exists c msg,
                 callback r = job c msg
                 /\ Answers c (callback r)
                 /\ (c < arrived s)%nat
                 /\ Forall (fun c' => (c' < c)%nat) (answered (trace (world s)))
                 /\ Forall (fun t => exists c', Answers c' (remaining t) /\ (c' < c)%nat)
                      (tasks s)
                 /\ (incomplete msg = false ->
                     forall env w,
                       exists w' p,
                         run env (callback r) w = (Returned tt, logEvent (EvSend c p) w')
                         /\ match run env (lookupCamelot (orEmpty (m_cacheKey msg))
                                             (normalizeWhitespace (m_title msg))
                                             (normalizeWhitespace (m_artist msg))) w with
                            | (Returned data, w1) => p = PayloadOk (Some data) /\ w' = w1
                            | (Thrown e, w1) => p = PayloadFail e /\ w' = w1
                            end))
       (reactions s)
  /\ (exists msgs, received w0 msgs s)
  /\ (forall msgs, received w0 msgs s ->
        ledger msgs s
        /\ (tasks s = [] -> reactions s = [] ->
            answered (trace (world s)) = lookupCallers 0 msgs)
        /\ exists s',
             rtc turn s s'
             /\ received w0 msgs s'
             /\ tasks s' = [] /\ reactions s' = []
             /\ answered (trace (world s')) = lookupCallers 0 msgs
             /\ Forall (fun cp => exists msg,
                           msgs !! fst cp = Some msg /\ expected msg (snd cp))
                  (sent (trace (world s'))))
  /\ (tasks s <> [] \/ reactions s <> [] -> exists s', turn s s')
  /\ (forall s', turn s s' -> work s s')
  /\ Acc (fun s2 s1 => turn s1 s2) s.
Proof.
  intros H0 Hreach.
  assert (Hnew :
    (exists msgs, received w0 msgs s)
    /\ (forall msgs, received w0 msgs s ->
          ledger msgs s
          /\ (tasks s = [] -> reactions s = [] ->
              answered (trace (world s)) = lookupCallers 0 msgs)
          /\ exists s',
               rtc turn s s'
               /\ received w0 msgs s'
               /\ tasks s' = [] /\ reactions s' = []
               /\ answered (trace (world s')) = lookupCallers 0 msgs
               /\ Forall (fun cp => exists msg,
                             msgs !! fst cp = Some msg /\ expected msg (snd cp))
                    (sent (trace (world s'))))
    /\ (tasks s <> [] \/ reactions s <> [] -> exists s', turn s s')
    /\ (forall s', turn s s' -> work s s')
    /\ Acc (fun s2 s1 => turn s1 s2) s).
  { destruct (reachable_received w0 s Hreach) as [msgs0 Hrec0].
    destruct (received_books w0 msgs0 s H0 Hrec0) as [HInv0 Hledger0].
    split; [exists msgs0; exact Hrec0|].
    split; [|split; [apply (books_progress msgs0 s HInv0 Hledger0)|
                     split; [apply turn_work|apply acc_turns, HInv0]]].
    intros msgs Hrec.
    destruct (received_books w0 msgs s H0 Hrec) as [_ Hledger].
    split; [exact Hledger|]. split; [apply ledger_quiet, Hledger|].
    destruct (settles_down w0 msgs s H0 Hrec) as (s' & Hrtc & Hrec' & Hnone & Hidle).
    destruct (received_books w0 msgs s' H0 Hrec') as [_ Hledger'].
    exists s'. split; [exact Hrtc|]. split; [exact Hrec'|].
    split; [exact Hnone|]. split; [exact Hidle|].
    split; [apply (ledger_quiet msgs s' Hledger' Hnone Hidle)|].
    apply Hledger'. }
  destruct (Inv_reachable w0 s H0 Hreach) as (head & lo & Hchain & Hq & Hpend & Hfl & Hsorted).
  pose proof (queued_bounds _ _ _ Hq) as Hlo.
  pose proof (queued_callers _ _ _ Hq) as Hcallers.
  assert (Hsend : forall r c msg, callback r = job c msg -> incomplete msg = false ->
            forall env w, exists w' p,
              run env (callback r) w = (Returned tt, logEvent (EvSend c p) w')
              /\ match run env (lookupCamelot (orEmpty (m_cacheKey msg))
                                  (normalizeWhitespace (m_title msg))
                                  (normalizeWhitespace (m_artist msg))) w with
                 | (Returned data, w1) => p = PayloadOk (Some data) /\ w' = w1
                 | (Thrown e, w1) => p = PayloadFail e /\ w' = w1
                 end).
  { intros r c msg Hcb Hinc env w. rewrite Hcb, (job_run env c msg w Hinc).
    destruct (run env (lookupCamelot _ _ _) w) as [[data|e] w1]; eauto. }
  revert Hnew.
  destruct Hfl as [(Hts & _ & Hans)|(t & c & Hts & _ & _ & Ht & Hc & Hans)]; rewrite Hts;
    intros Hnew.
  - split; [simpl; lia|]. split; [simpl; lia|]. split; [exact Hsorted|].
    split; [eapply Forall_impl; [exact Hans|]; simpl; intros; lia|].
    split; [constructor|]. split; [|exact Hnew].
    eapply Forall_impl; [exact Hcallers|]. simpl.
    intros r (c & m & Hcb & H1 & H2). exists c, m.
    split; [exact Hcb|]. split; [rewrite Hcb; apply job_answers|].
    split; [exact H2|]. split; [|split; [constructor|apply (Hsend r c m Hcb)]].
    eapply Forall_impl; [exact Hans|]. simpl. intros. lia.
  - split; [simpl; lia|].
    split; [simpl; destruct (awaitsFetch t); simpl; lia|].
    split; [exact Hsorted|].
    split; [eapply Forall_impl; [exact Hans|]; simpl; intros; lia|].
    split; [|split; [|exact Hnew]].
    + constructor; [|constructor]. exists c. split; [exact Ht|]. split; [lia|exact Hans].
    + eapply Forall_impl; [exact Hcallers|]. simpl.
      intros r (c1 & m & Hcb & H1 & H2). exists c1, m.
      split; [exact Hcb|]. split; [rewrite Hcb; apply job_answers|].
      split; [exact H2|]. split; [|split; [|apply (Hsend r c1 m Hcb)]].
      * eapply Forall_impl; [exact Hans|]. simpl. intros. lia.
      * constructor; [|constructor]. exists c. split; [exact Ht|lia].
Qed.

Lemma serial_queue_witness :
  answered (trace (world quietState)) = lookupCallers 0 [exampleMessage; untitledMessage]
  /\ lookupCallers 0 [exampleMessage; untitledMessage] = [0; 1]%nat
  /\ sent (trace (world quietState))
     = [(0%nat, PayloadFail (ErrNetwork (js "offline"))); (1%nat, PayloadOk None)].
Proof.
  split; [|split; vm_compute; reflexivity].
  refine (proj1 (proj2 (proj1 (proj2 (proj2 (proj2 (proj2 (proj2 (proj2 (proj2
            (serial_queue exampleWorld quietState _ _)))))))) _ quietState_received)) _ _).
  - reflexivity.
  - apply (received_reachable _ _ _ quietState_received).
  - vm_compute. reflexivity.
  - vm_compute. reflexivity.
Defined.






(* ===================================================================== *)
(** * Further properties of the code                                      *)
(* ===================================================================== *)

(** ** White space *)

Lemma trimEnd_snoc (s : jsstring) (c : N) :
  trimEnd (s ++ [c]) = if isWhiteSpace c then trimEnd s else s ++ [c].
Proof.
  unfold trimEnd. rewrite rev_app_distr. simpl.
  destruct (isWhiteSpace c); [reflexivity|].
  simpl. rewrite rev_involutive. reflexivity.
Qed.

Lemma singleSpaced_replaceRuns (b : bool) (s : jsstring) :
  singleSpaced b (replaceRuns isWhiteSpace b s) = true.
Proof.
  revert b. induction s as [|c s IH]; intros b; simpl; [reflexivity|].
  destruct (isWhiteSpace c) eqn:Hc.
  - destruct b; [apply IH|]. simpl. apply IH.
  - simpl. rewrite Hc. apply IH.
Qed.

Lemma singleSpaced_weaken (s : jsstring) :
  singleSpaced true s = true -> singleSpaced false s = true.
Proof.
  destruct s as [|c s]; simpl; [auto|].
  destruct (isWhiteSpace c); [|auto].
  rewrite andb_false_r. discriminate.
Qed.

Lemma singleSpaced_trimStart (b : bool) (s : jsstring) :
  singleSpaced b s = true -> singleSpaced true (trimStart s) = true.
Proof.
  revert b. induction s as [|c s IH]; intros b; simpl; [auto|].
  destruct (isWhiteSpace c) eqn:Hc.
  - rewrite !andb_true_iff. intros [_ H]. apply (IH true H).
  - intros H. simpl. rewrite Hc. exact H.
Qed.

Lemma singleSpaced_app_l (b : bool) (s t : jsstring) :
  singleSpaced b (s ++ t) = true -> singleSpaced b s = true.
Proof.
  revert b. induction s as [|c s IH]; intros b; simpl; [auto|].
  destruct (isWhiteSpace c).
  - rewrite !andb_true_iff. intros [H1 H2]. split; [exact H1|apply (IH _ H2)].
  - apply IH.
Qed.

Lemma trimEnd_shape (s : jsstring) :
  singleSpaced true s = true ->
  singleSpaced true (trimEnd s) = true /\ endsSolid (trimEnd s) = true.
Proof.
  induction s as [|c s IH] using rev_ind; intros H.
  - split; reflexivity.
  - rewrite trimEnd_snoc. destruct (isWhiteSpace c) eqn:Hc.
    + apply IH. apply (singleSpaced_app_l _ _ _ H).
    + split; [exact H|]. unfold endsSolid. rewrite rev_app_distr. simpl.
      rewrite Hc. reflexivity.
Qed.

Lemma replaceRuns_fixed (b : bool) (s : jsstring) :
  singleSpaced b s = true -> replaceRuns isWhiteSpace b s = s.
Proof.
  revert b. induction s as [|c s IH]; intros b; simpl; [auto|].
  destruct (isWhiteSpace c).
  - rewrite !andb_true_iff, N.eqb_eq, negb_true_iff. intros [[-> ->] H].
    f_equal. apply IH, H.
  - intros H. f_equal. apply IH, H.
Qed.

Lemma trimStart_fixed (s : jsstring) :
  singleSpaced true s = true -> trimStart s = s.
Proof.
  destruct s as [|c s]; simpl; [auto|].
  destruct (isWhiteSpace c); [|auto].
  rewrite andb_false_r. discriminate.
Qed.

Lemma trimEnd_fixed (s : jsstring) : endsSolid s = true -> trimEnd s = s.
Proof.
  unfold endsSolid, trimEnd. destruct (rev s) as [|c r] eqn:Hrev.
  - intros _. simpl. apply (f_equal (@rev N)) in Hrev.
    rewrite rev_involutive in Hrev. simpl in Hrev. congruence.
  - rewrite negb_true_iff. intros Hc. simpl. rewrite Hc.
    rewrite <- Hrev. apply rev_involutive.
Qed.

Lemma normalizeWhitespace_tidy (s : option jsstring) :
  tidy (normalizeWhitespace s) = true.
Proof.
  unfold tidy, normalizeWhitespace, trim. apply andb_true_iff.
  apply trimEnd_shape.
  apply (singleSpaced_trimStart false), singleSpaced_replaceRuns.
Qed.

Lemma normalizeWhitespace_fixed (s : jsstring) :
  tidy s = true -> normalizeWhitespace (Some s) = s.
Proof.
  unfold tidy. rewrite andb_true_iff. intros [Hs He].
  unfold normalizeWhitespace, trim, orEmpty.
  rewrite (replaceRuns_fixed false) by (apply singleSpaced_weaken, Hs).
  rewrite trimStart_fixed by exact Hs. apply trimEnd_fixed, He.
Qed.

(** X1: [normalizeWhitespace] yields a string without white space at either
    end in which every white-space character is a single U+0020 between two
    other characters; a string already in that form is left as it is, and so
    the function is idempotent. *)
Theorem normalizeWhitespace_normal_form :
  (forall s : option jsstring, tidy (normalizeWhitespace s) = true)
  /\ (forall s : jsstring, tidy s = true -> normalizeWhitespace (Some s) = s)
  /\ (forall s : option jsstring,
         normalizeWhitespace (Some (normalizeWhitespace s)) = normalizeWhitespace s)
  /\ normalizeWhitespace None = [].
Proof.
  split; [apply normalizeWhitespace_tidy|].
  split; [apply normalizeWhitespace_fixed|].
  split; [|reflexivity].
  intros s. apply normalizeWhitespace_fixed, normalizeWhitespace_tidy.
Qed.

Lemma normalizeWhitespace_normal_form_witness :
  normalizeWhitespace (Some (js "One More Time")) = js "One More Time".
Proof.
  apply (proj1 (proj2 normalizeWhitespace_normal_form) (js "One More Time")).
  reflexivity.
Defined.

(** ** Note names *)

Lemma tidy_map (f : N -> N) (s : jsstring) :
  (forall c, isWhiteSpace (f c) = isWhiteSpace c) ->
  (forall c, isWhiteSpace c = true -> f c = c) ->
  tidy (List.map f s) = tidy s.
Proof.
  intros Hws Hid. unfold tidy. f_equal.
  - generalize true. induction s as [|c s IH]; intros b; simpl; [reflexivity|].
    rewrite Hws. destruct (isWhiteSpace c) eqn:Hc.
    + rewrite (Hid c Hc), IH. reflexivity.
    + apply IH.
  - unfold endsSolid. rewrite <- map_rev.
    destruct (rev s) as [|c r]; simpl; [reflexivity|]. rewrite Hws. reflexivity.
Qed.

Lemma glyph_step_ws (g a c : N) :
  isWhiteSpace g = false -> isWhiteSpace a = false ->
  isWhiteSpace (if N.eqb g c then a else c) = isWhiteSpace c.
Proof.
  intros Hg Ha. destruct (N.eqb_spec g c) as [<-|_]; [congruence|reflexivity].
Qed.

Lemma glyph_step_id (g a c : N) :
  isWhiteSpace g = false -> isWhiteSpace c = true ->
  (if N.eqb g c then a else c) = c.
Proof.
  intros Hg Hc. destruct (N.eqb_spec g c) as [<-|_]; [congruence|reflexivity].
Qed.

Lemma asciiAccidentals_tidy (k : jsstring) :
  tidy (asciiAccidentals k) = tidy k.
Proof.
  unfold asciiAccidentals, replaceEach.
  rewrite !tidy_map; try reflexivity; intros c;
    first [apply glyph_step_ws; reflexivity | apply glyph_step_id; reflexivity].
Qed.

Lemma asciiAccidentals_idempotent (k : jsstring) :
  asciiAccidentals (asciiAccidentals k) = asciiAccidentals k.
Proof.
  unfold asciiAccidentals, replaceEach. rewrite !List.map_map.
  apply List.map_ext. intros c.
  destruct (N.eqb_spec 9837 c) as [<-|H1]; [reflexivity|].
  destruct (N.eqb_spec 9839 c) as [<-|H2]; [reflexivity|].
  destruct (N.eqb_spec 9837 c); [contradiction|].
  destruct (N.eqb_spec 9839 c); [contradiction|reflexivity].
Qed.

Lemma normalizeKeyName_spell (key : option jsstring) :
  normalizeKeyName key = spellNote (asciiAccidentals (normalizeWhitespace key)).
Proof. reflexivity. Qed.

Lemma spellNote_stable (k : jsstring) :
  tidy k = true -> asciiAccidentals k = k ->
  normalizeKeyName (Some (spellNote k)) = spellNote k.
Proof.
  intros Htidy Hacc. unfold spellNote.
  destruct (testFlat k) eqn:Hf; [|destruct (testSharp k) eqn:Hs;
                                   [|destruct (testPlain k) eqn:Hp]].
  - destruct k as [|l [|a [|]]]; try discriminate Hf. simpl in Hf.
    apply andb_true_iff in Hf as [Hl Ha]. apply N.eqb_eq in Ha. subst a.
    apply isNoteLetter_cases in Hl. simpl in Hl.
    repeat (destruct Hl as [<-|Hl]; [vm_compute; reflexivity|]). contradiction.
  - destruct k as [|l [|a [|]]]; try discriminate Hs. simpl in Hs.
    apply andb_true_iff in Hs as [Hl Ha]. apply N.eqb_eq in Ha. subst a.
    apply isNoteLetter_cases in Hl. simpl in Hl.
    repeat (destruct Hl as [<-|Hl]; [vm_compute; reflexivity|]). contradiction.
  - destruct k as [|l [|]]; try discriminate Hp. simpl in Hp.
    apply isNoteLetter_cases in Hp. simpl in Hp.
    repeat (destruct Hp as [<-|Hp]; [vm_compute; reflexivity|]). contradiction.
  - rewrite normalizeKeyName_spell, (normalizeWhitespace_fixed k Htidy), Hacc.
    unfold spellNote. rewrite Hf, Hs, Hp. reflexivity.
Qed.

Lemma normalizeKeyName_again (key : option jsstring) :
  normalizeKeyName (Some (normalizeKeyName key)) = normalizeKeyName key.
Proof.
  rewrite (normalizeKeyName_spell key). apply spellNote_stable.
  - rewrite asciiAccidentals_tidy. apply normalizeWhitespace_tidy.
  - apply asciiAccidentals_idempotent.
Qed.

(** X2: [normalizeKeyName] is idempotent: a normalized note name is left as
    it is, whatever the input was; so [keyToCamelot] gives a note and its
    normalized name the same code. *)
Theorem normalizeKeyName_idempotent (key mode : option jsstring) :
  normalizeKeyName (Some (normalizeKeyName key)) = normalizeKeyName key
  /\ keyToCamelot (Some (normalizeKeyName key)) mode = keyToCamelot key mode.
Proof.
  split; [apply normalizeKeyName_again|].
  unfold keyToCamelot. rewrite normalizeKeyName_again. reflexivity.
Qed.

(** ** Camelot codes *)

Lemma ownProp_Some (obj : list (jsstring * jsstring)) (k v : jsstring) :
  ownProp obj k = Some v -> In (k, v) obj.
Proof.
  induction obj as [|[k' v'] obj IH]; simpl; [discriminate|].
  destruct (strEqb k k') eqn:Hk.
  - apply strEqb_spec in Hk. intros H. injection H as <-. subst k'. left. reflexivity.
  - intros H. right. apply IH, H.
Qed.

Lemma orNull_string (v : jsval) (c : jsstring) : orNull v = VString c -> v = VString c.
Proof. unfold orNull. destruct (truthy v); [auto|discriminate]. Qed.

Lemma getProp_string (obj : list (jsstring * jsstring)) (k c : jsstring) :
  getProp obj k = VString c -> In (k, c) obj.
Proof.
  unfold getProp. destruct (ownProp obj k) as [v|] eqn:Hown.
  - intros H. injection H as <-. apply ownProp_Some, Hown.
  - destruct (setHas objectPrototypeKeys k); discriminate.
Qed.

Lemma below_twelve (pc : nat) : (pc < 12)%nat -> In pc (seq 0 12).
Proof. intros H. apply in_seq. lia. Qed.

Lemma camelotWheel_inj (pc pc' : nat) (m m' : bool) :
  (pc < 12)%nat -> (pc' < 12)%nat ->
  camelotWheel pc m = camelotWheel pc' m' -> pc = pc' /\ m = m'.
Proof.
  intros Hpc Hpc' H.
  apply below_twelve in Hpc, Hpc'. simpl in Hpc, Hpc'.
  repeat (destruct Hpc as [<-|Hpc]; [|]); try contradiction;
    repeat (destruct Hpc' as [<-|Hpc']; [|]); try contradiction;
    destruct m, m'; vm_compute in H;
    first [discriminate H | split; reflexivity].
Qed.

Ltac pick_pitch m Hm :=
  let try_pc pc :=
    (exists pc, m; split; [lia|split; [reflexivity|split; [exact Hm|reflexivity]]]) in
  first [try_pc 0%nat | try_pc 1%nat | try_pc 2%nat | try_pc 3%nat | try_pc 4%nat
        | try_pc 5%nat | try_pc 6%nat | try_pc 7%nat | try_pc 8%nat | try_pc 9%nat
        | try_pc 10%nat | try_pc 11%nat].

(** X3: a string that [keyToCamelot] returns is the code that the canonical
    wheel gives to the normalized note and the lower-cased mode; and the code
    tells the key: two calls that return the same code were given the same
    note, up to normalization, and the same mode, up to case. *)
Theorem keyToCamelot_code :
  (forall (key mode : option jsstring) (c : jsstring),
      keyToCamelot key mode = VString c ->
      exists (pc : nat) (minor : bool),
        (pc < 12)%nat
        /\ noteNames !! pc = Some (normalizeKeyName key)
        /\ toLowerCase (orEmpty mode) = modeName minor
        /\ c = camelotWheel pc minor)
  /\ (forall (key key' mode mode' : option jsstring) (c : jsstring),
         keyToCamelot key mode = VString c ->
         keyToCamelot key' mode' = VString c ->
         normalizeKeyName key = normalizeKeyName key'
         /\ toLowerCase (orEmpty mode) = toLowerCase (orEmpty mode')).
Proof.
  assert (Hcode : forall (key mode : option jsstring) (c : jsstring),
      keyToCamelot key mode = VString c ->
      exists (pc : nat) (minor : bool),
        (pc < 12)%nat
        /\ noteNames !! pc = Some (normalizeKeyName key)
        /\ toLowerCase (orEmpty mode) = modeName minor
        /\ c = camelotWheel pc minor).
  { intros key mode c. unfold keyToCamelot.
    destruct (strEqb _ (js "major")) eqn:Hmaj;
      [|destruct (strEqb _ (js "minor")) eqn:Hmin; [|discriminate]].
    - apply strEqb_spec in Hmaj. intros H.
      apply orNull_string, getProp_string in H. simpl in H.
      repeat (destruct H as [H|H]; [injection H as <- <-; pick_pitch false Hmaj|]).
      contradiction.
    - apply strEqb_spec in Hmin. intros H.
      apply orNull_string, getProp_string in H. simpl in H.
      repeat (destruct H as [H|H]; [injection H as <- <-; pick_pitch true Hmin|]).
      contradiction. }
  split; [exact Hcode|].
  intros key key' mode mode' c H H'.
  destruct (Hcode _ _ _ H) as (pc & m & Hpc & Hn & Hm & Hc).
  destruct (Hcode _ _ _ H') as (pc' & m' & Hpc' & Hn' & Hm' & Hc').
  rewrite Hc in Hc'.
  destruct (camelotWheel_inj pc pc' m m' Hpc Hpc' Hc') as [<- <-].
  split; congruence.
Qed.

Lemma keyToCamelot_code_witness :
  exists (pc : nat) (minor : bool),
    (pc < 12)%nat
    /\ noteNames !! pc = Some (normalizeKeyName (Some (js "Bb")))
    /\ toLowerCase (orEmpty (Some (js "Minor"))) = modeName minor
    /\ js "3A" = camelotWheel pc minor.
Proof.
  apply (proj1 keyToCamelot_code (Some (js "Bb")) (Some (js "Minor")) (js "3A")).
  reflexivity.
Defined.

(** ** Parsing key strings *)

Lemma isAccidental_cases (c : N) :
  isAccidental c = true -> In c [35; 98; 9839; 9837]%N.
Proof.
  unfold isAccidental. rewrite !orb_true_iff, !N.eqb_eq. simpl.
  intuition (subst; auto).
Qed.

Lemma upperUnit_inv (c u : N) :
  upperUnit c = u -> (65 <= u <= 90)%N -> c = u \/ c = (u + 32)%N.
Proof.
  unfold upperUnit.
  destruct ((97 <=? c)%N && (c <=? 122)%N) eqn:Hc.
  - apply andb_true_iff in Hc as [H1 H2].
    apply N.leb_le in H1, H2. intros <- _. right. lia.
  - intros <- _. left. reflexivity.
Qed.

Lemma matchesI_major (word : jsstring) :
  matchesI word (js "major") = true -> toLowerCase word = js "major".
Proof.
  unfold matchesI. rewrite strEqb_spec.
  change (toUpperCase (js "major")) with [77; 65; 74; 79; 82]%N.
  destruct word as [|a [|b [|c [|d [|e [|]]]]]]; try discriminate.
  unfold toUpperCase. simpl List.map. intros H. injection H as Ha Hb Hc Hd He.
  apply upperUnit_inv in Ha, Hb, Hc, Hd, He; try lia.
  destruct Ha as [-> | ->], Hb as [-> | ->], Hc as [-> | ->],
    Hd as [-> | ->], He as [-> | ->]; reflexivity.
Qed.

Lemma matchesI_minor (word : jsstring) :
  matchesI word (js "minor") = true -> toLowerCase word = js "minor".
Proof.
  unfold matchesI. rewrite strEqb_spec.
  change (toUpperCase (js "minor")) with [77; 73; 78; 79; 82]%N.
  destruct word as [|a [|b [|c [|d [|e [|]]]]]]; try discriminate.
  unfold toUpperCase. simpl List.map. intros H. injection H as Ha Hb Hc Hd He.
  apply upperUnit_inv in Ha, Hb, Hc, Hd, He; try lia.
  destruct Ha as [-> | ->], Hb as [-> | ->], Hc as [-> | ->],
    Hd as [-> | ->], He as [-> | ->]; reflexivity.
Qed.

Lemma matchCompact_groups (raw : jsstring) (l : N) (acc : jsstring) (isMinor : bool) :
  matchCompact raw = Some (l, acc, isMinor) ->
  isNoteLetter l = true
  /\ In acc [[]; [35]; [98]; [9839]; [9837]]%N.
Proof.
  unfold matchCompact.
  destruct raw as [|l0 [|c [|m [|]]]]; try discriminate.
  - destruct (isNoteLetter l0) eqn:Hl; [|discriminate].
    intros H. injection H as <- <- <-. split; [exact Hl|left; reflexivity].
  - destruct (isNoteLetter l0) eqn:Hl; [|discriminate].
    destruct (isAccidental c) eqn:Hc.
    + intros H. injection H as <- <- <-. split; [exact Hl|].
      apply isAccidental_cases in Hc. simpl in Hc. simpl.
      intuition (subst; auto).
    + destruct (c =? 109)%N; [|discriminate].
      intros H. injection H as <- <- <-. split; [exact Hl|left; reflexivity].
  - destruct (isNoteLetter l0) eqn:Hl; [|discriminate].
    destruct (isAccidental c) eqn:Hc; [|discriminate].
    destruct (m =? 109)%N; [|discriminate].
    simpl. intros H. injection H as <- <- <-. split; [exact Hl|].
    apply isAccidental_cases in Hc. simpl in Hc. simpl.
    intuition (subst; auto).
Qed.

Lemma matchVerbose_groups (raw : jsstring) (l : N) (acc word : jsstring) :
  matchVerbose raw = Some (l, acc, word) ->
  isNoteLetter l = true
  /\ In acc [[]; [35]; [98]; [9839]; [9837]; [66]]%N
  /\ (toLowerCase word = js "major" \/ toLowerCase word = js "minor").
Proof.
  unfold matchVerbose. destruct raw as [|l0 r]; [discriminate|].
  destruct (isNoteLetter l0) eqn:Hl; [|discriminate].
  assert (Hacc : forall acc0 rest0,
             (match r with
              | c :: r' => if isAccidentalI c then ([c], r') else ([], r)
              | [] => ([], r)
              end) = (acc0, rest0) ->
             In acc0 [[]; [35]; [98]; [9839]; [9837]; [66]]%N).
  { intros acc0 rest0. destruct r as [|c r'].
    - intros H. injection H as <- _. left. reflexivity.
    - unfold isAccidentalI. destruct (isAccidental c) eqn:Hc; simpl.
      + intros H. injection H as <- _.
        apply isAccidental_cases in Hc. simpl in Hc. simpl. intuition (subst; auto).
      + destruct (N.eqb_spec c 66) as [->|_].
        * intros H. injection H as <- _. simpl. auto 10.
        * intros H. injection H as <- _. left. reflexivity. }
  destruct (match r with
            | c :: r' => if isAccidentalI c then ([c], r') else ([], r)
            | [] => ([], r)
            end) as [acc0 rest0] eqn:Hpair.
  specialize (Hacc acc0 rest0 eq_refl).
  destruct (matchesI (trimStart rest0) (js "major")) eqn:Hmaj.
  - simpl. intros H. injection H as <- <- <-.
    split; [exact Hl|]. split; [exact Hacc|]. left. apply matchesI_major, Hmaj.
  - destruct (matchesI (trimStart rest0) (js "minor")) eqn:Hmin; [|discriminate].
    simpl. intros H. injection H as <- <- <-.
    split; [exact Hl|]. split; [exact Hacc|]. right. apply matchesI_minor, Hmin.
Qed.

Lemma parsed_key_shape (l : N) (acc : jsstring) :
  isNoteLetter l = true ->
  In acc [[]; [35]; [98]; [9839]; [9837]; [66]]%N ->
  setHas parsedKeys (normalizeKeyName (Some (toUpperCase [l] ++ accToAscii acc))) = true.
Proof.
  intros Hl Hacc. apply isNoteLetter_cases in Hl. simpl in Hl, Hacc.
  repeat (destruct Hl as [<-|Hl]; [|]); try contradiction;
    repeat (destruct Hacc as [<-|Hacc]; [vm_compute; reflexivity|]); contradiction.
Qed.

Lemma parsedKeys_facts (k sc : jsstring) :
  setHas parsedKeys k = true -> sc = js "major" \/ sc = js "minor" ->
  normalizeKeyName (Some k) = k
  /\ keyToCamelot (Some k) (Some sc) = camelotOfParsed k sc.
Proof.
  intros Hk Hsc. apply setHas_spec, list_elem_of_In in Hk. simpl in Hk.
  repeat (destruct Hk as [<-|Hk];
          [destruct Hsc as [-> | ->]; split; vm_compute; reflexivity|]).
  contradiction.
Qed.

Lemma parseGetsongKeyOf_shape (keyOfRaw : option jsstring) (k sc : jsstring) :
  parseGetsongKeyOf keyOfRaw = Some (k, sc) ->
  (sc = js "major" \/ sc = js "minor")
  /\ k ∈ parsedKeys
  /\ normalizeKeyName (Some k) = k
  /\ keyToCamelot (Some k) (Some sc) = camelotOfParsed k sc.
Proof.
  unfold parseGetsongKeyOf.
  destruct (negb (nonEmpty (normalizeWhitespace keyOfRaw))); [discriminate|].
  assert (Hfin : forall k0 sc0,
             setHas parsedKeys k0 = true -> sc0 = js "major" \/ sc0 = js "minor" ->
             (sc0 = js "major" \/ sc0 = js "minor")
             /\ k0 ∈ parsedKeys
             /\ normalizeKeyName (Some k0) = k0
             /\ keyToCamelot (Some k0) (Some sc0) = camelotOfParsed k0 sc0).
  { intros k0 sc0 Hk Hsc. split; [exact Hsc|]. split; [apply setHas_spec, Hk|].
    apply parsedKeys_facts; assumption. }
  destruct (matchCompact (normalizeWhitespace keyOfRaw)) as [[[l acc] isMinor]|] eqn:Hc.
  - destruct (matchCompact_groups _ _ _ _ Hc) as [Hl Hacc].
    intros H. injection H as <- <-. apply Hfin.
    + apply parsed_key_shape; [exact Hl|]. simpl in *. tauto.
    + destruct isMinor; auto.
  - destruct (matchVerbose (normalizeWhitespace keyOfRaw)) as [[[l acc] word]|] eqn:Hv;
      [|discriminate].
    destruct (matchVerbose_groups _ _ _ _ Hv) as (Hl & Hacc & Hword).
    intros H. injection H as <- <-. apply Hfin.
    + apply parsed_key_shape; assumption.
    + exact Hword.
Qed.

(** X4: what [parseGetsongKeyOf] returns is normalized: the scale is exactly
    "major" or "minor" whatever the case of the input, the key is a capital
    A-G alone or followed by [#] (or by a capital B), it is a fixed point of
    [normalizeKeyName], and its Camelot code is the wheel's code for that
    note, or null when the note is none of the twelve; a missing, empty or
    blank key string gives null. *)
Theorem parseGetsongKeyOf_normalized :
  (forall (keyOfRaw : option jsstring) (k sc : jsstring),
      parseGetsongKeyOf keyOfRaw = Some (k, sc) ->
      (sc = js "major" \/ sc = js "minor")
      /\ k ∈ parsedKeys
      /\ normalizeKeyName (Some k) = k
      /\ keyToCamelot (Some k) (Some sc) = camelotOfParsed k sc)
  /\ (forall keyOfRaw : option jsstring,
         blank (orEmpty keyOfRaw) -> parseGetsongKeyOf keyOfRaw = None).
Proof.
  split; [apply parseGetsongKeyOf_shape|].
  intros keyOfRaw Hblank. unfold parseGetsongKeyOf, normalizeWhitespace, trim.
  rewrite (trimStart_all_blank _ (replaceRuns_all_blank _ Hblank)). reflexivity.
Qed.

Lemma parseGetsongKeyOf_normalized_witness :
  parseGetsongKeyOf (Some (js "  ")) = None
  /\ ((js "minor" = js "major" \/ js "minor" = js "minor")
      /\ js "F#" ∈ parsedKeys
      /\ normalizeKeyName (Some (js "F#")) = js "F#"
      /\ keyToCamelot (Some (js "F#")) (Some (js "minor"))
         = camelotOfParsed (js "F#") (js "minor")).
Proof.
  split.
  - apply (proj2 parseGetsongKeyOf_normalized (Some (js "  "))). reflexivity.
  - apply (proj1 parseGetsongKeyOf_normalized (Some (js "F#m"))). reflexivity.
Defined.

(** ** Tokens *)

Lemma replaceRuns_In (cls : N -> bool) (b : bool) (s : jsstring) (c : N) :
  In c (replaceRuns cls b s) -> c = 32%N \/ (In c s /\ cls c = false).
Proof.
  revert b. induction s as [|x s IH]; intros b; simpl; [tauto|].
  destruct (cls x) eqn:Hx.
  - destruct b; simpl.
    + intros H. destruct (IH _ H) as [->|[H1 H2]]; auto.
    + intros [<-|H]; [auto|]. destruct (IH _ H) as [->|[H1 H2]]; auto.
  - simpl. intros [<-|H]; [auto|]. destruct (IH _ H) as [->|[H1 H2]]; auto.
Qed.

Lemma trimStart_In (s : jsstring) (c : N) : In c (trimStart s) -> In c s.
Proof.
  induction s as [|x s IH]; simpl; [auto|].
  destruct (isWhiteSpace x); [auto|]. simpl. auto.
Qed.

Lemma trimEnd_In (s : jsstring) (c : N) : In c (trimEnd s) -> In c s.
Proof.
  unfold trimEnd. rewrite <- in_rev. intros H.
  apply trimStart_In in H. rewrite <- in_rev in H. exact H.
Qed.

Lemma trim_In (s : jsstring) (c : N) : In c (trim s) -> In c s.
Proof. unfold trim. intros H. apply trimStart_In, trimEnd_In, H. Qed.

Lemma split_In (sep : N) (s t : jsstring) (c : N) :
  In t (split sep s) -> In c t -> In c s /\ c <> sep.
Proof.
  revert t. induction s as [|x s IH]; intros t; simpl.
  - intros [<-|[]] [].
  - destruct (N.eqb_spec x sep) as [->|Hx].
    + intros [<-|Ht] Hc; [destruct Hc|]. destruct (IH _ Ht Hc). auto.
    + destruct (split sep s) as [|t0 ts] eqn:Hsp.
      * intros [<-|[]] [<-|[]]. auto.
      * intros [<-|Ht] Hc.
        -- destruct Hc as [<-|Hc]; [auto|].
           destruct (IH t0 (or_introl eq_refl) Hc). auto.
        -- destruct (IH t (or_intror Ht) Hc). auto.
Qed.

Lemma newSet_In (l : list jsstring) (t : jsstring) : t ∈ newSet l <-> t ∈ l.
Proof.
  destruct (newSet_acc l [] (NoDup_nil_2)) as [_ H].
  unfold newSet. rewrite H, elem_of_nil. tauto.
Qed.

Lemma normForMatch_chars (s : option jsstring) (c : N) :
  In c (normForMatch s) -> c = 32%N \/ isTokenChar c = true.
Proof.
  unfold normForMatch. intros H. apply trim_In in H.
  apply replaceRuns_In in H as [->|[H Hws]]; [auto|].
  apply replaceRuns_In in H as [->|[_ Hnm]]; [auto|].
  right. unfold isNotMatchChar in Hnm. apply negb_false_iff in Hnm.
  rewrite Hws, orb_false_r in Hnm. exact Hnm.
Qed.

(** X5: the tokens compared by the text matcher are pairwise different,
    non-empty and made of lower-case Basic Latin letters, digits and [#]
    only, whatever the input. *)
Theorem tokenSet_tokens (s : option jsstring) :
  NoDup (tokenSet s)
  /\ Forall (fun t => t <> [] /\ forallb isTokenChar t = true) (tokenSet s).
Proof.
  split; [apply tokenSet_NoDup|].
  apply Forall_forall. intros t Ht. unfold tokenSet in Ht.
  apply newSet_In, list_elem_of_In, filter_In in Ht as [Hsplit Hne].
  split; [destruct t; [discriminate|discriminate]|].
  apply forallb_forall. intros c Hc.
  destruct (split_In _ _ _ _ Hsplit Hc) as [Hin Hsep].
  destruct (normForMatch_chars s c Hin) as [->|H]; [congruence|exact H].
Qed.

(** ** Letter case *)

Lemma lowerUnit_white (c : N) : isWhiteSpace c = true -> lowerUnit c = [c].
Proof.
  intros Hc. unfold lowerUnit.
  destruct ((65 <=? c)%N && (c <=? 90)%N) eqn:H1.
  - apply andb_true_iff in H1 as [Ha Hb]. apply N.leb_le in Ha, Hb.
    unfold isWhiteSpace in Hc.
    repeat (apply orb_true_iff in Hc as [Hc|Hc]);
      rewrite ?andb_true_iff, ?N.leb_le, ?N.eqb_eq in Hc; lia.
  - destruct (N.eqb_spec c 8490) as [->|_]; [discriminate Hc|].
    destruct (N.eqb_spec c 304) as [->|_]; [discriminate Hc|reflexivity].
Qed.

Lemma lowerUnit_solid (c : N) :
  isWhiteSpace c = false ->
  forallb (fun x => negb (isWhiteSpace x)) (lowerUnit c) = true /\ lowerUnit c <> [].
Proof.
  intros Hc. unfold lowerUnit.
  destruct ((65 <=? c)%N && (c <=? 90)%N) eqn:H1.
  - split; [|discriminate]. simpl. rewrite andb_true_r, negb_true_iff.
    apply andb_true_iff in H1 as [Ha Hb]. apply N.leb_le in Ha, Hb.
    unfold isWhiteSpace.
    repeat (apply orb_false_iff; split);
      rewrite ?andb_false_iff, ?N.leb_gt, ?N.eqb_neq; lia.
  - destruct (c =? 8490)%N; [split; [reflexivity|discriminate]|].
    destruct (c =? 304)%N; [split; [reflexivity|discriminate]|].
    split; [|discriminate]. simpl. rewrite Hc. reflexivity.
Qed.

Lemma toLowerCase_app (s t : jsstring) :
  toLowerCase (s ++ t) = toLowerCase s ++ toLowerCase t.
Proof. unfold toLowerCase. apply flat_map_app. Qed.

Lemma replaceRuns_lower (b : bool) (s : jsstring) :
  replaceRuns isWhiteSpace b (toLowerCase s)
  = toLowerCase (replaceRuns isWhiteSpace b s).
Proof.
  revert b. induction s as [|c s IH]; intros b; [reflexivity|].
  change (toLowerCase (c :: s)) with (lowerUnit c ++ toLowerCase s).
  simpl replaceRuns at 2. destruct (isWhiteSpace c) eqn:Hc.
  - rewrite (lowerUnit_white c Hc). simpl. rewrite Hc.
    destruct b; simpl.
    + apply IH.
    + change (toLowerCase (32%N :: ?x)) with (lowerUnit 32 ++ toLowerCase x).
      simpl. f_equal. apply IH.
  - destruct (lowerUnit_solid c Hc) as [Hsolid Hne].
    rewrite (replaceRuns_solid _ _ _ _ Hsolid Hne).
    change (toLowerCase (c :: ?x)) with (lowerUnit c ++ toLowerCase x).
    f_equal. apply IH.
Qed.

Lemma trimStart_lower (s : jsstring) :
  trimStart (toLowerCase s) = toLowerCase (trimStart s).
Proof.
  induction s as [|c s IH]; [reflexivity|].
  change (toLowerCase (c :: s)) with (lowerUnit c ++ toLowerCase s).
  simpl trimStart at 2. destruct (isWhiteSpace c) eqn:Hc.
  - rewrite (lowerUnit_white c Hc). simpl. rewrite Hc. exact IH.
  - destruct (lowerUnit_solid c Hc) as [Hsolid Hne].
    destruct (lowerUnit c) as [|x r] eqn:Hlow; [congruence|].
    simpl in Hsolid. apply andb_true_iff in Hsolid as [Hx _].
    apply negb_true_iff in Hx. simpl. rewrite Hx.
    change (toLowerCase (c :: s)) with (lowerUnit c ++ toLowerCase s).
    rewrite Hlow. reflexivity.
Qed.

Lemma trimEnd_solid_end (s t : jsstring) :
  forallb (fun x => negb (isWhiteSpace x)) t = true -> t <> [] ->
  trimEnd (s ++ t) = s ++ t.
Proof.
  intros Ht Hne. destruct (exists_last Hne) as [t' [c ->]].
  rewrite forallb_app in Ht. apply andb_true_iff in Ht as [_ Hc].
  simpl in Hc. rewrite andb_true_r in Hc. apply negb_true_iff in Hc.
  rewrite app_assoc, trimEnd_snoc, Hc. reflexivity.
Qed.

Lemma trimEnd_lower (s : jsstring) :
  trimEnd (toLowerCase s) = toLowerCase (trimEnd s).
Proof.
  induction s as [|c s IH] using rev_ind; [reflexivity|].
  rewrite toLowerCase_app, trimEnd_snoc.
  change (toLowerCase [c]) with (lowerUnit c ++ []). rewrite app_nil_r.
  destruct (isWhiteSpace c) eqn:Hc.
  - rewrite (lowerUnit_white c Hc), trimEnd_snoc, Hc. exact IH.
  - destruct (lowerUnit_solid c Hc) as [Hsolid Hne].
    rewrite (trimEnd_solid_end _ _ Hsolid Hne), toLowerCase_app.
    change (toLowerCase [c]) with (lowerUnit c ++ []). rewrite app_nil_r. reflexivity.
Qed.

Lemma normalizeWhitespace_lower (s : jsstring) :
  normalizeWhitespace (Some (toLowerCase s)) = toLowerCase (normalizeWhitespace (Some s)).
Proof.
  unfold normalizeWhitespace, trim, orEmpty.
  rewrite replaceRuns_lower, trimStart_lower, trimEnd_lower. reflexivity.
Qed.

Lemma tokenSet_caseless (a a' : jsstring) :
  toLowerCase a = toLowerCase a' -> tokenSet (Some a) = tokenSet (Some a').
Proof.
  intros H.
  assert (Hn : normForMatch (Some a) = normForMatch (Some a')).
  { unfold normForMatch.
    rewrite <- (normalizeWhitespace_lower a), <- (normalizeWhitespace_lower a'), H.
    reflexivity. }
  unfold tokenSet. rewrite Hn. reflexivity.
Qed.

(** X6: matching does not look at letter case: two strings with the same
    lower-case form have the same tokens, hence the same score against any
    third string. *)
Theorem tokenOverlapScore_caseless (a a' : jsstring) (b : option jsstring) :
  toLowerCase a = toLowerCase a' ->
  tokenSet (Some a) = tokenSet (Some a')
  /\ tokenOverlapScore (Some a) b = tokenOverlapScore (Some a') b
  /\ tokenOverlapScore b (Some a) = tokenOverlapScore b (Some a').
Proof.
  intros H. pose proof (tokenSet_caseless a a' H) as Ht.
  split; [exact Ht|]. unfold tokenOverlapScore. rewrite Ht. split; reflexivity.
Qed.

Lemma tokenOverlapScore_caseless_witness :
  tokenOverlapScore (Some (js "STROBE (Radio Edit)")) (Some (js "Strobe"))
  = tokenOverlapScore (Some (js "strobe (radio edit)")) (Some (js "Strobe")).
Proof.
  apply (tokenOverlapScore_caseless (js "STROBE (Radio Edit)") (js "strobe (radio edit)")
           (Some (js "Strobe"))).
  reflexivity.
Defined.

(** ** Provider B, stage 1: ranking *)

Lemma higherScore_spec (x y : Candidate) :
  higherScore x y = true <-> c_score y < c_score x.
Proof. unfold higherScore. rewrite Z.ltb_lt. lia. Qed.

Lemma insertSorted_byScore (x : Candidate) (l : list Candidate) :
  StronglySorted byScore l -> StronglySorted byScore (insertSorted higherScore x l).
Proof.
  induction 1 as [|y l Hl IH Hy]; simpl.
  - constructor; constructor.
  - destruct (higherScore y x) eqn:Hyx.
    + apply higherScore_spec in Hyx. constructor; [exact IH|].
      apply Forall_forall. intros z Hz.
      rewrite <- insertSorted_perm in Hz. apply elem_of_cons in Hz as [->|Hz].
      * unfold byScore. lia.
      * rewrite Forall_forall in Hy. apply Hy, Hz.
    + assert (Hle : byScore x y).
      { unfold byScore. destruct (Z.lt_ge_cases (c_score x) (c_score y)) as [Hlt|Hge];
          [|exact Hge]. apply higherScore_spec in Hlt. congruence. }
      constructor; [constructor; assumption|].
      constructor; [exact Hle|].
      eapply Forall_impl; [exact Hy|]. simpl. unfold byScore in *. intros z Hz. lia.
Qed.

Lemma stableSort_byScore (l : list Candidate) :
  StronglySorted byScore (stableSort higherScore l).
Proof.
  unfold stableSort. induction l as [|x l IH]; simpl; [constructor|].
  apply insertSorted_byScore, IH.
Qed.

Lemma sorted_filter {A : Type} (R : A -> A -> Prop) (f : A -> bool) (l : list A) :
  StronglySorted R l -> StronglySorted R (List.filter f l).
Proof.
  induction 1 as [|x l Hl IH Hx]; simpl; [constructor|].
  destruct (f x); [|exact IH]. constructor; [exact IH|].
  apply Forall_forall. intros y Hy. apply list_elem_of_In, filter_In in Hy as [Hy _].
  rewrite Forall_forall in Hx. apply Hx, list_elem_of_In, Hy.
Qed.

Lemma sorted_firstn {A : Type} (R : A -> A -> Prop) (n : nat) (l : list A) :
  StronglySorted R l -> StronglySorted R (firstn n l).
Proof.
  intros H. revert n. induction H as [|x l Hl IH Hx]; intros [|n]; simpl;
    try constructor.
  - apply IH.
  - apply Forall_forall. intros y Hy. rewrite Forall_forall in Hx. apply Hx.
    apply list_elem_of_In. apply list_elem_of_In in Hy.
    rewrite <- (firstn_skipn n l). apply in_or_app. left. exact Hy.
Qed.

Lemma sorted_across {A : Type} (R : A -> A -> Prop) (l1 l2 : list A) (x y : A) :
  StronglySorted R (l1 ++ l2) -> In x l1 -> In y l2 -> R x y.
Proof.
  induction l1 as [|z l1 IH]; simpl; [intros _ []|].
  intros H Hx Hy. apply StronglySorted_inv in H as [Hrest Hz].
  destruct Hx as [->|Hx].
  - rewrite Forall_forall in Hz. apply Hz, list_elem_of_In, in_or_app. right. exact Hy.
  - apply IH; assumption.
Qed.

Lemma qualifying_count (recs : list Recording) :
  length (List.filter (fun x => MUSICBRAINZ_MIN_SCORE <=? c_score x) (omap toCandidate recs))
  = length (List.filter qualifies recs).
Proof.
  induction recs as [|r recs IH]; [reflexivity|].
  cbn [omap list_omap List.filter]. unfold qualifies at 1.
  destruct (toCandidate r) as [c|]; [|exact IH].
  cbn [List.filter]. destruct (MUSICBRAINZ_MIN_SCORE <=? c_score c); simpl; rewrite IH; reflexivity.
Qed.

Lemma filter_perm_length {A : Type} (f : A -> bool) (l l' : list A) :
  Permutation l l' -> length (List.filter f l) = length (List.filter f l').
Proof.
  induction 1; simpl; try congruence.
  - destruct (f x); simpl; congruence.
  - destruct (f x), (f y); reflexivity.
Qed.

Lemma toCandidate_origin (r : Recording) (c : Candidate) :
  toCandidate r = Some c ->
  c_mbid c <> [] /\ r_id r = Some (c_mbid c) /\ c_score c = default 0 (r_score r).
Proof.
  unfold toCandidate. destruct (r_id r) as [i|]; [|discriminate].
  destruct i as [|x i]; [discriminate|]. simpl.
  intros H. injection H as <-. simpl. repeat split. discriminate.
Qed.

Lemma rankRecordings_sound (recs : list Recording) :
  (length (rankRecordings recs) <= 6)%nat
  /\ StronglySorted byScore (rankRecordings recs)
  /\ Forall (fun c => MUSICBRAINZ_MIN_SCORE <= c_score c /\ c_mbid c <> [])
       (rankRecordings recs).
Proof.
  unfold rankRecordings.
  split; [apply firstn_le_length|].
  split; [apply sorted_firstn, sorted_filter, stableSort_byScore|].
  apply Forall_forall. intros c Hc. apply list_elem_of_In in Hc.
  assert (Hgood : In c (List.filter (fun x => MUSICBRAINZ_MIN_SCORE <=? c_score x)
                          (stableSort higherScore (omap toCandidate recs))))
    by (rewrite <- (firstn_skipn 6 (List.filter _ _)); apply in_or_app; left; exact Hc).
  apply filter_In in Hgood as [Hin Hscore]. apply Z.leb_le in Hscore.
  apply list_elem_of_In in Hin. rewrite <- stableSort_perm in Hin.
  apply list_elem_of_omap in Hin as [r [Hr Hrc]].
  destruct (toCandidate_origin r c Hrc) as (H1 & _). auto.
Qed.

(** X7: the ranking of one search answer keeps the best six of the
    recordings that have an identifier and a score of at least 60: at most
    six candidates, all of them such recordings of the answer, in descending
    order of score, as many as there are up to six, and no recording left out
    scores more than one that is kept. *)
Theorem rankRecordings_best (recs : list Recording) :
  (length (rankRecordings recs) <= 6)%nat
  /\ length (rankRecordings recs) = Nat.min 6 (length (List.filter qualifies recs))
  /\ StronglySorted byScore (rankRecordings recs)
  /\ Forall (fun c =>
       MUSICBRAINZ_MIN_SCORE <= c_score c
       /\ c_mbid c <> []
       /\ exists r, r ∈ recs /\ r_id r = Some (c_mbid c)
                    /\ c_score c = default 0 (r_score r))
       (rankRecordings recs)
  /\ (forall r c,
         r ∈ recs -> toCandidate r = Some c -> MUSICBRAINZ_MIN_SCORE <= c_score c ->
         c ∈ rankRecordings recs
         \/ Forall (fun k => c_score c <= c_score k) (rankRecordings recs)).
Proof.
  unfold rankRecordings.
  set (sorted := stableSort higherScore (omap toCandidate recs)).
  set (good := List.filter (fun x => MUSICBRAINZ_MIN_SCORE <=? c_score x) sorted).
  assert (Hperm : Permutation (omap toCandidate recs) sorted) by apply stableSort_perm.
  assert (Hsorted : StronglySorted byScore good)
    by (apply sorted_filter, stableSort_byScore).
  split; [apply firstn_le_length|].
  split.
  { rewrite length_firstn. f_equal. unfold good.
    rewrite <- (filter_perm_length _ _ _ Hperm). apply qualifying_count. }
  split; [apply sorted_firstn, Hsorted|].
  split.
  { apply Forall_forall. intros c Hc. apply list_elem_of_In in Hc.
    assert (Hgood : In c good)
      by (rewrite <- (firstn_skipn 6 good); apply in_or_app; left; exact Hc).
    apply filter_In in Hgood as [Hin Hscore]. apply Z.leb_le in Hscore.
    apply list_elem_of_In in Hin. rewrite <- Hperm in Hin.
    apply list_elem_of_omap in Hin as [r [Hr Hrc]].
    destruct (toCandidate_origin r c Hrc) as (H1 & H2 & H3).
    split; [exact Hscore|]. split; [exact H1|]. exists r. auto. }
  intros r c Hr Hrc Hscore.
  assert (Hgood : In c good).
  { apply filter_In. split; [|apply Z.leb_le, Hscore].
    apply list_elem_of_In. rewrite <- Hperm.
    apply list_elem_of_omap. exists r. auto. }
  rewrite <- (firstn_skipn 6 good) in Hgood. apply in_app_or in Hgood as [Hkept|Hleft].
  - left. apply list_elem_of_In, Hkept.
  - right. apply Forall_forall. intros k Hk. apply list_elem_of_In in Hk.
    rewrite <- (firstn_skipn 6 good) in Hsorted.
    apply (sorted_across byScore _ _ k c Hsorted Hk Hleft).
Qed.

Lemma rankRecordings_best_witness :
  (mkCandidate (js "m1") 60 ∈ rankRecordings [mkRecording (Some (js "m1")) (Some 60)]
   \/ Forall (fun k => 60 <= c_score k)
        (rankRecordings [mkRecording (Some (js "m1")) (Some 60)]))
  /\ (mkCandidate (js "m2") 90
        ∈ rankRecordings [mkRecording (Some (js "m1")) (Some 60);
                          mkRecording (Some (js "m2")) (Some 90);
                          mkRecording None (Some 100);
                          mkRecording (Some (js "m3")) (Some 10)]
      \/ Forall (fun k => 90 <= c_score k)
           (rankRecordings [mkRecording (Some (js "m1")) (Some 60);
                            mkRecording (Some (js "m2")) (Some 90);
                            mkRecording None (Some 100);
                            mkRecording (Some (js "m3")) (Some 10)]))
  /\ rankRecordings [mkRecording (Some (js "m1")) (Some 60);
                     mkRecording (Some (js "m2")) (Some 90);
                     mkRecording None (Some 100);
                     mkRecording (Some (js "m3")) (Some 10)]
     = [mkCandidate (js "m2") 90; mkCandidate (js "m1") 60].
Proof.
  split; [|split; [|reflexivity]].
  - refine (proj2 (proj2 (proj2 (proj2
              (rankRecordings_best [mkRecording (Some (js "m1")) (Some 60)]))))
              (mkRecording (Some (js "m1")) (Some 60)) (mkCandidate (js "m1") 60) _ _ _).
    + left.
    + reflexivity.
    + discriminate.
  - refine (proj2 (proj2 (proj2 (proj2
              (rankRecordings_best [mkRecording (Some (js "m1")) (Some 60);
                                    mkRecording (Some (js "m2")) (Some 90);
                                    mkRecording None (Some 100);
                                    mkRecording (Some (js "m3")) (Some 10)]))))
              (mkRecording (Some (js "m2")) (Some 90)) (mkCandidate (js "m2") 90) _ _ _).
    + right. left.
    + reflexivity.
    + discriminate.
Defined.

(** ** Provider B: what the two clients ask and leave alone *)

(** A program without writes leaves the store as it was. *)
Lemma run_noWrite {A : Type} (env : Env) (p : Prog A) (w : World) :
  Always noWrite p -> storage (snd (run env p w)) = storage w.
Proof.
  intros H. revert w. induction H; intros w; cbn [run]; auto;
    try (rewrite IHAlways; reflexivity);
    try (match goal with Hk : forall x w, _ |- _ => rewrite Hk; reflexivity end).
  contradiction.
Qed.

Lemma noWrite_of_mb (o : OpDesc) : mbOp o -> noWrite o.
Proof. destruct o; simpl; auto. Qed.

Lemma noWrite_of_ab (o : OpDesc) : abOp o -> noWrite o.
Proof. destruct o; simpl; auto. Qed.

Lemma noWrite_of_gsb (o : OpDesc) : gsbOp o -> noWrite o.
Proof. destruct o; simpl; auto. Qed.

Lemma searchQueries_sent (env : Env) (queries : list jsstring) (w : World) :
  exists sent unsent,
    queries = sent ++ unsent
    /\ (encodable (hd [] queries) = true -> queries <> [] -> sent <> [])
    /\ fetches (trace (snd (run env (searchQueries queries) w)))
       = fetches (trace w) ++ List.map ReqMbSearch sent
    /\ forall l, fst (run env (searchQueries queries) w) = Returned l ->
         (exists recs, l = rankRecordings recs)
         /\ ((l = [] /\ unsent = []
              /\ fruitless env sent w (snd (run env (searchQueries queries) w)))
             \/ (l <> []
                 /\ exists pre q w1 data,
                      sent = pre ++ [q]
                      /\ fruitless env pre w w1
                      /\ run env (rateLimitedMusicBrainzFetch q) w1
                         = (Returned data, snd (run env (searchQueries queries) w))
                      /\ l = rankRecordings (default [] (j_recordings data)))).
Proof.
  revert w. induction queries as [|q others IH]; intros w.
  - exists [], []. cbn [run searchQueries fst snd List.map].
    split; [reflexivity|]. split; [congruence|]. split; [symmetry; apply app_nil_r|].
    intros l H. injection H as <-. split; [exists []; reflexivity|].
    left. cbn [fruitless]. auto.
  - destruct (encodable q) eqn:Hq.
    2:{ rewrite (searchQueries_malformed q others Hq). exists [], (q :: others).
        cbn [run fst snd List.map hd].
        split; [reflexivity|]. split; [congruence|]. split; [symmetry; apply app_nil_r|].
        discriminate. }
    rewrite (searchQueries_cons q others Hq), run_bind.
    destruct (rateLimitedMusicBrainzFetch_run env q w) as (t & Htr & _).
    destruct (run env (rateLimitedMusicBrainzFetch q) w) as [[data|e] w1] eqn:Hrun;
      cbn [snd] in Htr.
    + cbv zeta.
      destruct (rankRecordings (default [] (j_recordings data))) as [|c ranked] eqn:Hrank.
      * cbn [length Nat.eqb negb].
        destruct (IH w1) as (sent & unsent & Hsplit & _ & Hf & Hres).
        exists (q :: sent), unsent.
        split; [simpl; congruence|]. split; [discriminate|].
        split.
        { rewrite Hf, Htr, fetches_snoc. cbn [fetches omap list_omap List.map].
          rewrite <- app_assoc. reflexivity. }
        intros l Hl. destruct (Hres l Hl) as [Hrecs Hcases]. split; [exact Hrecs|].
        destruct Hcases as [(H1 & H2 & H3)|(H1 & pre & q' & w2 & data' & H2 & H3 & H4 & H5)].
        -- left. split; [exact H1|]. split; [exact H2|].
           cbn [fruitless]. exists data, w1. auto.
        -- right. split; [exact H1|].
           exists (q :: pre), q', w2, data'. split; [simpl; congruence|].
           split; [cbn [fruitless]; exists data, w1; auto|]. auto.
      * cbn [length Nat.eqb negb run fst snd List.map].
        exists [q], others.
        split; [reflexivity|]. split; [discriminate|].
        split; [rewrite Htr, fetches_snoc; reflexivity|].
        intros l H. injection H as <-. split; [eauto|].
        right. split; [discriminate|].
        exists [], q, w, data. cbn [fruitless app]. rewrite Hrank. auto.
    + exists [q], others. cbn [fst snd List.map].
      split; [reflexivity|]. split; [discriminate|].
      split; [rewrite Htr, fetches_snoc; reflexivity|]. discriminate.
Qed.

(** X8: a search of the recording database sends the queries in order of
    specificity, and stops with the first that yields a candidate: the
    queries before the last one sent were each answered without a candidate,
    and a non-empty result is the ranking of the answer to the last query
    sent; an empty result means that all three were sent and none yielded a
    candidate.  At least one query is sent when the first can be encoded;
    when it cannot (a lone surrogate), the search throws before any request.
    The search writes nothing to the store.  The candidates it returns are
    at most six, each with an identifier and a score of at least 60, in
    descending order of score. *)
Theorem searchMusicBrainzRecordings_requests (env : Env) (title artist : jsstring)
    (w : World) :
  (exists sent unsent,
     mbQueries title artist = sent ++ unsent
     /\ (encodable (hd [] (mbQueries title artist)) = true -> sent <> [])
     /\ fetches (trace (snd (run env (searchMusicBrainzRecordings title artist) w)))
        = fetches (trace w) ++ List.map ReqMbSearch sent
     /\ forall l,
          fst (run env (searchMusicBrainzRecordings title artist) w) = Returned l ->
          ((l = [] /\ unsent = []
            /\ fruitless env sent w
                 (snd (run env (searchMusicBrainzRecordings title artist) w)))
           \/ (l <> []
               /\ exists pre q w1 data,
                    sent = pre ++ [q]
                    /\ fruitless env pre w w1
                    /\ run env (rateLimitedMusicBrainzFetch q) w1
                       = (Returned data,
                          snd (run env (searchMusicBrainzRecordings title artist) w))
                    /\ l = rankRecordings (default [] (j_recordings data))))
          /\ (length l <= 6)%nat
          /\ StronglySorted byScore l
          /\ Forall (fun c => MUSICBRAINZ_MIN_SCORE <= c_score c /\ c_mbid c <> []) l)
  /\ storage (snd (run env (searchMusicBrainzRecordings title artist) w)) = storage w
  /\ (encodable (hd [] (mbQueries title artist)) = false ->
      run env (searchMusicBrainzRecordings title artist) w = (Thrown ErrURI, w)).
Proof.
  change (searchMusicBrainzRecordings title artist)
    with (searchQueries (mbQueries title artist)).
  split; [|split].
  - destruct (searchQueries_sent env (mbQueries title artist) w)
      as (sent & unsent & Hq & Hne & Hf & Hres).
    exists sent, unsent. split; [exact Hq|].
    split; [intros Henc; apply Hne; [exact Henc|discriminate]|].
    split; [exact Hf|].
    intros l Hl. destruct (Hres l Hl) as [[recs Hrecs] Hcases].
    split; [exact Hcases|].
    rewrite Hrecs. apply rankRecordings_sound.
  - apply run_noWrite. apply (Always_impl mbOp); [apply noWrite_of_mb|].
    apply searchQueries_ops.
  - unfold mbQueries. cbv zeta. cbn [hd]. intros Henc.
    rewrite (searchQueries_malformed _ _ Henc). reflexivity.
Qed.

(** The recording found has a score below 60: the three queries are sent,
    one after the other, and the result is empty. *)
Lemma searchMusicBrainzRecordings_requests_witness :
  fetches (trace (snd (run (exampleEnv None 50 40)
                         (searchMusicBrainzRecordings (js "Strobe") (js "deadmau5"))
                         exampleWorld)))
  = List.map ReqMbSearch (mbQueries (js "Strobe") (js "deadmau5"))
  /\ fruitless (exampleEnv None 50 40) (mbQueries (js "Strobe") (js "deadmau5")) exampleWorld
       (snd (run (exampleEnv None 50 40)
               (searchMusicBrainzRecordings (js "Strobe") (js "deadmau5")) exampleWorld)).
Proof.
  destruct (searchMusicBrainzRecordings_requests (exampleEnv None 50 40)
              (js "Strobe") (js "deadmau5") exampleWorld)
    as [(sent & unsent & Hq & _ & Hf & H) _].
  assert (Hrun : fst (run (exampleEnv None 50 40)
                        (searchMusicBrainzRecordings (js "Strobe") (js "deadmau5"))
                        exampleWorld)
                 = Returned [])
    by (vm_compute; reflexivity).
  destruct (H [] Hrun) as [[(_ & Hun & Hfr)|(Hne & _)] _]; [|congruence].
  rewrite Hun, app_nil_r in Hq. rewrite <- Hq in Hfr, Hf.
  split; [exact Hf|exact Hfr].
Defined.

Lemma abSubmissions_sent (env : Env) (mbid_ : jsstring) (ns : list nat) (w : World) :
  exists sent unsent,
    ns = sent ++ unsent
    /\ (ns <> [] -> sent <> [])
    /\ fetches (trace (snd (run env (abSubmissions mbid_ ns) w)))
       = fetches (trace w) ++ List.map (ReqAbLowLevel mbid_) sent
    /\ forall k sc, fst (run env (abSubmissions mbid_ ns) w) = Returned (Some (k, sc)) ->
         k <> [] /\ sc <> [].
Proof.
  revert w. induction ns as [|n others IH]; intros w.
  - exists [], []. cbn [abSubmissions run fst snd List.map].
    split; [reflexivity|]. split; [congruence|]. split; [symmetry; apply app_nil_r|].
    discriminate.
  - rewrite abSubmissions_cons. unfold fetch, resJson. cbn [bind run].
    set (w1 := pass env 0 (logEvent (EvFetch (clock w) (ReqAbLowLevel mbid_ n)) w)).
    assert (Hw1 : fetches (trace w1) = fetches (trace w) ++ [ReqAbLowLevel mbid_ n])
      by (unfold w1; cbn [trace pass logEvent]; apply fetches_snoc).
    assert (Hstop : forall o : Outcome (option (jsstring * jsstring)),
               (forall k sc, o = Returned (Some (k, sc)) -> k <> [] /\ sc <> []) ->
               exists sent unsent,
                 n :: others = sent ++ unsent
                 /\ (n :: others <> [] -> sent <> [])
                 /\ fetches (trace (snd (o, w1)))
                    = fetches (trace w) ++ List.map (ReqAbLowLevel mbid_) sent
                 /\ forall k sc, fst (o, w1) = Returned (Some (k, sc)) ->
                      k <> [] /\ sc <> []).
    { intros o Ho. exists [n], others. split; [reflexivity|]. split; [discriminate|].
      split; [exact Hw1|exact Ho]. }
    assert (Hstop' : forall o : Outcome (option (jsstring * jsstring)),
               (forall k sc, o = Returned (Some (k, sc)) -> k <> [] /\ sc <> []) ->
               exists sent unsent,
                 n :: others = sent ++ unsent
                 /\ (n :: others <> [] -> sent <> [])
                 /\ fetches (trace (snd (o, pass env 0 w1)))
                    = fetches (trace w) ++ List.map (ReqAbLowLevel mbid_) sent
                 /\ forall k sc, fst (o, pass env 0 w1) = Returned (Some (k, sc)) ->
                      k <> [] /\ sc <> []).
    { intros o Ho. exact (Hstop o Ho). }
    assert (Hnext : exists sent unsent,
               n :: others = sent ++ unsent
               /\ (n :: others <> [] -> sent <> [])
               /\ fetches (trace (snd (run env (abSubmissions mbid_ others) (pass env 0 w1))))
                  = fetches (trace w) ++ List.map (ReqAbLowLevel mbid_) sent
               /\ forall k sc,
                    fst (run env (abSubmissions mbid_ others) (pass env 0 w1))
                    = Returned (Some (k, sc)) -> k <> [] /\ sc <> []).
    { destruct (IH (pass env 0 w1)) as (sent & unsent & Hq & _ & Hf & Hres).
      exists (n :: sent), unsent. split; [simpl; congruence|]. split; [discriminate|].
      split; [|exact Hres].
      rewrite Hf. change (trace (pass env 0 w1)) with (trace w1). rewrite Hw1.
      rewrite <- app_assoc. reflexivity. }
    destruct (respond env (awaits w) (ReqAbLowLevel mbid_ n)) as [e|res]; cbn [bind run].
    { apply Hstop. discriminate. }
    destruct (status res =? 404); cbn [run]; [apply Hstop; discriminate|].
    destruct (negb (ok res)); cbn [run]; [apply Hstop; discriminate|].
    cbn [bind run]. fold w1.
    destruct (json res) as [data|]; cbn [bind run]; [|apply Hstop'; discriminate].
    destruct (nullish _ _) as [k|]; [|exact Hnext].
    destruct (nullish _ _) as [sc|]; [|exact Hnext].
    destruct (nonEmpty k && nonEmpty sc) eqn:Hne; [|exact Hnext].
    cbn [run]. apply Hstop'. intros k' sc' H. injection H as <- <-.
    apply andb_true_iff in Hne as [Hk Hsc].
    split; intros ->; discriminate.
Qed.

Lemma abSubmissions_refused (env : Env) (mbid_ : jsstring) (n : nat) (others : list nat)
    (w : World) (res : Response) :
  respond env (awaits w) (ReqAbLowLevel mbid_ n) = NetOk res ->
  ok res = false ->
  run env (abSubmissions mbid_ (n :: others)) w
  = (Returned None, pass env 0 (logEvent (EvFetch (clock w) (ReqAbLowLevel mbid_ n)) w)).
Proof.
  intros Hresp Hok. rewrite abSubmissions_cons. unfold fetch. cbn [bind run].
  rewrite Hresp. cbn [bind run]. rewrite Hok.
  destruct (status res =? 404); reflexivity.
Qed.

(** X9: reading the tonal data of one recording sends one, two or three
    requests, for the submissions 0, 1, 2 of that recording in this order,
    and touches neither the store nor the rate limiter.  A key and scale it
    returns are both non-empty.  When the first submission is answered with
    anything but a success, the reading ends with null: the submissions
    after it are not asked for. *)
Theorem fetchAcousticBrainzKeyAnySubmission_requests (env : Env) (mbid_ : jsstring)
    (w : World) :
  (exists sent unsent,
     [0; 1; 2]%nat = sent ++ unsent
     /\ sent <> []
     /\ fetches (trace (snd (run env (fetchAcousticBrainzKeyAnySubmission mbid_) w)))
        = fetches (trace w) ++ List.map (ReqAbLowLevel mbid_) sent)
  /\ storage (snd (run env (fetchAcousticBrainzKeyAnySubmission mbid_) w)) = storage w
  /\ lastMbRequestAt (snd (run env (fetchAcousticBrainzKeyAnySubmission mbid_) w))
     = lastMbRequestAt w
  /\ (forall k sc,
        fst (run env (fetchAcousticBrainzKeyAnySubmission mbid_) w) = Returned (Some (k, sc)) ->
        k <> [] /\ sc <> [])
  /\ (forall res,
        respond env (awaits w) (ReqAbLowLevel mbid_ 0) = NetOk res -> ok res = false ->
        fst (run env (fetchAcousticBrainzKeyAnySubmission mbid_) w) = Returned None
        /\ fetches (trace (snd (run env (fetchAcousticBrainzKeyAnySubmission mbid_) w)))
           = fetches (trace w) ++ [ReqAbLowLevel mbid_ 0]).
Proof.
  unfold fetchAcousticBrainzKeyAnySubmission.
  destruct (abSubmissions_sent env mbid_ [0; 1; 2]%nat w)
    as (sent & unsent & Hq & Hne & Hf & Hres).
  split; [exists sent, unsent; split; [exact Hq|]; split; [apply Hne; discriminate|exact Hf]|].
  split.
  { apply run_noWrite. apply (Always_impl abOp); [apply noWrite_of_ab|].
    apply abSubmissions_ops. }
  split.
  { apply run_quietMb. apply (Always_impl abOp); [|apply abSubmissions_ops].
    intros o Ho. apply (quiet_of_ab_write []). left. exact Ho. }
  split; [exact Hres|].
  intros res Hresp Hok. rewrite (abSubmissions_refused env mbid_ _ _ w res Hresp Hok).
  split; [reflexivity|]. cbn [snd trace pass logEvent]. apply fetches_snoc.
Qed.

(** The first submission is missing: the second one is not asked for. *)
Lemma fetchAcousticBrainzKeyAnySubmission_requests_witness :
  let env := {| respond := fun _ r =>
                  match r with
                  | ReqAbLowLevel _ 0 => NetOk (mkResponse 404 None)
                  | _ => NetOk (mkResponse 200 (Some (mkJson None None (Some exampleTonal))))
                  end;
                elapsed := fun _ => 40%N |} in
  fst (run env (fetchAcousticBrainzKeyAnySubmission (js "m1")) exampleWorld) = Returned None
  /\ fetches (trace (snd (run env (fetchAcousticBrainzKeyAnySubmission (js "m1"))
                            exampleWorld)))
     = fetches (trace exampleWorld) ++ [ReqAbLowLevel (js "m1") 0].
Proof.
  intros env.
  refine (proj2 (proj2 (proj2 (proj2
            (fetchAcousticBrainzKeyAnySubmission_requests env (js "m1") exampleWorld))))
            (mkResponse 404 None) _ _); reflexivity.
Defined.

(** ** Provider A: the credential, the request and the record *)

Lemma camelotWheel_nonEmpty (pc : nat) (minor : bool) :
  nonEmpty (camelotWheel pc minor) = true.
Proof.
  unfold camelotWheel. destruct (numeral _); destruct minor; reflexivity.
Qed.

Lemma camelotOfParsed_orNull (k sc : jsstring) :
  orNull (camelotOfParsed k sc) = camelotOfParsed k sc.
Proof.
  unfold camelotOfParsed. destruct (pitchClassOf k) as [pc|]; [|reflexivity].
  unfold orNull, truthy. rewrite camelotWheel_nonEmpty. reflexivity.
Qed.

Lemma firstParsed_shape (l : list (SongItem * Q)) (g : GsbHit) :
  firstParsed l = Some g ->
  g_provider g = js "getsongbpm"
  /\ (g_mode g = js "major" \/ g_mode g = js "minor")
  /\ g_key g ∈ parsedKeys
  /\ g_camelot g = camelotOfParsed (g_key g) (g_mode g)
  /\ g_providerId g <> VString [].
Proof.
  intros Hg.
  destruct (firstParsed_some l g Hg) as (pre & s & q & post & k & sc & _ & _ & Hp & ->).
  destruct (parseGetsongKeyOf_shape _ _ _ Hp) as (Hsc & Hk & _ & Hcam).
  cbn [gsbRecord g_provider g_mode g_key g_camelot g_providerId].
  split; [reflexivity|]. split; [exact Hsc|]. split; [exact Hk|].
  split; [rewrite Hcam; apply camelotOfParsed_orNull|].
  destruct (s_id s) as [[|c i]|]; discriminate.
Qed.

Lemma lookupViaGetSongBpm_hit (env : Env) (title artist : jsstring) (w : World)
    (g : GsbHit) :
  fst (run env (lookupViaGetSongBpm title artist) w) = Returned (Some g) ->
  g_provider g = js "getsongbpm"
  /\ (g_mode g = js "major" \/ g_mode g = js "minor")
  /\ g_key g ∈ parsedKeys
  /\ g_camelot g = camelotOfParsed (g_key g) (g_mode g)
  /\ g_providerId g <> VString [].
Proof.
  intros Hg.
  destruct (storage w !! GETSONG_KEY_STORAGE) as [[raw|rec]|] eqn:Hkey.
  - destruct (trim raw) as [|c t] eqn:Htrim.
    + rewrite lookupViaGetSongBpm_silent_key in Hg; [discriminate|].
      unfold noCredential. rewrite Hkey. exact Htrim.
    + assert (Hne : trim raw <> []) by (rewrite Htrim; discriminate).
      destruct (encodable (gsbLookup title artist)) eqn:Henc.
      * destruct (lookupViaGetSongBpm_asks env title artist w raw Hkey Hne Henc) as [_ H].
        destruct (H g Hg) as [l Hl]. exact (firstParsed_shape l g Hl).
      * rewrite (lookupViaGetSongBpm_malformed env title artist w raw Hkey Hne Henc) in Hg.
        discriminate Hg.
  - revert Hg. unfold lookupViaGetSongBpm, getGetsongApiKey, storageGet.
    cbn [run bind]. rewrite Hkey. discriminate.
  - rewrite lookupViaGetSongBpm_silent_key in Hg; [discriminate|].
    unfold noCredential. rewrite Hkey. exact I.
Qed.

(** X10: Provider A never writes to the store and never touches the rate
    limiter.  Without a credential (none stored, or a blank one) it answers
    null after one warning and sends no request.  With a credential, when
    the query of the title and the artist can be encoded, it sends exactly
    one request, whatever the answer: the search for that query, under the
    trimmed credential; when the query cannot be encoded (a lone surrogate)
    it throws before any request.  A record it returns is tagged
    "getsongbpm", its mode is "major" or "minor", its key is a capital A-G,
    alone, followed by [#] or followed by a capital B, its Camelot code is
    the wheel's code for that key and mode (null when the key is none of the
    twelve notes), and its identifier is never the empty string. *)
Theorem lookupViaGetSongBpm_profile (env : Env) (title artist : jsstring) (w : World) :
  storage (snd (run env (lookupViaGetSongBpm title artist) w)) = storage w
  /\ lastMbRequestAt (snd (run env (lookupViaGetSongBpm title artist) w))
     = lastMbRequestAt w
  /\ (noCredential w ->
      fst (run env (lookupViaGetSongBpm title artist) w) = Returned None
      /\ fetches (trace (snd (run env (lookupViaGetSongBpm title artist) w)))
         = fetches (trace w)
      /\ warnings (trace (snd (run env (lookupViaGetSongBpm title artist) w)))
         = S (warnings (trace w)))
  /\ (forall raw,
        storage w !! GETSONG_KEY_STORAGE = Some (SString raw) -> trim raw <> [] ->
        (encodable (gsbLookup title artist) = true ->
         fetches (trace (snd (run env (lookupViaGetSongBpm title artist) w)))
         = fetches (trace w) ++ [ReqGetSong (trim raw) (gsbLookup title artist)]
         /\ warnings (trace (snd (run env (lookupViaGetSongBpm title artist) w)))
            = warnings (trace w))
        /\ (encodable (gsbLookup title artist) = false ->
            fst (run env (lookupViaGetSongBpm title artist) w) = Thrown ErrURI
            /\ trace (snd (run env (lookupViaGetSongBpm title artist) w)) = trace w))
  /\ (forall g,
        fst (run env (lookupViaGetSongBpm title artist) w) = Returned (Some g) ->
        g_provider g = js "getsongbpm"
        /\ (g_mode g = js "major" \/ g_mode g = js "minor")
        /\ g_key g ∈ parsedKeys
        /\ g_camelot g = camelotOfParsed (g_key g) (g_mode g)
        /\ g_providerId g <> VString []).
Proof.
  split.
  { apply run_noWrite. apply (Always_impl gsbOp); [apply noWrite_of_gsb|].
    apply lookupViaGetSongBpm_ops. }
  split.
  { apply run_quietMb. apply (Always_impl gsbOp); [apply quiet_of_gsb|].
    apply lookupViaGetSongBpm_ops. }
  split.
  { intros Hno. rewrite (lookupViaGetSongBpm_silent_key env title artist w Hno).
    cbn [fst snd trace logEvent pass]. split; [reflexivity|].
    unfold warnings. rewrite fetches_snoc, List.filter_app, length_app.
    cbn [fetches omap list_omap List.filter length]. split; [apply app_nil_r|lia]. }
  split.
  { intros raw Hkey Hne. split; intros Henc.
    - destruct (lookupViaGetSongBpm_asks env title artist w raw Hkey Hne Henc) as [-> _].
      unfold warnings. rewrite fetches_snoc, List.filter_app, length_app.
      cbn [List.filter length]. split; [reflexivity|lia].
    - rewrite (lookupViaGetSongBpm_malformed env title artist w raw Hkey Hne Henc).
      split; reflexivity. }
  apply lookupViaGetSongBpm_hit.
Qed.

(** Nothing is stored: one warning, no request.  A credential is stored:
    one request; and none for a title that ends in a lone surrogate. *)
Lemma lookupViaGetSongBpm_profile_witness :
  (fst (run (gsbEnv exampleItems) (lookupViaGetSongBpm (js "Strobe") (js "deadmau5"))
          exampleWorld) = Returned None
   /\ fetches (trace (snd (run (gsbEnv exampleItems)
                             (lookupViaGetSongBpm (js "Strobe") (js "deadmau5"))
                             exampleWorld)))
      = fetches (trace exampleWorld)
   /\ warnings (trace (snd (run (gsbEnv exampleItems)
                              (lookupViaGetSongBpm (js "Strobe") (js "deadmau5"))
                              exampleWorld)))
      = S (warnings (trace exampleWorld)))
  /\ (fetches (trace (snd (run (gsbEnv exampleItems)
                             (lookupViaGetSongBpm (js "Strobe") (js "deadmau5"))
                             gsbWorld)))
      = fetches (trace gsbWorld)
        ++ [ReqGetSong (trim (js " secret ")) (gsbLookup (js "Strobe") (js "deadmau5"))]
      /\ warnings (trace (snd (run (gsbEnv exampleItems)
                                 (lookupViaGetSongBpm (js "Strobe") (js "deadmau5"))
                                 gsbWorld)))
         = warnings (trace gsbWorld))
  /\ (fst (run (gsbEnv exampleItems)
             (lookupViaGetSongBpm (js "Strobe" ++ [55357%N]) (js "deadmau5")) gsbWorld)
      = Thrown ErrURI
      /\ trace (snd (run (gsbEnv exampleItems)
                       (lookupViaGetSongBpm (js "Strobe" ++ [55357%N]) (js "deadmau5"))
                       gsbWorld))
         = trace gsbWorld).
Proof.
  split; [|split].
  - refine (proj1 (proj2 (proj2
              (lookupViaGetSongBpm_profile (gsbEnv exampleItems) (js "Strobe")
                 (js "deadmau5") exampleWorld))) _).
    exact I.
  - refine (proj1 (proj1 (proj2 (proj2 (proj2
              (lookupViaGetSongBpm_profile (gsbEnv exampleItems) (js "Strobe")
                 (js "deadmau5") gsbWorld)))) (js " secret ") _ _) _).
    + apply lookup_singleton_eq.
    + discriminate.
    + reflexivity.
  - refine (proj2 (proj1 (proj2 (proj2 (proj2
              (lookupViaGetSongBpm_profile (gsbEnv exampleItems)
                 (js "Strobe" ++ [55357%N]) (js "deadmau5") gsbWorld)))) (js " secret ") _ _) _).
    + apply lookup_singleton_eq.
    + discriminate.
    + reflexivity.
Defined.

(** ** The orchestrator and the store *)

(** A program that writes under [cacheKey] only leaves the other keys. *)
Lemma run_writesOnly {A : Type} (env : Env) (cacheKey : jsstring) (p : Prog A) (w : World) :
  Always (writesOnly cacheKey) p ->
  forall k_, k_ <> cacheKey -> storage (snd (run env p w)) !! k_ = storage w !! k_.
Proof.
  intros H. revert w. induction H; intros w k' Hk'; cbn [run]; auto;
    try (rewrite IHAlways by exact Hk'; reflexivity);
    try (match goal with Hk : forall x w k_, _ |- _ => rewrite Hk by exact Hk'; reflexivity end).
  rewrite IHAlways by exact Hk'. cbn [storage pass setStorage].
  simpl in H. subst k_. apply lookup_insert_ne. congruence.
Qed.

Lemma writesOnly_of_resolveOp (cacheKey : jsstring) (o : OpDesc) :
  resolveOp cacheKey o -> writesOnly cacheKey o.
Proof.
  unfold resolveOp. destruct o; simpl; tauto.
Qed.

Lemma fetchAcousticBrainzKeyAnySubmission_store (env : Env) (mbid_ : jsstring) (w : World) :
  storage (snd (run env (fetchAcousticBrainzKeyAnySubmission mbid_) w)) = storage w.
Proof.
  apply run_noWrite. apply (Always_impl abOp); [apply noWrite_of_ab|].
  apply abSubmissions_ops.
Qed.

Lemma firstWithTonal_throws (env : Env) (now : Z) (cacheKey : jsstring)
    (candidates : list Candidate) (w w' : World) (e : Error) :
  run env (firstWithTonal now cacheKey candidates) w = (Thrown e, w') ->
  storage w' = storage w.
Proof.
  revert w. induction candidates as [|mb others IH]; intros w Hrun.
  - discriminate Hrun.
  - rewrite firstWithTonal_cons, run_bind in Hrun.
    pose proof (fetchAcousticBrainzKeyAnySubmission_store env (c_mbid mb) w) as Hst.
    destruct (run env (fetchAcousticBrainzKeyAnySubmission (c_mbid mb)) w)
      as [[[[abKey abScale]|]|e1] w1]; cbn [snd] in Hst.
    + cbv zeta in Hrun. rewrite storageSet_run in Hrun. discriminate Hrun.
    + rewrite (IH w1 Hrun). exact Hst.
    + injection Hrun as _ <-. exact Hst.
Qed.

(** A resolution that throws has written nothing. *)
Lemma resolveUncached_throws (env : Env) (now : Z) (cacheKey title artist : jsstring)
    (w w' : World) (e : Error) :
  run env (resolveUncached now cacheKey title artist) w = (Thrown e, w') ->
  storage w' = storage w.
Proof.
  unfold resolveUncached. rewrite run_bind.
  assert (H1 : storage (snd (run env (lookupViaGetSongBpm title artist) w)) = storage w).
  { apply run_noWrite. apply (Always_impl gsbOp); [apply noWrite_of_gsb|].
    apply lookupViaGetSongBpm_ops. }
  destruct (run env (lookupViaGetSongBpm title artist) w) as [[[g|]|e1] w1]; cbn [snd] in H1.
  - cbv zeta. rewrite storageSet_run. discriminate.
  - rewrite run_bind.
    assert (H2 : storage (snd (run env (searchMusicBrainzRecordings title artist) w1))
                 = storage w1).
    { apply run_noWrite. apply (Always_impl mbOp); [apply noWrite_of_mb|].
      apply searchMusicBrainzRecordings_ops. }
    destruct (run env (searchMusicBrainzRecordings title artist) w1)
      as [[[|top others]|e2] w2]; cbn [snd] in H2.
    + cbv zeta. rewrite storageSet_run. discriminate.
    + rewrite run_bind.
      destruct (run env (firstWithTonal now cacheKey (top :: others)) w2)
        as [[[hit|]|e3] w3] eqn:Hfirst.
      * cbn [run]. discriminate.
      * cbv zeta. rewrite storageSet_run. discriminate.
      * intros H. injection H as _ <-.
        rewrite (firstWithTonal_throws env now cacheKey _ w2 w3 e3 Hfirst). congruence.
    + intros H. injection H as _ <-. congruence.
  - intros H. injection H as _ <-. exact H1.
Qed.

Lemma freshCached_some (now : Z) (cache : option StoreVal) (cached : ResolvedKey) :
  freshCached now cache = Some cached ->
  cache = Some (SRecord cached) /\ now - cachedAt cached < CACHE_TTL_MS.
Proof.
  unfold freshCached. destruct cache as [[s|r]|]; try discriminate.
  destruct (now - cachedAt r <? CACHE_TTL_MS) eqn:Hlt; [|discriminate].
  intros H. injection H as <-. apply Z.ltb_lt in Hlt. auto.
Qed.

Lemma returned_is_stored (env : Env) (cacheKey title artist : jsstring) (w : World)
    (out : ResolvedKey) :
  fst (run env (lookupCamelot cacheKey title artist) w) = Returned out ->
  storage (snd (run env (lookupCamelot cacheKey title artist) w)) !! cacheKey
  = Some (SRecord out).
Proof.
  rewrite lookupCamelot_run.
  destruct (freshCached (clock w) (storage w !! cacheKey)) as [cached|] eqn:Hfresh.
  - cbn [fst snd]. intros H. injection H as <-.
    apply freshCached_some in Hfresh as [Hst _]. exact Hst.
  - destruct (run env (resolveUncached (clock w) cacheKey title artist) (pass env 0 w))
      as [o w'] eqn:Hrun.
    cbn [fst snd]. intros ->.
    apply (resolveUncached_caches env _ _ _ _ _ _ _ Hrun).
Qed.

(** X11: the orchestrator writes to the store under the cache key of the
    message only: every other entry, the credential among them, is left as it
    is.  What it returns is what the store holds under the cache key when it
    returns.  When it throws, the store is as it was before the call: a
    failed lookup caches nothing. *)
Theorem lookupCamelot_store (env : Env) (cacheKey title artist : jsstring) (w : World) :
  (forall k_, k_ <> cacheKey ->
     storage (snd (run env (lookupCamelot cacheKey title artist) w)) !! k_
     = storage w !! k_)
  /\ (forall out,
        fst (run env (lookupCamelot cacheKey title artist) w) = Returned out ->
        storage (snd (run env (lookupCamelot cacheKey title artist) w)) !! cacheKey
        = Some (SRecord out))
  /\ (forall e,
        fst (run env (lookupCamelot cacheKey title artist) w) = Thrown e ->
        storage (snd (run env (lookupCamelot cacheKey title artist) w)) = storage w).
Proof.
  split; [|split].
  - intros k_ Hk. rewrite lookupCamelot_run.
    destruct (freshCached _ _); [reflexivity|].
    rewrite (run_writesOnly env cacheKey _ _
               (Always_impl _ _ _ (writesOnly_of_resolveOp cacheKey)
                  (resolveUncached_ops (clock w) cacheKey title artist)) k_ Hk).
    reflexivity.
  - apply returned_is_stored.
  - intros e. rewrite lookupCamelot_run.
    destruct (freshCached _ _); [discriminate|].
    destruct (run env (resolveUncached (clock w) cacheKey title artist) (pass env 0 w))
      as [o w'] eqn:Hrun.
    cbn [fst snd]. intros ->.
    apply (resolveUncached_throws env _ _ _ _ _ _ _ Hrun).
Qed.

(** Every service is out of reach: the lookup throws and caches nothing. *)
Lemma lookupCamelot_store_witness :
  storage (snd (run (gsbEnv []) (lookupCamelot (js "ta:strobe|deadmau5") (js "Strobe")
                                   (js "deadmau5")) exampleWorld))
  = storage exampleWorld.
Proof.
  refine (proj2 (proj2 (lookupCamelot_store (gsbEnv []) (js "ta:strobe|deadmau5")
                          (js "Strobe") (js "deadmau5") exampleWorld))
            (ErrNetwork (js "offline")) _).
  vm_compute. reflexivity.
Defined.

(** X12: an answer is kept: once a lookup has returned a record for a cache
    key, every later lookup under that key (whatever title and artist it
    carries, whatever the services would say now) returns the same record,
    sends no request and writes nothing, as long as the entry under the key
    is the one the first lookup left and the record is less than 30 days
    old. *)
Theorem lookupCamelot_again (env env' : Env) (cacheKey title artist title' artist' : jsstring)
    (w w1 w2 : World) (out : ResolvedKey) :
  run env (lookupCamelot cacheKey title artist) w = (Returned out, w1) ->
  storage w2 !! cacheKey = storage w1 !! cacheKey ->
  clock w2 - cachedAt out < CACHE_TTL_MS ->
  fst (run env' (lookupCamelot cacheKey title' artist') w2) = Returned out
  /\ trace (snd (run env' (lookupCamelot cacheKey title' artist') w2)) = trace w2
  /\ storage (snd (run env' (lookupCamelot cacheKey title' artist') w2)) = storage w2.
Proof.
  intros Hrun Hsame Hfresh.
  pose proof (returned_is_stored env cacheKey title artist w out) as Hst.
  rewrite Hrun in Hst. cbn [fst snd] in Hst. specialize (Hst eq_refl).
  rewrite lookupCamelot_run, Hsame, Hst. unfold freshCached.
  apply Z.ltb_lt in Hfresh. rewrite Hfresh. auto.
Qed.

(** The second message has another title: it is answered from the store. *)
Lemma lookupCamelot_again_witness :
  let env := exampleEnv (Some exampleTonal) 100 40 in
  let out := hitRecord 1700000000000 (mkCandidate (js "m1") 100) (js "C") (js "major") in
  let w1 := snd (run env (lookupCamelot (js "ta:strobe|deadmau5") (js "Strobe")
                            (js "deadmau5")) exampleWorld) in
  fst (run (gsbEnv []) (lookupCamelot (js "ta:strobe|deadmau5") (js "Ghosts")
                          (js "nobody")) w1) = Returned out
  /\ trace (snd (run (gsbEnv []) (lookupCamelot (js "ta:strobe|deadmau5") (js "Ghosts")
                                    (js "nobody")) w1)) = trace w1
  /\ storage (snd (run (gsbEnv []) (lookupCamelot (js "ta:strobe|deadmau5") (js "Ghosts")
                                      (js "nobody")) w1)) = storage w1.
Proof.
  intros env out w1.
  refine (lookupCamelot_again env (gsbEnv []) (js "ta:strobe|deadmau5") (js "Strobe")
            (js "deadmau5") (js "Ghosts") (js "nobody") exampleWorld w1 w1 out
            _ eq_refl _).
  - vm_compute. reflexivity.
  - vm_compute. reflexivity.
Defined.

(** ** The records *)

Lemma lowerUnit_lowered (c : N) : toLowerCase (lowerUnit c) = lowerUnit c.
Proof.
  unfold lowerUnit.
  destruct (N.leb_spec 65 c), (N.leb_spec c 90); cbn [andb].
  - unfold toLowerCase, lowerUnit. cbn [flat_map].
    destruct (N.leb_spec 65 (c + 32)), (N.leb_spec (c + 32) 90); try lia; cbn [andb];
      destruct (N.eqb_spec (c + 32) 8490); try lia;
      destruct (N.eqb_spec (c + 32) 304); try lia; reflexivity.
  - destruct (N.eqb_spec c 8490); [reflexivity|].
    destruct (N.eqb_spec c 304); [reflexivity|].
    unfold toLowerCase, lowerUnit. cbn [flat_map].
    destruct (N.leb_spec 65 c), (N.leb_spec c 90); try lia; cbn [andb];
      destruct (N.eqb_spec c 8490); try lia;
      destruct (N.eqb_spec c 304); try lia; reflexivity.
  - destruct (N.eqb_spec c 8490); [lia|].
    destruct (N.eqb_spec c 304); [lia|].
    unfold toLowerCase, lowerUnit. cbn [flat_map].
    destruct (N.leb_spec 65 c), (N.leb_spec c 90); try lia; cbn [andb];
      destruct (N.eqb_spec c 8490); try lia;
      destruct (N.eqb_spec c 304); try lia; reflexivity.
  - lia.
Qed.

Lemma toLowerCase_lowered (s : jsstring) : toLowerCase (toLowerCase s) = toLowerCase s.
Proof.
  induction s as [|c s IH]; [reflexivity|].
  change (toLowerCase (c :: s)) with (lowerUnit c ++ toLowerCase s).
  rewrite toLowerCase_app, lowerUnit_lowered, IH. reflexivity.
Qed.

Lemma toLowerCase_nonEmpty (s : jsstring) : s <> [] -> nonEmpty (toLowerCase s) = true.
Proof.
  destruct s as [|c s]; [congruence|]. intros _.
  change (toLowerCase (c :: s)) with (lowerUnit c ++ toLowerCase s).
  unfold lowerUnit.
  destruct (_ && _); [reflexivity|]. destruct (c =? 8490)%N; [reflexivity|].
  destruct (c =? 304)%N; reflexivity.
Qed.

Lemma keyToCamelot_stored (k m : jsstring) :
  keyToCamelot (Some (normalizeKeyName (Some k))) (Some (toLowerCase m))
  = keyToCamelot (Some k) (Some m).
Proof.
  unfold keyToCamelot. rewrite normalizeKeyName_again. cbn [orEmpty].
  rewrite toLowerCase_lowered. reflexivity.
Qed.

Lemma fetchAcousticBrainzKeyAnySubmission_nonEmpty (env : Env) (mbid_ : jsstring)
    (w : World) (k sc : jsstring) :
  fst (run env (fetchAcousticBrainzKeyAnySubmission mbid_) w) = Returned (Some (k, sc)) ->
  k <> [] /\ sc <> [].
Proof.
  unfold fetchAcousticBrainzKeyAnySubmission.
  destruct (abSubmissions_sent env mbid_ [0; 1; 2]%nat w)
    as (sent & unsent & _ & _ & _ & H).
  apply H.
Qed.

Lemma searchMusicBrainzRecordings_candidates (env : Env) (title artist : jsstring)
    (w : World) (l : list Candidate) :
  fst (run env (searchMusicBrainzRecordings title artist) w) = Returned l ->
  Forall (fun c => MUSICBRAINZ_MIN_SCORE <= c_score c /\ c_mbid c <> []) l.
Proof.
  change (searchMusicBrainzRecordings title artist)
    with (searchQueries (mbQueries title artist)).
  destruct (searchQueries_sent env (mbQueries title artist) w)
    as (sent & unsent & _ & _ & _ & H).
  intros Hl. destruct (H l Hl) as [[recs ->] _]. apply rankRecordings_sound.
Qed.

Lemma lowerUnit_basic (c : N) :
  (c <? 128)%N = true -> forallb (fun u => (u <? 128)%N) (lowerUnit c) = true.
Proof.
  intros Hc. apply N.ltb_lt in Hc. unfold lowerUnit.
  destruct (N.leb_spec 65 c), (N.leb_spec c 90); cbn [andb];
    try (destruct (N.eqb_spec c 8490); [lia|]; destruct (N.eqb_spec c 304); [lia|]);
    cbn [forallb]; rewrite andb_true_r; apply N.ltb_lt; lia.
Qed.

Lemma lowerUnit_noCapital (c : N) : noCapital (lowerUnit c) = true.
Proof.
  unfold lowerUnit, noCapital.
  destruct (N.leb_spec 65 c), (N.leb_spec c 90); cbn [andb];
    try (destruct (N.eqb_spec c 8490); [reflexivity|];
         destruct (N.eqb_spec c 304); [reflexivity|]);
    cbn [forallb]; rewrite andb_true_r; apply negb_true_iff, andb_false_iff;
    rewrite !N.leb_gt; lia.
Qed.

(** A lower-cased string has no capital letter. *)
Lemma toLowerCase_noCapital (s : jsstring) : noCapital (toLowerCase s) = true.
Proof.
  induction s as [|c s IH]; [reflexivity|].
  change (toLowerCase (c :: s)) with (lowerUnit c ++ toLowerCase s).
  unfold noCapital in *. rewrite forallb_app, IH, andb_true_r.
  apply lowerUnit_noCapital.
Qed.

Lemma toLowerCase_basic (s : jsstring) :
  isBasicLatin s = true -> isBasicLatin (toLowerCase s) = true.
Proof.
  unfold isBasicLatin. induction s as [|c s IH]; [reflexivity|].
  cbn [forallb]. rewrite andb_true_iff. intros [Hc Hs].
  change (toLowerCase (c :: s)) with (lowerUnit c ++ toLowerCase s).
  rewrite forallb_app, (lowerUnit_basic c Hc). exact (IH Hs).
Qed.

(** A string whose lower-case form is Basic Latin without [k] is Basic
    Latin itself: the only code units beyond Basic Latin that are lowered
    into it are U+212A, to [k], and U+0130, to [i] and U+0307. *)
Lemma toLowerCase_foreign (s : jsstring) :
  isBasicLatin (toLowerCase s) = true -> ~ In 107%N (toLowerCase s) ->
  isBasicLatin s = true.
Proof.
  unfold isBasicLatin. induction s as [|c s IH]; [reflexivity|].
  change (toLowerCase (c :: s)) with (lowerUnit c ++ toLowerCase s).
  rewrite forallb_app, andb_true_iff. intros [Hc Hs] Hk.
  cbn [forallb]. rewrite IH; [|exact Hs|intros H; apply Hk, in_or_app; right; exact H].
  rewrite andb_true_r. unfold lowerUnit in Hc, Hk.
  destruct (N.leb_spec 65 c), (N.leb_spec c 90); cbn [andb] in Hc, Hk;
    try (apply N.ltb_lt; lia).
  destruct (N.eqb_spec c 8490); [exfalso; apply Hk; left; reflexivity|].
  destruct (N.eqb_spec c 304); [discriminate Hc|].
  cbn [forallb] in Hc. rewrite andb_true_r in Hc. exact Hc.
Qed.

(** A mode that is not all Basic Latin is neither "major" nor "minor". *)
Lemma keyToCamelot_foreign (k : option jsstring) (m : jsstring) :
  isBasicLatin m = false -> keyToCamelot k (Some m) = VNull.
Proof.
  intros Hm. unfold keyToCamelot. cbn [orEmpty].
  destruct (strEqb (toLowerCase m) (js "major")) eqn:Hmaj.
  { apply strEqb_spec in Hmaj. rewrite toLowerCase_foreign in Hm; [discriminate| |];
      rewrite Hmaj; [reflexivity|]. simpl. intuition discriminate. }
  destruct (strEqb (toLowerCase m) (js "minor")) eqn:Hmin; [|reflexivity].
  apply strEqb_spec in Hmin. rewrite toLowerCase_foreign in Hm; [discriminate| |];
    rewrite Hmin; [reflexivity|]. simpl. intuition discriminate.
Qed.

Lemma hitRecord_wellFormed (now : Z) (mb : Candidate) (abKey abScale : jsstring) :
  MUSICBRAINZ_MIN_SCORE <= c_score mb -> c_mbid mb <> [] -> abScale <> [] ->
  wellFormed (hitRecord now mb abKey abScale).
Proof.
  intros Hscore Hid Hsc. unfold wellFormed, hitRecord.
  cbn [camelot key mode mbid score provider providerId].
  assert (Hne : nonEmpty abScale = true) by (destruct abScale; [congruence|reflexivity]).
  unfold lowered. destruct (isBasicLatin abScale) eqn:Hbasic.
  - assert (Hmode : orNull (VString (toLowerCase abScale)) = VString (toLowerCase abScale))
      by (unfold orNull; cbn [truthy]; rewrite (toLowerCase_nonEmpty abScale Hsc);
          reflexivity).
    rewrite Hmode. cbn [camelotFor]. rewrite keyToCamelot_stored.
    split; [reflexivity|]. split.
    { right. exists (normalizeKeyName (Some abKey)).
      split; [reflexivity|]. split; [apply normalizeKeyName_again|].
      left. exists (toLowerCase abScale). split; [reflexivity|].
      split.
      { intros H. pose proof (toLowerCase_nonEmpty abScale Hsc) as Hn.
        rewrite H in Hn. discriminate Hn. }
      split; [apply toLowerCase_basic, Hbasic|apply toLowerCase_noCapital]. }
    split; [split; assumption|reflexivity].
  - assert (Hmode : orNull (VLowered abScale) = VLowered abScale)
      by (unfold orNull; cbn [truthy]; rewrite Hne; reflexivity).
    rewrite Hmode. cbn [camelotFor].
    rewrite (keyToCamelot_foreign (Some abKey) abScale Hbasic).
    split; [reflexivity|]. split.
    { right. exists (normalizeKeyName (Some abKey)).
      split; [reflexivity|]. split; [apply normalizeKeyName_again|].
      right. exists abScale. auto. }
    split; [split; assumption|reflexivity].
Qed.

Lemma firstWithTonal_wellFormed (env : Env) (now : Z) (cacheKey : jsstring)
    (candidates : list Candidate) (w w' : World) (out : ResolvedKey) :
  Forall (fun c => MUSICBRAINZ_MIN_SCORE <= c_score c /\ c_mbid c <> []) candidates ->
  run env (firstWithTonal now cacheKey candidates) w = (Returned (Some out), w') ->
  wellFormed out.
Proof.
  revert w. induction candidates as [|mb others IH]; intros w Hgood Hrun.
  - discriminate Hrun.
  - apply Forall_cons in Hgood as [[Hscore Hid] Hgood].
    rewrite firstWithTonal_cons, run_bind in Hrun.
    pose proof (fetchAcousticBrainzKeyAnySubmission_nonEmpty env (c_mbid mb) w) as Hne.
    destruct (run env (fetchAcousticBrainzKeyAnySubmission (c_mbid mb)) w)
      as [[[[abKey abScale]|]|e] w1].
    + cbv zeta in Hrun. rewrite storageSet_run in Hrun. injection Hrun as <- _.
      destruct (Hne abKey abScale eq_refl) as [_ Hsc].
      apply (hitRecord_wellFormed now mb abKey abScale); assumption.
    + apply (IH w1 Hgood Hrun).
    + discriminate Hrun.
Qed.

Lemma gsbRecord_wellFormed (now : Z) (g : GsbHit) :
  g_provider g = js "getsongbpm" ->
  g_mode g = js "major" \/ g_mode g = js "minor" ->
  g_key g ∈ parsedKeys ->
  g_camelot g = camelotOfParsed (g_key g) (g_mode g) ->
  wellFormed {| camelot := g_camelot g; key := VString (g_key g);
                mode := VString (g_mode g); provider := VString (g_provider g);
                providerId := g_providerId g; mbid := VNull; score := None;
                cachedAt := now |}.
Proof.
  intros Hprov Hmode Hkey Hcam. apply setHas_spec in Hkey.
  destruct (parsedKeys_facts (g_key g) (g_mode g) Hkey Hmode) as [Hnorm Hcode].
  unfold wellFormed. cbn [camelot key mode mbid score provider providerId camelotFor].
  split; [rewrite Hcode, camelotOfParsed_orNull; exact Hcam|].
  split.
  { right. exists (g_key g). split; [reflexivity|]. split; [exact Hnorm|].
    left. exists (g_mode g). split; [reflexivity|].
    destruct Hmode as [-> | ->]; (split; [discriminate|split; reflexivity]). }
  split; [exact I|]. split; [exact Hprov|]. split; [reflexivity|discriminate].
Qed.

Lemma resolveUncached_wellFormed (env : Env) (now : Z) (cacheKey title artist : jsstring)
    (w w' : World) (out : ResolvedKey) :
  run env (resolveUncached now cacheKey title artist) w = (Returned out, w') ->
  wellFormed out.
Proof.
  unfold resolveUncached. rewrite run_bind.
  pose proof (lookupViaGetSongBpm_hit env title artist w) as Hhit.
  destruct (run env (lookupViaGetSongBpm title artist) w) as [[[g|]|e] w1].
  - cbv zeta. rewrite storageSet_run. intros H. injection H as <- _.
    destruct (Hhit g eq_refl) as (H1 & H2 & H3 & H4 & _).
    apply gsbRecord_wellFormed; assumption.
  - rewrite run_bind.
    pose proof (searchMusicBrainzRecordings_candidates env title artist w1) as Hcand.
    destruct (run env (searchMusicBrainzRecordings title artist) w1)
      as [[[|top others]|e] w2].
    + cbv zeta. rewrite storageSet_run. intros H. injection H as <- _.
      unfold wellFormed. cbn. split; [reflexivity|]. split; [left; auto|]. auto.
    + specialize (Hcand _ eq_refl). rewrite run_bind.
      destruct (run env (firstWithTonal now cacheKey (top :: others)) w2)
        as [[[hit|]|e] w3] eqn:Hfirst.
      * cbn [run]. intros H. injection H as <- _.
        apply (firstWithTonal_wellFormed env now cacheKey _ w2 w3 hit Hcand Hfirst).
      * cbv zeta. rewrite storageSet_run. intros H. injection H as <- _.
        apply Forall_cons in Hcand as [[Hscore Hid] _].
        unfold wellFormed. cbn. split; [reflexivity|]. split; [left; auto|]. auto.
      * discriminate.
    + discriminate.
  - discriminate.
Qed.

(** X13: every record the orchestrator returns, and every record the store
    holds after it, is well formed, unless it was in the store before.  Its
    Camelot code is the one of its own key and mode; key and mode are both
    null, or the key is normalized and the mode is the lower-case form of
    the scale the service named: a non-empty Basic Latin string without a
    capital letter, or the lower-case form, left to the host, of a scale
    that is not all Basic Latin (the Camelot code is null then); a recording
    identifier comes with a score of at least 60; a record
    tagged "getsongbpm" names a key and no recording, and a record of
    Provider B has no tag. *)
Theorem lookupCamelot_wellFormed (env : Env) (cacheKey title artist : jsstring) (w : World) :
  (forall out,
     fst (run env (lookupCamelot cacheKey title artist) w) = Returned out ->
     wellFormed out \/ storage w !! cacheKey = Some (SRecord out))
  /\ (forall k_ r,
        storage (snd (run env (lookupCamelot cacheKey title artist) w)) !! k_
        = Some (SRecord r) ->
        wellFormed r \/ storage w !! k_ = Some (SRecord r)).
Proof.
  rewrite lookupCamelot_run.
  destruct (freshCached (clock w) (storage w !! cacheKey)) as [cached|] eqn:Hfresh.
  - apply freshCached_some in Hfresh as [Hst _]. cbn [fst snd storage pass]. split.
    + intros out H. injection H as <-. right. exact Hst.
    + intros k_ r H. right. exact H.
  - pose proof (run_writesOnly env cacheKey _ (pass env 0 w)
                  (Always_impl _ _ _ (writesOnly_of_resolveOp cacheKey)
                     (resolveUncached_ops (clock w) cacheKey title artist))) as Hother.
    destruct (run env (resolveUncached (clock w) cacheKey title artist) (pass env 0 w))
      as [o w'] eqn:Hrun.
    cbn [fst snd] in *. split.
    + intros out ->. left. apply (resolveUncached_wellFormed env _ _ _ _ _ _ _ Hrun).
    + intros k_ r Hr. destruct (decide (k_ = cacheKey)) as [->|Hne].
      * destruct o as [out|e].
        -- destruct (resolveUncached_caches env _ _ _ _ _ _ _ Hrun) as [Hst _].
           left. rewrite Hst in Hr. injection Hr as <-.
           apply (resolveUncached_wellFormed env _ _ _ _ _ _ _ Hrun).
        -- right. rewrite (resolveUncached_throws env _ _ _ _ _ _ _ Hrun) in Hr. exact Hr.
      * right. rewrite (Hother k_ Hne) in Hr. exact Hr.
Qed.

(** The record of a Provider B hit, for the scale "major" and for a scale
    that is not all Basic Latin. *)
Lemma lookupCamelot_wellFormed_witness :
  (wellFormed (hitRecord 1700000000000 (mkCandidate (js "m1") 100) (js "C") (js "major"))
   \/ storage exampleWorld !! js "ta:strobe|deadmau5"
      = Some (SRecord (hitRecord 1700000000000 (mkCandidate (js "m1") 100) (js "C")
                         (js "major"))))
  /\ (wellFormed (hitRecord 1700000000000 (mkCandidate (js "m1") 100) (js "C")
                    [68%N; 218%N; 82%N])
      \/ storage exampleWorld !! js "ta:strobe|deadmau5"
         = Some (SRecord (hitRecord 1700000000000 (mkCandidate (js "m1") 100) (js "C")
                            [68%N; 218%N; 82%N])))
  /\ mode (hitRecord 1700000000000 (mkCandidate (js "m1") 100) (js "C")
             [68%N; 218%N; 82%N])
     = VLowered [68%N; 218%N; 82%N]
  /\ camelot (hitRecord 1700000000000 (mkCandidate (js "m1") 100) (js "C")
                [68%N; 218%N; 82%N])
     = VNull.
Proof.
  split; [|split; [|split; reflexivity]].
  - refine (proj1 (lookupCamelot_wellFormed (exampleEnv (Some exampleTonal) 100 40)
                     (js "ta:strobe|deadmau5") (js "Strobe") (js "deadmau5") exampleWorld)
              _ _).
    vm_compute. reflexivity.
  - refine (proj1 (lookupCamelot_wellFormed (exampleEnv (Some foreignTonal) 100 40)
                     (js "ta:strobe|deadmau5") (js "Strobe") (js "deadmau5") exampleWorld)
              _ _).
    vm_compute. reflexivity.
Defined.

(** ** Escaping a phrase for the recording search *)

Lemma luceneEscapePhrase_units (s : option jsstring) :
  luceneEscapePhrase s
  = flat_map (fun c => if (c =? 92)%N then [92; 92]%N
                       else if (c =? 34)%N then [92; 34]%N else [c])
      (normalizeWhitespace s).
Proof.
  unfold luceneEscapePhrase. induction (normalizeWhitespace s) as [|c t IH]; [reflexivity|].
  cbn [flat_map]. rewrite flat_map_app, IH. f_equal.
  destruct (N.eqb_spec c 92) as [->|H92]; [reflexivity|].
  cbn [flat_map]. rewrite app_nil_r. reflexivity.
Qed.

Lemma unescapeLucene_escaped (t : jsstring) :
  unescapeLucene
    (flat_map (fun c => if (c =? 92)%N then [92; 92]%N
                        else if (c =? 34)%N then [92; 34]%N else [c]) t) = t
  /\ wellEscaped
       (flat_map (fun c => if (c =? 92)%N then [92; 92]%N
                           else if (c =? 34)%N then [92; 34]%N else [c]) t) = true.
Proof.
  induction t as [|c t [IH1 IH2]]; [split; reflexivity|].
  cbn [flat_map].
  destruct (N.eqb_spec c 92) as [->|H92].
  - cbn [app unescapeLucene wellEscaped N.eqb Pos.eqb orb andb]. rewrite IH1, IH2. auto.
  - destruct (N.eqb_spec c 34) as [->|H34].
    + cbn [app unescapeLucene wellEscaped N.eqb Pos.eqb orb andb]. rewrite IH1, IH2. auto.
    + cbn [app unescapeLucene wellEscaped].
      destruct (N.eqb_spec c 92); [contradiction|].
      destruct (N.eqb_spec c 34); [contradiction|].
      rewrite IH1, IH2. auto.
Qed.

(** X14: the escaping of a phrase loses nothing and leaves nothing open:
    reading the escaped phrase back, a backslash standing for the character
    after it, gives the phrase with its white space normalized; and in the
    escaped phrase every double quote and every backslash of the phrase is
    preceded by a backslash of its own, so the phrase cannot end the quoted
    string it is put into.  Two phrases are escaped alike only if they are
    the same up to white space. *)
Theorem luceneEscapePhrase_round_trip (s : option jsstring) :
  unescapeLucene (luceneEscapePhrase s) = normalizeWhitespace s
  /\ wellEscaped (luceneEscapePhrase s) = true
  /\ forall s', luceneEscapePhrase s = luceneEscapePhrase s' ->
       normalizeWhitespace s = normalizeWhitespace s'.
Proof.
  rewrite luceneEscapePhrase_units.
  destruct (unescapeLucene_escaped (normalizeWhitespace s)) as [H1 H2].
  split; [exact H1|]. split; [exact H2|].
  intros s' Heq. rewrite luceneEscapePhrase_units in Heq.
  rewrite <- H1, Heq. apply unescapeLucene_escaped.
Qed.

Lemma luceneEscapePhrase_round_trip_witness :
  normalizeWhitespace (Some (js "AC\DC  live")) = normalizeWhitespace (Some (js " AC\DC live")).
Proof.
  refine (proj2 (proj2 (luceneEscapePhrase_round_trip (Some (js "AC\DC  live"))))
            (Some (js " AC\DC live")) _).
  vm_compute. reflexivity.
Defined.

(** ** The options page *)

Lemma endsSolid_trimEnd (s : jsstring) : endsSolid (trimEnd s) = true.
Proof.
  induction s as [|c s IH] using rev_ind; [reflexivity|].
  rewrite trimEnd_snoc. destruct (isWhiteSpace c) eqn:Hc; [exact IH|].
  unfold endsSolid. rewrite rev_app_distr. simpl. rewrite Hc. reflexivity.
Qed.

Lemma trimStart_again (s : jsstring) : trimStart (trimStart s) = trimStart s.
Proof.
  induction s as [|c s IH]; [reflexivity|]. simpl.
  destruct (isWhiteSpace c) eqn:Hc; [exact IH|]. simpl. rewrite Hc. reflexivity.
Qed.

Lemma trimEnd_head (c : N) (r : jsstring) :
  isWhiteSpace c = false -> exists r', trimEnd (c :: r) = c :: r'.
Proof.
  intros Hc. induction r as [|x r IH] using rev_ind.
  - exists []. unfold trimEnd. simpl. rewrite Hc. reflexivity.
  - change (c :: r ++ [x]) with ((c :: r) ++ [x]). rewrite trimEnd_snoc.
    destruct (isWhiteSpace x); [exact IH|]. exists (r ++ [x]). reflexivity.
Qed.

Lemma trim_again (s : jsstring) : trim (trim s) = trim s.
Proof.
  unfold trim.
  assert (Hstart : trimStart (trimEnd (trimStart s)) = trimEnd (trimStart s)).
  { destruct (trimStart s) as [|c r] eqn:Hs; [reflexivity|].
    assert (Hc : isWhiteSpace c = false).
    { pose proof (trimStart_again s) as H. rewrite Hs in H. simpl in H.
      destruct (isWhiteSpace c); [|reflexivity].
      exfalso. clear Hs. induction r as [|x r IH]; [discriminate|].
      simpl in H. destruct (isWhiteSpace x).
      - apply (f_equal (@length N)) in H.
        assert (Hlen : forall t : jsstring, (length (trimStart t) <= length t)%nat).
        { clear. intros t. induction t as [|y t IHt]; simpl; [lia|].
          destruct (isWhiteSpace y); simpl; lia. }
        specialize (Hlen r). simpl in H. lia.
      - apply (f_equal (@length N)) in H. simpl in H. lia. }
    destruct (trimEnd_head c r Hc) as [r' ->]. simpl. rewrite Hc. reflexivity. }
  rewrite Hstart. apply trimEnd_fixed, endsSolid_trimEnd.
Qed.

Lemma nonEmpty_false (s : jsstring) : nonEmpty s = false <-> s = [].
Proof. destruct s; simpl; split; congruence. Qed.

(** X15: what the options page saves is what the worker reads: after a save
    the worker's credential is the trimmed value of the input, and the other
    entries of the store are as before.  The page says "Cleared." exactly
    when the worker then finds no credential (so that Provider A is skipped),
    and "Saved." otherwise; it never throws. *)
Theorem saveKey_round_trip (env env' : Env) (value : option jsstring) (w : World) :
  fst (run env' getGetsongApiKey (snd (run env (saveKey value) w)))
  = Returned (trim (orEmpty value))
  /\ (forall k_, k_ <> GETSONG_KEY_STORAGE ->
        storage (snd (run env (saveKey value) w)) !! k_ = storage w !! k_)
  /\ (fst (run env (saveKey value) w) = Returned (js "Cleared.")
      <-> noCredential (snd (run env (saveKey value) w)))
  /\ (fst (run env (saveKey value) w) = Returned (js "Saved.")
      <-> ~ noCredential (snd (run env (saveKey value) w))).
Proof.
  unfold saveKey, storageSet, getGetsongApiKey, storageGet, noCredential.
  cbn [run bind fst snd storage pass setStorage].
  change KEY_NAME with GETSONG_KEY_STORAGE.
  rewrite lookup_insert_eq. cbn [run fst].
  split; [rewrite trim_again; reflexivity|].
  split; [intros k_ Hk; apply lookup_insert_ne; congruence|].
  rewrite trim_again.
  destruct (trim (orEmpty value)) as [|c t]; cbn [nonEmpty].
  - split; [tauto|]. split; [discriminate|]. intros H. contradiction H. reflexivity.
  - split; [split; discriminate|]. split; [intros _; discriminate|reflexivity].
Qed.

(** The cached records are not touched by a save. *)
Lemma saveKey_round_trip_witness :
  storage (snd (run (gsbEnv []) (saveKey (Some (js " secret "))) (cachedWorld 0)))
    !! js "ta:strobe|deadmau5"
  = storage (cachedWorld 0) !! js "ta:strobe|deadmau5".
Proof.
  refine (proj1 (proj2 (saveKey_round_trip (gsbEnv []) (gsbEnv []) (Some (js " secret "))
                          (cachedWorld 0))) (js "ta:strobe|deadmau5") _).
  discriminate.
Defined.

(** ** The overlay script: from a row to a message *)

Lemma norm_tidy (s : option jsstring) : tidy (norm s) = true.
Proof. apply normalizeWhitespace_tidy. Qed.

Lemma norm_In (s : jsstring) (c : N) : In c (norm (Some s)) -> c = 32%N \/ In c s.
Proof.
  unfold norm, orEmpty. intros H. apply trim_In, replaceRuns_In in H. tauto.
Qed.

Lemma split_hd (sep : N) (s : jsstring) : In (hd [] (split sep s)) (split sep s).
Proof.
  destruct s as [|c s]; simpl; [auto|].
  destruct (c =? sep)%N; [left; reflexivity|].
  destruct (split sep s); left; reflexivity.
Qed.

Lemma pickArtist_spec (title : jsstring) (cands : list jsstring) :
  nonEmpty (pickArtist title cands) = true ->
  exists cand,
    In cand cands
    /\ pickArtist title cands = norm (Some (hd [] (split 8226 cand)))
    /\ pickArtist title cands <> title
    /\ isMetaLine (pickArtist title cands) = false.
Proof.
  induction cands as [|cand others IH]; simpl; [discriminate|].
  destruct (nonEmpty (norm (Some (hd [] (split 8226 cand))))
            && negb (strEqb (norm (Some (hd [] (split 8226 cand)))) title)
            && negb (isMetaLine (norm (Some (hd [] (split 8226 cand)))))) eqn:Hok.
  - intros _. apply andb_true_iff in Hok as [Hok Hmeta].
    apply andb_true_iff in Hok as [_ Hne].
    apply negb_true_iff in Hmeta. apply negb_true_iff, strEqb_false in Hne.
    exists cand. auto.
  - intros H. destruct (IH H) as (c & Hin & H1 & H2 & H3). exists c. auto.
Qed.

Lemma parseRowText_parts (innerText : option jsstring) (title artist : jsstring) :
  parseRowText innerText = Some (title, artist) ->
  title <> [] /\ artist <> [] /\ title <> artist
  /\ tidy title = true /\ tidy artist = true
  /\ isMetaLine title = false /\ isMetaLine artist = false
  /\ ~ In 8226%N artist
  /\ (exists line, In line (split 10 (orEmpty innerText)) /\ title = norm (Some line)).
Proof.
  unfold parseRowText.
  destruct (negb (nonEmpty (orEmpty innerText))); [discriminate|].
  set (lines := List.filter nonEmpty
                  (List.map (fun l => norm (Some l)) (split 10 (orEmpty innerText)))).
  set (clean := List.filter (fun l => negb (isMetaLine l)) lines).
  destruct (length clean <? 2)%nat; [discriminate|].
  destruct (negb (nonEmpty (hd [] clean))
            || negb (nonEmpty (pickArtist (hd [] clean) (firstn 3 (skipn 1 clean)))))
    eqn:Hempty; [discriminate|].
  intros H. injection H as Ht Ha.
  apply orb_false_iff in Hempty as [Htitle Hartist].
  apply negb_false_iff in Htitle, Hartist.
  rewrite Ht in Htitle, Hartist, Ha. rewrite Ha in Hartist.
  assert (Hin : In title clean).
  { rewrite <- Ht. destruct clean as [|t rest]; [|left; reflexivity].
    simpl in Ht. rewrite <- Ht in Htitle. discriminate Htitle. }
  apply filter_In in Hin as [Hlines Hmeta]. apply negb_true_iff in Hmeta.
  apply filter_In in Hlines as [Hmap _].
  apply in_map_iff in Hmap as [line [Hline Hsplit]].
  assert (Hpick : nonEmpty (pickArtist title (firstn 3 (skipn 1 clean))) = true)
    by (rewrite Ha; exact Hartist).
  destruct (pickArtist_spec _ _ Hpick) as (cand & _ & Hnorm & Hdiff & Hmeta').
  rewrite Ha in Hnorm, Hdiff, Hmeta'.
  split; [intros ->; discriminate|]. split; [intros ->; discriminate|].
  split; [congruence|]. split; [rewrite <- Hline; apply norm_tidy|].
  split; [rewrite Hnorm; apply norm_tidy|]. split; [exact Hmeta|]. split; [exact Hmeta'|].
  split; [|exists line; auto].
  rewrite Hnorm. intros Hbullet. apply norm_In in Hbullet as [Hbullet|Hbullet];
    [discriminate|].
  destruct (split_In 8226 cand _ 8226 (split_hd 8226 cand) Hbullet) as [_ Hne].
  congruence.
Qed.

(** X16: a row the overlay script can parse gives a title and an artist that
    are not empty, differ from each other, have their white space normalized
    (so that the worker, which normalizes them again, works on the very same
    strings), and are no meta lines (durations, "explicit", play counts);
    the title is one of the lines of the row's text, and the artist holds no
    bullet. *)
Theorem parseRowText_sound (innerText : option jsstring) (title artist : jsstring) :
  parseRowText innerText = Some (title, artist) ->
  title <> [] /\ artist <> [] /\ title <> artist
  /\ normalizeWhitespace (Some title) = title
  /\ normalizeWhitespace (Some artist) = artist
  /\ isMetaLine title = false /\ isMetaLine artist = false
  /\ ~ In 8226%N artist
  /\ (exists line, In line (split 10 (orEmpty innerText)) /\ title = norm (Some line)).
Proof.
  intros H.
  destruct (parseRowText_parts innerText title artist H)
    as (H1 & H2 & H3 & H4 & H5 & H6 & H7 & H8 & H9).
  split; [exact H1|]. split; [exact H2|]. split; [exact H3|].
  split; [apply normalizeWhitespace_fixed, H4|].
  split; [apply normalizeWhitespace_fixed, H5|]. auto.
Qed.

(** A row with a duration and an album after the bullet. *)
Lemma parseRowText_sound_witness :
  js "Strobe" <> js "deadmau5"
  /\ isMetaLine (js "deadmau5") = false.
Proof.
  destruct (parseRowText_sound
              (Some (js "Strobe" ++ [10%N] ++ js "10:37" ++ [10%N]
                     ++ js "deadmau5 " ++ [8226%N] ++ js " For Lack of a Better Name"))
              (js "Strobe") (js "deadmau5"))
    as (_ & _ & H3 & _ & _ & _ & H7 & _).
  - vm_compute. reflexivity.
  - split; [exact H3|exact H7].
Defined.

Lemma lookupCamelot_writesOnly (cacheKey title artist : jsstring) :
  Always (writesOnly cacheKey) (lookupCamelot cacheKey title artist).
Proof.
  unfold lookupCamelot, storageGet. cbn [bind].
  constructor; [exact I|]. intros now.
  constructor; [exact I|]. intros cache.
  destruct (freshCached now cache); [constructor|].
  apply (Always_impl (resolveOp cacheKey)); [|apply resolveUncached_ops].
  apply writesOnly_of_resolveOp.
Qed.

Lemma job_writesOnly (c : nat) (msg : Message) :
  Always (writesOnly (orEmpty (m_cacheKey msg))) (job c msg).
Proof.
  unfold job. apply Always_tryCatch.
  - destruct (incomplete msg); [constructor; [exact I|constructor]|].
    apply Always_bind; [apply lookupCamelot_writesOnly|].
    intros data. constructor; [exact I|constructor].
  - intros e. constructor; [exact I|constructor].
Qed.

(** X17: the message the overlay script sends for a parsed row is one the
    worker takes up: its type is among those the listener accepts, nothing
    is missing from it, and the callback of the listener is the lookup of
    the parsed title and artist under the key ["ta:" + title + "|" + artist]
    (lower-cased by the host), answered to the sender.  That key is never
    the storage key of the credential, so serving the message leaves the
    stored credential as it is. *)
Theorem rowMessage_served (lower : jsstring -> jsstring) (innerText : option jsstring)
    (msg : Message) (c : nat) (env : Env) (w : World) :
  rowMessage lower innerText = Some msg ->
  exists title artist,
    parseRowText innerText = Some (title, artist)
    /\ isLookup msg = true
    /\ incomplete msg = false
    /\ job c msg
       = tryCatch
           (do data <- lookupCamelot (cacheKeyFor lower title artist) title artist;
            SendResponse c (PayloadOk (Some data)) (Ret tt))
           (fun e => SendResponse c (PayloadFail e) (Ret tt))
    /\ cacheKeyFor lower title artist <> GETSONG_KEY_STORAGE
    /\ storage (snd (run env (job c msg) w)) !! GETSONG_KEY_STORAGE
       = storage w !! GETSONG_KEY_STORAGE.
Proof.
  unfold rowMessage.
  destruct (parseRowText innerText) as [[title artist]|] eqn:Hparse; [|discriminate].
  intros H. injection H as <-. exists title, artist.
  destruct (parseRowText_parts innerText title artist Hparse)
    as (H1 & H2 & _ & H4 & H5 & _).
  assert (Hinc : incomplete (requestCamelot (cacheKeyFor lower title artist) title artist)
                 = false).
  { unfold incomplete, requestCamelot. cbn [m_title m_artist m_cacheKey orEmpty].
    rewrite (normalizeWhitespace_fixed title H4), (normalizeWhitespace_fixed artist H5).
    destruct title; [congruence|]. destruct artist; [congruence|]. reflexivity. }
  assert (Hkey : cacheKeyFor lower title artist <> GETSONG_KEY_STORAGE)
    by (unfold cacheKeyFor; discriminate).
  split; [reflexivity|]. split; [reflexivity|]. split; [exact Hinc|].
  split.
  { unfold job. rewrite Hinc. unfold requestCamelot. cbn [m_title m_artist m_cacheKey orEmpty].
    rewrite (normalizeWhitespace_fixed title H4), (normalizeWhitespace_fixed artist H5).
    reflexivity. }
  split; [exact Hkey|].
  apply (run_writesOnly env _ _ w
           (job_writesOnly c (requestCamelot (cacheKeyFor lower title artist) title artist))).
  cbn [requestCamelot m_cacheKey orEmpty]. congruence.
Qed.

Lemma rowMessage_served_witness :
  exists title artist,
    parseRowText (Some (js "Strobe" ++ [10%N] ++ js "deadmau5")) = Some (title, artist)
    /\ cacheKeyFor toLowerCase title artist <> GETSONG_KEY_STORAGE.
Proof.
  destruct (rowMessage_served toLowerCase (Some (js "Strobe" ++ [10%N] ++ js "deadmau5"))
              (requestCamelot (js "ta:strobe|deadmau5") (js "Strobe") (js "deadmau5"))
              0%nat (exampleEnv None 80 40) exampleWorld)
    as (title & artist & Hp & _ & _ & _ & Hk & _).
  - vm_compute. reflexivity.
  - exists title, artist. split; [exact Hp|exact Hk].
Defined.

(** ** The chain never breaks and never stalls *)

Lemma advance_atAwait (c : nat) (p : Prog unit) (w : World) :
  Answers c p ->
  fst (advance p w) = Ret tt
  \/ (Answers c (fst (advance p w)) /\ atAwait (fst (advance p w)) = true).
Proof.
  intros H. revert w.
  induction H as [pl|k _ IH|k _ IH|t k _ IH|ms k Hk _|r k Hk _|k Hk _|k_ k Hk _
                  |k_ v k Hk _|k _ IH]; intros w; cbn [advance fst snd].
  - left. reflexivity.
  - apply IH.
  - apply IH.
  - apply (IH (setLast t w)).
  - right. split; [constructor; exact Hk|reflexivity].
  - right. split; [constructor; exact Hk|reflexivity].
  - right. split; [constructor; exact Hk|reflexivity].
  - right. split; [constructor; exact Hk|reflexivity].
  - right. split; [constructor; exact Hk|reflexivity].
  - apply (IH (logEvent EvWarn w)).
Qed.

Lemma Forall_without {A : Type} (P : A -> Prop) (l1 l2 : list A) (x : A) :
  Forall P (l1 ++ x :: l2) -> P x /\ Forall P (l1 ++ l2).
Proof.
  rewrite !Forall_app, Forall_cons. tauto.
Qed.

Lemma unbroken_land (s : Sys) (c d : nat) (p : Prog unit) (rs : list Reaction)
    (ts : list Task) :
  Forall (fun st => isRejected st = false) (promises s) ->
  Forall (fun t => atAwait (remaining t) = true /\ exists c, Answers c (remaining t)) ts ->
  Forall (fun r => exists c msg, callback r = job c msg) rs ->
  Answers c p ->
  unbroken (land d (advance p (world s)) s rs ts).
Proof.
  intros Hps Hts Hrs Hp.
  destruct (advance_atAwait c p (world s) Hp) as [Hdone|[Hans Hawait]].
  - rewrite (land_done d _ s rs ts Hdone). unfold unbroken. cbn [promises tasks reactions].
    split; [|split; assumption].
    unfold settle. apply Forall_insert; [exact Hps|reflexivity].
  - rewrite (land_waiting c d _ s rs ts Hans). unfold unbroken.
    cbn [promises tasks reactions].
    split; [exact Hps|]. split; [|exact Hrs].
    apply Forall_app. split; [exact Hts|].
    constructor; [|constructor]. cbn [remaining]. eauto.
Qed.

Lemma unbroken_step (s s' : Sys) : unbroken s -> step s s' -> unbroken s'.
Proof.
  intros (Hps & Hts & Hrs) Hstep.
  destruct Hstep as [s msg|s rs1 r rs2 Hr Hful|s rs1 r rs2 e Hr Hrej
                    |s ts1 t ts2 x k Ht Hres|s d].
  - unfold listener. destruct (isLookup msg); unfold unbroken; cbn [promises tasks reactions].
    + split; [apply Forall_app; split; [exact Hps|constructor; [reflexivity|constructor]]|].
      split; [exact Hts|].
      apply Forall_app. split; [exact Hrs|]. constructor; [|constructor].
      cbn [callback]. eauto.
    + auto.
  - rewrite Hr in Hrs. apply Forall_without in Hrs as [(c & msg & Hcb) Hrs].
    apply (unbroken_land s c); try assumption.
    rewrite Hcb. apply job_answers.
  - exfalso. rewrite Forall_lookup in Hps. specialize (Hps _ _ Hrej). discriminate Hps.
  - rewrite Ht in Hts. apply Forall_without in Hts as [[_ [c Hc]] Hts].
    apply (unbroken_land s c); try assumption.
    apply (resume_answers c _ k x (world s) Hc Hres).
  - unfold unbroken. cbn [promises tasks reactions]. auto.
Qed.

Lemma unbroken_reachable (w0 : World) (s : Sys) : reachable w0 s -> unbroken s.
Proof.
  intros Hreach. induction Hreach as [|s s' _ IH Hstep].
  - unfold unbroken, initial. cbn [promises tasks reactions].
    split; [constructor; [reflexivity|constructor]|]. split; constructor.
  - apply (unbroken_step s s' IH Hstep).
Qed.

(** X18: the chain never breaks: in every state the worker can reach,
    whatever the services answer and whatever fails, no promise of the chain
    is rejected.  So a lookup that fails never makes a later callback be
    skipped: every callback is started when its turn comes. *)
Theorem chain_never_rejected (w0 : World) (s : Sys) :
  reachable w0 s ->
  forall i e, promises s !! i <> Some (Rejected e).
Proof.
  intros Hreach. destruct (unbroken_reachable w0 s Hreach) as (Hps & _ & _).
  intros i e Hi. rewrite Forall_lookup in Hps. specialize (Hps _ _ Hi). discriminate Hps.
Qed.

Lemma chain_never_rejected_witness :
  promises (listener exampleMessage (initial exampleWorld)) !! 1%nat
  <> Some (Rejected ErrJson)
  /\ promises quietState !! 1%nat <> Some (Rejected (ErrNetwork (js "offline")))
  /\ sent (trace (world quietState))
     = [(0%nat, PayloadFail (ErrNetwork (js "offline"))); (1%nat, PayloadOk None)].
Proof.
  split; [|split; [|vm_compute; reflexivity]].
  - refine (chain_never_rejected exampleWorld
              (listener exampleMessage (initial exampleWorld)) _ 1%nat ErrJson).
    apply (reach_step _ _ _ (reach_init _) (step_message _ exampleMessage)).
  - refine (chain_never_rejected exampleWorld quietState _ 1%nat
              (ErrNetwork (js "offline"))).
    apply (received_reachable _ _ _ quietState_received).
Defined.

(** X19: the chain never stalls: in every state the worker can reach with
    work left (a callback in flight, or one not yet started), the worker can
    go on.  A callback in flight is suspended at an await and goes on
    whatever the await settles with; when none is in flight, the first
    callback of the chain waits for a promise that is fulfilled, so it can
    start. *)
Theorem chain_never_stalls (w0 : World) (s : Sys) :
  answered (trace w0) = [] ->
  reachable w0 s ->
  (forall t, In t (tasks s) ->
     atAwait (remaining t) = true
     /\ forall x, exists k, resume (remaining t) x (world s) = Some k)
  /\ (tasks s = [] ->
      forall r rs, reactions s = r :: rs ->
        promises s !! awaited r = Some Fulfilled
        /\ exists s', step s s' /\ reactions s' = rs).
Proof.
  intros H0 Hreach.
  destruct (unbroken_reachable w0 s Hreach) as (_ & Hts & Hrs).
  destruct (Inv_reachable w0 s H0 Hreach) as (head & lo & Hchain & _ & _ & Hfl & _).
  split.
  - intros t Ht. rewrite Forall_forall in Hts.
    destruct (Hts t (proj2 (list_elem_of_In _ _) Ht)) as [Haw _].
    split; [exact Haw|]. intros x. apply atAwait_resume, Haw.
  - intros Hnone r rs Hr.
    assert (Hful : promises s !! awaited r = Some Fulfilled).
    { rewrite Hr in Hchain. destruct Hchain as [-> _].
      destruct Hfl as [(_ & Hhead & _)|(t & c & Htask & _)]; [exact Hhead|].
      rewrite Hnone in Htask. discriminate Htask. }
    split; [exact Hful|].
    exists (land (derived r) (advance (callback r) (world s)) s ([] ++ rs) (tasks s)).
    split; [apply (step_react s [] r rs Hr Hful)|].
    rewrite Hr in Hrs. apply Forall_cons in Hrs as [(c & msg & Hcb) _].
    destruct (advance_atAwait c (callback r) (world s)) as [Hdone|[Hans _]].
    + rewrite Hcb. apply job_answers.
    + rewrite (land_done _ _ s _ _ Hdone). reflexivity.
    + rewrite (land_waiting c _ _ s _ _ Hans). reflexivity.
Qed.

Lemma chain_never_stalls_witness :
  promises (listener exampleMessage (initial exampleWorld))
    !! awaited (mkReaction 0 1 (job 0 exampleMessage)) = Some Fulfilled
  /\ exists s', step (listener exampleMessage (initial exampleWorld)) s'
                /\ reactions s' = [].
Proof.
  refine (proj2 (chain_never_stalls exampleWorld
                   (listener exampleMessage (initial exampleWorld)) _ _) _
            (mkReaction 0 1 (job 0 exampleMessage)) [] _).
  - reflexivity.
  - apply (reach_step _ _ _ (reach_init _) (step_message _ exampleMessage)).
  - reflexivity.
  - reflexivity.
Defined.

(** ** Failures and short cuts *)

Lemma rateLimitedMusicBrainzFetch_refused (env : Env) (query : jsstring) (w : World)
    (res : Response) :
  (forall n, respond env n (ReqMbSearch query) = NetOk res) -> ok res = false ->
  fst (run env (rateLimitedMusicBrainzFetch query) w) = Thrown (ErrHttp (status res)).
Proof.
  intros Hresp Hok. unfold rateLimitedMusicBrainzFetch, sleep, fetch. cbn [run bind].
  destruct (Z.max 0 (MB_MIN_INTERVAL_MS - (clock w - lastMbRequestAt w)) =? 0);
    cbn [run bind]; rewrite Hresp; cbn [run bind]; rewrite Hok; reflexivity.
Qed.

(** X20: a refusal by the recording database aborts the whole search: when
    the first query, which can be encoded, is answered with a status outside
    200-299, the search throws the error that carries that status, having
    sent that one request only; the two less specific queries are not
    tried.  (A refusal by the tonal-data service, in contrast, only yields
    null.) *)
Theorem searchMusicBrainzRecordings_refused (env : Env) (title artist : jsstring)
    (w : World) (res : Response) :
  encodable (hd [] (mbQueries title artist)) = true ->
  (forall n, respond env n (ReqMbSearch (hd [] (mbQueries title artist))) = NetOk res) ->
  ok res = false ->
  fst (run env (searchMusicBrainzRecordings title artist) w) = Thrown (ErrHttp (status res))
  /\ fetches (trace (snd (run env (searchMusicBrainzRecordings title artist) w)))
     = fetches (trace w) ++ [ReqMbSearch (hd [] (mbQueries title artist))].
Proof.
  intros Henc Hresp Hok.
  change (searchMusicBrainzRecordings title artist)
    with (searchQueries (mbQueries title artist)).
  unfold mbQueries in *. cbv zeta in *. cbn [hd] in Henc, Hresp |- *.
  rewrite (searchQueries_cons _ _ Henc), run_bind.
  pose proof (rateLimitedMusicBrainzFetch_refused env _ w res Hresp Hok) as Hthrow.
  destruct (rateLimitedMusicBrainzFetch_run env
              (js "recording:" ++ [34%N] ++ luceneEscapePhrase (Some title) ++ [34%N]
               ++ js " AND artist:" ++ [34%N] ++ luceneEscapePhrase (Some artist) ++ [34%N]) w)
    as (t & Htr & _).
  destruct (run env (rateLimitedMusicBrainzFetch _) w) as [[data|e] w1];
    cbn [fst snd] in *; [discriminate Hthrow|].
  injection Hthrow as ->.
  split; [reflexivity|]. rewrite Htr. apply fetches_snoc.
Qed.

Lemma searchMusicBrainzRecordings_refused_witness :
  let env := {| respond := fun _ _ => NetOk (mkResponse 503 None);
                elapsed := fun _ => 40%N |} in
  fst (run env (searchMusicBrainzRecordings (js "Strobe") (js "deadmau5")) exampleWorld)
  = Thrown (ErrHttp 503)
  /\ fetches (trace (snd (run env (searchMusicBrainzRecordings (js "Strobe") (js "deadmau5"))
                            exampleWorld)))
     = fetches (trace exampleWorld)
       ++ [ReqMbSearch (hd [] (mbQueries (js "Strobe") (js "deadmau5")))].
Proof.
  intros env.
  refine (searchMusicBrainzRecordings_refused env (js "Strobe") (js "deadmau5") exampleWorld
            (mkResponse 503 None) _ _ _).
  - reflexivity.
  - intros n. reflexivity.
  - reflexivity.
Defined.

Lemma lookupViaGetSongBpm_hit_trace (env : Env) (title artist : jsstring) (w : World)
    (g : GsbHit) :
  fst (run env (lookupViaGetSongBpm title artist) w) = Returned (Some g) ->
  exists raw,
    storage w !! GETSONG_KEY_STORAGE = Some (SString raw)
    /\ trim raw <> []
    /\ trace (snd (run env (lookupViaGetSongBpm title artist) w))
       = trace w ++ [EvFetch (clock (pass env 0 w))
                       (ReqGetSong (trim raw) (gsbLookup title artist))].
Proof.
  intros Hg.
  destruct (storage w !! GETSONG_KEY_STORAGE) as [[raw|rec]|] eqn:Hkey.
  - destruct (trim raw) as [|c t] eqn:Htrim.
    + rewrite lookupViaGetSongBpm_silent_key in Hg; [discriminate|].
      unfold noCredential. rewrite Hkey. exact Htrim.
    + assert (Hne : trim raw <> []) by (rewrite Htrim; discriminate).
      exists raw. split; [reflexivity|]. split; [exact Hne|].
      destruct (encodable (gsbLookup title artist)) eqn:Henc.
      * apply (lookupViaGetSongBpm_asks env title artist w raw Hkey Hne Henc).
      * rewrite (lookupViaGetSongBpm_malformed env title artist w raw Hkey Hne Henc) in Hg.
        discriminate Hg.
  - revert Hg. unfold lookupViaGetSongBpm, getGetsongApiKey, storageGet.
    cbn [run bind]. rewrite Hkey. discriminate.
  - rewrite lookupViaGetSongBpm_silent_key in Hg; [discriminate|].
    unfold noCredential. rewrite Hkey. exact I.
Qed.

(** X21: when nothing fresh is cached and Provider A has an answer,
    Provider B is not asked: the lookup returns Provider A's record, with no
    recording and no score, stamped with the time at which the lookup began;
    the record is cached; the one request of the whole lookup is Provider
    A's, and the rate limiter is as it was. *)
Theorem provider_a_first (env : Env) (cacheKey title artist : jsstring) (w wa : World)
    (g : GsbHit) :
  freshCached (clock w) (storage w !! cacheKey) = None ->
  run env (lookupViaGetSongBpm title artist) (pass env 0 w) = (Returned (Some g), wa) ->
  exists out w',
    run env (lookupCamelot cacheKey title artist) w = (Returned out, w')
    /\ out = {| camelot := g_camelot g; key := VString (g_key g);
                mode := VString (g_mode g); provider := VString (js "getsongbpm");
                providerId := g_providerId g; mbid := VNull; score := None;
                cachedAt := clock w |}
    /\ storage w' = <[cacheKey := SRecord out]> (storage w)
    /\ providerBTimes (trace w') = providerBTimes (trace w)
    /\ lastMbRequestAt w' = lastMbRequestAt w
    /\ exists apiKey,
         apiKey <> []
         /\ fetches (trace w') = fetches (trace w) ++ [ReqGetSong apiKey (gsbLookup title artist)].
Proof.
  intros Hcache Hgsb.
  pose proof (lookupViaGetSongBpm_hit env title artist (pass env 0 w) g) as Hshape.
  pose proof (lookupViaGetSongBpm_hit_trace env title artist (pass env 0 w) g) as Htrace.
  pose proof (run_noWrite env (lookupViaGetSongBpm title artist) (pass env 0 w)
                (Always_impl _ _ _ noWrite_of_gsb (lookupViaGetSongBpm_ops title artist)))
    as Hstore.
  pose proof (run_quietMb env (lookupViaGetSongBpm title artist) (pass env 0 w)
                (Always_impl _ _ _ quiet_of_gsb (lookupViaGetSongBpm_ops title artist)))
    as [_ Hlast].
  rewrite Hgsb in Hshape, Htrace, Hstore, Hlast. cbn [fst snd] in *.
  destruct (Hshape eq_refl) as (Hprov & _).
  destruct (Htrace eq_refl) as (raw & _ & Hne & Htr).
  eexists _, _. split.
  { rewrite lookupCamelot_run, Hcache. unfold resolveUncached.
    rewrite run_bind, Hgsb. cbv zeta. rewrite storageSet_run. reflexivity. }
  split; [rewrite Hprov; reflexivity|].
  cbn [storage trace lastMbRequestAt pass setStorage].
  split; [rewrite Hstore, Hprov; reflexivity|].
  split.
  { rewrite Htr. unfold providerBTimes. rewrite omap_app. cbn [omap list_omap].
    apply app_nil_r. }
  split; [exact Hlast|].
  exists (trim raw). split; [exact Hne|]. rewrite Htr. apply fetches_snoc.
Qed.

Lemma provider_a_first_witness :
  exists out w',
    run (gsbEnv [itemWithKey (js "F#m")])
        (lookupCamelot (js "ta:strobe|deadmau5") (js "Strobe") (js "deadmau5")) gsbWorld
    = (Returned out, w')
    /\ camelot out = VString (js "11A")
    /\ providerBTimes (trace w') = providerBTimes (trace gsbWorld).
Proof.
  set (env := gsbEnv [itemWithKey (js "F#m")]).
  set (g := gsbRecord (itemWithKey (js "F#m")) (js "F#") (js "minor")).
  set (wa := snd (run env (lookupViaGetSongBpm (js "Strobe") (js "deadmau5"))
                    (pass env 0 gsbWorld))).
  destruct (provider_a_first env (js "ta:strobe|deadmau5") (js "Strobe") (js "deadmau5")
              gsbWorld wa g)
    as (out & w' & Hrun & Hout & _ & Hb & _).
  - reflexivity.
  - vm_compute. reflexivity.
  - exists out, w'. split; [exact Hrun|]. split; [rewrite Hout; reflexivity|exact Hb].
Defined.
